(** * Timeseries cache request: a shallow embedding and its properties

    The development follows
    [dashboard/dashboard/spa/timeseries-cache-request.js]:
    the bisection helper and the row merger, the slice (one remote fetch with
    its retry policy), request parsing, the cache reader, the slice planner,
    the in-flight coalescer, the result generator and the cache writer.

    Conventions.
    - JavaScript numbers that the program handles here are revisions,
      indices, HTTP status codes and millisecond timestamps: integers below
      2^53, on which double arithmetic is exact.  They are modelled as [Z].
    - A property read [obj[key]] is a lookup; [None] stands for
      [undefined].  The result of an arithmetic operation on [undefined]
      is [NaN], also written [None]; every comparison with [NaN] is false.
    - An object has own properties, and an own property may hold
      [undefined]: [Object.assign], [Object.entries] and the spread of an
      object copy such a property like any other.  Rows and the metadata
      of result objects keep the two apart: a property that is absent,
      and a property that is there with the value [undefined].
    - An asynchronous function is modelled by the function of its inputs to
      its result; the interleavings that matter (the order in which slice
      responses complete) are explicit inputs. *)

From Stdlib Require Import Ascii String.
From Equations Require Import Equations.
From stdpp Require Import gmap strings list fin_maps sorting pretty.

Local Open Scope Z_scope.

(** ** JavaScript values *)

(** A data row ([datum]): a JavaScript object whose own properties are
    column names.  A property holds a number or [undefined] ([None]): the
    latter is what [normalize] gives a row of the table that is shorter
    than the list of column names. *)
Record Row : Type := mkRow { props : gmap string (option Z) }.

#[global] Instance Row_eq_dec : EqDecision Row.
Proof. solve_decision. Defined.

(** [row[key]]: [None] (undefined) when the row has no such property, and
    when the property holds [undefined]. *)
#[global] Instance Row_lookup : Lookup string Z Row :=
  λ key row, props row !! key ≫= id.

(** [key in row], for own properties. *)
Definition hasOwn (row : Row) (key : string) : Prop :=
  is_Some (props row !! key).

(** [{}]. *)
#[global] Instance Row_empty : Empty Row := mkRow ∅.

(** [row[key] = value], with a number. *)
#[global] Instance Row_insert : Insert string Z Row :=
  λ key value row, mkRow (<[key := Some value]> (props row)).

(** [row[key] = value], with any value: the property is there afterwards,
    also when the value is [undefined]. *)
Definition setProp (key : string) (value : option Z) (row : Row) : Row :=
  mkRow (<[key := value]> (props row)).

#[global] Instance Row_singleton : SingletonM string Z Row :=
  λ key value, mkRow {[key := Some value]}.

(** [delete row[key]]. *)
#[global] Instance Row_delete : Delete string Row :=
  λ key row, mkRow (delete key (props row)).

(** [Object.assign({}, b, a)]: the own properties of both, those of [a]
    winning, whatever they hold. *)
#[global] Instance Row_union : Union Row :=
  λ a b, mkRow (props a ∪ props b).

Lemma Row_lookup_unfold (row : Row) (key : string) :
  row !! key = props row !! key ≫= id.
Proof. reflexivity. Qed.

Lemma Row_lookup_Some (row : Row) (key : string) (value : Z) :
  row !! key = Some value ↔ props row !! key = Some (Some value).
Proof.
  rewrite Row_lookup_unfold. destruct (props row !! key) as [[v|]|]; simpl;
    split; congruence.
Qed.

Lemma Row_lookup_hasOwn (row : Row) (key : string) :
  is_Some (row !! key) → hasOwn row key.
Proof.
  intros [v Hv]. apply Row_lookup_Some in Hv. unfold hasOwn. eauto.
Qed.

Lemma Row_lookup_empty (key : string) : (∅ : Row) !! key = None.
Proof. rewrite Row_lookup_unfold. simpl. rewrite lookup_empty. reflexivity. Qed.

Lemma Row_props_union (a b : Row) : props (a ∪ b) = props a ∪ props b.
Proof. reflexivity. Qed.

Lemma Row_lookup_union_Some_l (a b : Row) (key : string) (value : Z) :
  a !! key = Some value → (a ∪ b) !! key = Some value.
Proof.
  rewrite !Row_lookup_Some, Row_props_union. apply lookup_union_Some_l.
Qed.

(** A property of [a] wins even when it holds [undefined]; [b] is read
    only where [a] has no such property. *)
Lemma Row_lookup_union (a b : Row) (key : string) :
  (a ∪ b) !! key
  = match props a !! key with
    | Some value => value
    | None => b !! key
    end.
Proof.
  rewrite !Row_lookup_unfold, Row_props_union.
  destruct (props a !! key) as [value|] eqn:Ha.
  - rewrite (lookup_union_Some_l _ _ _ _ Ha). reflexivity.
  - rewrite lookup_union_r by assumption. reflexivity.
Qed.

Lemma Row_hasOwn_union (a b : Row) (key : string) :
  hasOwn (a ∪ b) key ↔ hasOwn a key ∨ hasOwn b key.
Proof.
  unfold hasOwn. rewrite Row_props_union.
  destruct (props a !! key) as [value|] eqn:Ha.
  - rewrite (lookup_union_Some_l _ _ _ _ Ha). split; eauto.
  - rewrite lookup_union_r by assumption. split; [auto|].
    intros [[? ?]|?]; [discriminate|assumption].
Qed.

Lemma Row_lookup_delete_eq (row : Row) (key : string) :
  delete key row !! key = None.
Proof.
  rewrite Row_lookup_unfold. simpl. rewrite lookup_delete_eq. reflexivity.
Qed.

Lemma Row_lookup_delete_ne (row : Row) (key other : string) :
  key ≠ other → delete key row !! other = row !! other.
Proof.
  intros Hne. rewrite !Row_lookup_unfold. simpl.
  rewrite lookup_delete_ne by assumption. reflexivity.
Qed.

Lemma Row_hasOwn_delete_ne (row : Row) (key other : string) :
  key ≠ other → hasOwn (delete key row) other ↔ hasOwn row other.
Proof.
  intros Hne. unfold hasOwn. simpl.
  rewrite lookup_delete_ne by assumption. reflexivity.
Qed.

Lemma Row_union_empty_r (row : Row) : row ∪ ∅ = row.
Proof.
  destruct row as [m]. unfold union, Row_union. simpl.
  rewrite (right_id_L ∅ (∪)). reflexivity.
Qed.

Lemma Row_union_empty_l (row : Row) : ∅ ∪ row = row.
Proof.
  destruct row as [m]. unfold union, Row_union. simpl.
  rewrite (left_id_L ∅ (∪)). reflexivity.
Qed.

Lemma Row_union_assoc (a b c : Row) : a ∪ (b ∪ c) = (a ∪ b) ∪ c.
Proof.
  unfold union, Row_union. simpl. rewrite (assoc_L (∪)). reflexivity.
Qed.

#[global] Instance Row_union_right_id : RightId (=@{Row}) ∅ (∪).
Proof. intros row. apply Row_union_empty_r. Qed.

#[global] Instance Row_union_left_id : LeftId (=@{Row}) ∅ (∪).
Proof. intros row. apply Row_union_empty_l. Qed.

#[global] Instance Row_union_assoc' : Assoc (=@{Row}) (∪).
Proof. intros a b c. apply Row_union_assoc. Qed.

Lemma Row_lookup_singleton (key : string) (value : Z) :
  ({[key := value]} : Row) !! key = Some value.
Proof.
  rewrite Row_lookup_unfold. simpl. rewrite lookup_singleton_eq. reflexivity.
Qed.

(** [a - b] on numbers that may be [undefined] or [NaN]. *)
Definition jsMinus (a b : option Z) : option Z :=
  match a, b with
  | Some x, Some y => Some (x - y)
  | _, _ => None
  end.

(** [c < 0] and [c > 0]; false on [NaN]. *)
Definition jsNeg (c : option Z) : bool :=
  match c with Some z => bool_decide (z < 0) | None => false end.
Definition jsPos (c : option Z) : bool :=
  match c with Some z => bool_decide (0 < z) | None => false end.

(** ** findLowIndexInSortedArray *)

Section Bisect.
Context {A : Type}.
Variable ary : list A.
Variable getKey : A → option Z.
Variable loVal : option Z.

(** [getKey(ary[i]) - loVal].  The loop only reads indices between [low]
    and [high], which stay inside the array ([bisect_index_in_range]). *)
Definition comparisonAt (i : Z) : option Z :=
  match ary !! Z.to_nat i with
  | Some a => jsMinus (getKey a) loVal
  | None => None
  end.

(** The [while (low <= high)] loop, with the final
    [hitPos !== -1 ? hitPos : low]. *)
Equations? findLow_loop (low high hitPos : Z) : Z
  by wf (Z.to_nat (high - low + 1)) lt :=
  findLow_loop low high hitPos with decide (low ≤ high) => {
    | right _ := if decide (hitPos ≠ -1) then hitPos else low
    | left _ :=
        let i := (low + high) `div` 2 in
        let comparison := comparisonAt i in
        if jsNeg comparison then findLow_loop (i + 1) high hitPos
        else if jsPos comparison then findLow_loop low (i - 1) hitPos
        else findLow_loop low (i - 1) i }.
Proof.
  all: clear findLow_loop; subst i;
    assert (low ≤ (low + high) `div` 2 ≤ high)
      by (split; [apply Z.div_le_lower_bound | apply Z.div_le_upper_bound]; lia);
    lia.
Qed.

Definition findLowIndexInSortedArray : Z :=
  if decide (length ary = 0%nat) then 1
  else findLow_loop 0 (Z.of_nat (length ary) - 1) (-1).
End Bisect.

Example findLow_ex1 :
  findLowIndexInSortedArray [10; 20; 30] Some (Some 20) = 1.
Proof. reflexivity. Qed.
Example findLow_ex2 :
  findLowIndexInSortedArray [10; 20; 30] Some (Some 25) = 2.
Proof. reflexivity. Qed.
Example findLow_ex3 :
  findLowIndexInSortedArray [10; 20; 30] Some (Some 35) = 3.
Proof. reflexivity. Qed.

(** *** Bisection on an array sorted by key *)

Section BisectSorted.
Context {A : Type}.
Variable ary : list A.
Variable getKey : A → option Z.
Variable lo : Z.

(** The keys are numbers, in ascending order. *)
Variable ks : list Z.
Hypothesis Hkeys : getKey <$> ary = Some <$> ks.
Hypothesis Hsorted :
  ∀ (i j : nat) x y, (i ≤ j)%nat → ks !! i = Some x → ks !! j = Some y → x ≤ y.

Let loop := findLow_loop ary getKey (Some lo).

Lemma findLow_loop_step low high hitPos :
  loop low high hitPos =
    if decide (low ≤ high) then
      let i := (low + high) `div` 2 in
      let comparison := comparisonAt ary getKey (Some lo) i in
      if jsNeg comparison then loop (i + 1) high hitPos
      else if jsPos comparison then loop low (i - 1) hitPos
      else loop low (i - 1) i
    else if decide (hitPos ≠ -1) then hitPos else low.
Proof.
  unfold loop. rewrite findLow_loop_equation_1.
  destruct (decide (low ≤ high)); reflexivity.
Qed.

Lemma keys_length : length ks = length ary.
Proof.
  pose proof (f_equal length Hkeys) as H.
  rewrite !length_fmap in H. lia.
Qed.

Lemma comparisonAt_key (i : nat) x :
  ks !! i = Some x →
  comparisonAt ary getKey (Some lo) (Z.of_nat i) = Some (x - lo).
Proof.
  intros Hx. unfold comparisonAt. rewrite Nat2Z.id.
  pose proof (f_equal (λ l, l !! i) Hkeys) as H. simpl in H.
  rewrite !list_lookup_fmap, Hx in H. simpl in H.
  destruct (ary !! i) as [a|]; simpl in H; [|discriminate].
  injection H as ->. reflexivity.
Qed.

(** Every index the loop reads lies inside the array. *)
Lemma bisect_index_in_range low high :
  0 ≤ low → low ≤ high → high < Z.of_nat (length ary) →
  is_Some (ary !! Z.to_nat ((low + high) `div` 2)).
Proof.
  intros H0 Hle Hhi. apply lookup_lt_is_Some.
  assert (low ≤ (low + high) `div` 2 ≤ high)
    by (split; [apply Z.div_le_lower_bound | apply Z.div_le_upper_bound]; lia).
  lia.
Qed.

(** What the loop establishes: the result splits the array into the keys
    below [lo] and the keys at or above it. *)
Definition splitsAt (r : Z) : Prop :=
  0 ≤ r ≤ Z.of_nat (length ary) ∧
  (∀ (i : nat) x, ks !! i = Some x → Z.of_nat i < r → x < lo) ∧
  (∀ (i : nat) x, ks !! i = Some x → r ≤ Z.of_nat i → lo ≤ x).

Lemma findLow_loop_splits (n : nat) : ∀ low high hitPos,
  Z.to_nat (high - low + 1) = n →
  0 ≤ low → high < Z.of_nat (length ary) → low ≤ high + 1 →
  (∀ (i : nat) x, ks !! i = Some x → Z.of_nat i < low → x < lo) →
  (∀ (i : nat) x, ks !! i = Some x → high < Z.of_nat i → lo ≤ x) →
  (hitPos ≠ -1 → hitPos = high + 1 ∧ ks !! Z.to_nat hitPos = Some lo) →
  splitsAt (loop low high hitPos).
Proof.
  induction n as [n IH] using lt_wf_ind.
  intros low high hitPos Hn H0 Hhi Hlh Hbelow Habove Hhit.
  rewrite findLow_loop_step.
  destruct (decide (low ≤ high)) as [Hle|Hgt]; cycle 1.
  { assert (low = high + 1) by lia.
    destruct (decide (hitPos ≠ -1)) as [Hh|Hh].
    - destruct (Hhit Hh) as [-> _]. subst low.
      split; [lia|]. split; [assumption|].
      intros j y Hy Hj. eapply Habove; eauto; lia.
    - subst low. split; [lia|]. split; [assumption|].
      intros j y Hy Hj. eapply Habove; eauto; lia. }
  set (i := (low + high) `div` 2).
  assert (Hi : low ≤ i ≤ high)
    by (subst i; split;
        [apply Z.div_le_lower_bound | apply Z.div_le_upper_bound]; lia).
  assert (Hik : ∃ x, ks !! Z.to_nat i = Some x).
  { apply lookup_lt_is_Some. rewrite keys_length. lia. }
  destruct Hik as [x Hx].
  cbv zeta. fold i.
  assert (Hc : comparisonAt ary getKey (Some lo) i = Some (x - lo)).
  { rewrite <- (comparisonAt_key _ _ Hx). f_equal. lia. }
  rewrite !Hc. cbn [jsNeg jsPos].
  destruct (bool_decide_reflect (x - lo < 0)) as [Hneg|Hnneg].
  - (* key below lo: continue to the right *)
    apply (IH (Z.to_nat (high - (i + 1) + 1)) ltac:(lia) (i + 1) high hitPos);
      try reflexivity; try lia.
    + intros j y Hy Hj.
      assert (y ≤ x); [|lia].
      eapply (Hsorted j (Z.to_nat i)); eauto; lia.
    + assumption.
    + assumption.
  - destruct (bool_decide_reflect (0 < x - lo)) as [Hpos|Hnpos].
    + (* key above lo: continue to the left; no hit can be pending *)
      apply (IH (Z.to_nat (i - 1 - low + 1)) ltac:(lia) low (i - 1) hitPos);
        try reflexivity; try lia.
      * assumption.
      * intros j y Hy Hj.
        assert (x ≤ y); [|lia].
        eapply (Hsorted (Z.to_nat i) j); eauto; lia.
      * intros Hh. destruct (Hhit Hh) as [-> Hlo'].
        exfalso.
        assert (x ≤ lo); [|lia].
        eapply (Hsorted (Z.to_nat i) (Z.to_nat (high + 1))); eauto; lia.
    + (* hit: remember it and continue to the left *)
      assert (x = lo) by lia. subst x.
      apply (IH (Z.to_nat (i - 1 - low + 1)) ltac:(lia) low (i - 1) i);
        try reflexivity; try lia.
      * assumption.
      * intros j y Hy Hj.
        eapply (Hsorted (Z.to_nat i) j); eauto; lia.
      * intros _. split; [lia|]. assumption.
Qed.

(** On a non-empty array sorted by key the result is the lowest index
    whose key is at least [lo], or the length when there is none. *)
Lemma findLowIndexInSortedArray_splits :
  ary ≠ [] → splitsAt (findLowIndexInSortedArray ary getKey (Some lo)).
Proof.
  intros Hne. unfold findLowIndexInSortedArray.
  destruct (decide (length ary = 0%nat)) as [Hz|Hnz].
  { destruct ary; [congruence|discriminate]. }
  apply (findLow_loop_splits _ 0 (Z.of_nat (length ary) - 1) (-1) eq_refl);
    try lia.
  intros i x Hx Hi. apply lookup_lt_Some in Hx.
  rewrite keys_length in Hx. lia.
Qed.
End BisectSorted.

(** ** mergeObjectArrays *)

(** [Object.assign(entry, obj)]: every own property of [obj] is copied
    over [entry], also one that holds [undefined]; the other properties of
    [entry] stay. *)
Definition objectAssign (entry obj : Row) : Row := obj ∪ entry.

(** [merged.splice(index, 0, obj)]. *)
Definition spliceIn {A} (index : nat) (obj : A) (merged : list A) : list A :=
  take index merged ++ obj :: drop index merged.

(** The body of the inner loop: merge one row into [merged]. *)
Definition mergeObject (key : string) (merged : list Row) (obj : Row)
  : list Row :=
  let index :=
    findLowIndexInSortedArray merged (λ entry, entry !! key) (obj !! key) in
  if decide (Z.of_nat (length merged) ≤ index) then merged ++ [obj]
  else
    match merged !! Z.to_nat index with
    | Some entry =>
        if decide (entry !! key = obj !! key)
        then <[Z.to_nat index := objectAssign entry obj]> merged
        else spliceIn (Z.to_nat index) obj merged
    | None => merged (* not reached: 0 <= index < merged.length *)
    end.

Definition mergeObjectArrays (key : string) (merged : list Row)
    (arrays : list (list Row)) : list Row :=
  foldl (λ merged objects, foldl (mergeObject key) merged objects)
        merged arrays.

Example mergeObjectArrays_ex :
  mergeObjectArrays "revision"
    [ {["revision" := 10; "avg" := 1]}; {["revision" := 30; "avg" := 3]} ]
    [ [ {["revision" := 20; "avg" := 2]}; {["revision" := 30; "std" := 9]} ];
      [ {["revision" := 40; "avg" := 4]} ] ]
  = [ {["revision" := 10; "avg" := 1]}; {["revision" := 20; "avg" := 2]};
      {["revision" := 30; "avg" := 3; "std" := 9]};
      {["revision" := 40; "avg" := 4]} ].
Proof. vm_compute. reflexivity. Qed.

(** The first row merged into an empty target is appended, although the
    bisection answers 1 and not 0 there. *)
Example mergeObjectArrays_empty_target :
  mergeObjectArrays "revision" [] [ [ {["revision" := 20]} ] ]
  = [ {["revision" := 20]} ].
Proof. vm_compute. reflexivity. Qed.

(** [l] is strictly ascending by the field [key]: every row has a number
    there, and the numbers increase. *)
Definition strictlySortedBy (key : string) (l : list Row) : Prop :=
  ∃ ks : list Z, (λ r : Row, r !! key) <$> l = Some <$> ks ∧
                 StronglySorted Z.lt ks.

Definition hasKey (key : string) (r : Row) : Prop := is_Some (r !! key).

Lemma StronglySorted_lookup_lt {A} (R : relation A) (l : list A) :
  StronglySorted R l →
  ∀ (i j : nat) x y, (i < j)%nat → l !! i = Some x → l !! j = Some y → R x y.
Proof.
  induction 1 as [|a l Hs IH Hall]; intros i j x y Hij Hx Hy.
  - rewrite lookup_nil in Hx. discriminate.
  - destruct j as [|j]; [lia|]. simpl in Hy.
    destruct i as [|i]; simpl in Hx.
    + injection Hx as ->. rewrite Forall_forall in Hall.
      apply Hall. eapply list_elem_of_lookup_2; eauto.
    + eapply (IH i j); eauto; lia.
Qed.

Lemma StronglySorted_lt_le_lookup (ks : list Z) :
  StronglySorted Z.lt ks →
  ∀ (i j : nat) x y, (i ≤ j)%nat → ks !! i = Some x → ks !! j = Some y → x ≤ y.
Proof.
  intros Hs i j x y Hij Hx Hy.
  destruct (decide (i = j)) as [->|Hne].
  - rewrite Hx in Hy. injection Hy as ->. lia.
  - apply Z.lt_le_incl.
    eapply (StronglySorted_lookup_lt Z.lt ks Hs i j); eauto; lia.
Qed.

Lemma strictlySortedBy_nil key : strictlySortedBy key [].
Proof. exists []. split; [reflexivity|constructor]. Qed.

Lemma strictlySortedBy_hasKey key l :
  strictlySortedBy key l → Forall (hasKey key) l.
Proof.
  intros (ks & Hk & _). apply Forall_forall. intros r Hr.
  apply list_elem_of_lookup in Hr as [i Hi].
  pose proof (f_equal (λ l, l !! i) Hk) as H. simpl in H.
  rewrite !list_lookup_fmap, Hi in H. simpl in H.
  destruct (ks !! i); simpl in H; [|discriminate].
  unfold hasKey. injection H as ->. eauto.
Qed.

Section MergeSorted.
Variable key : string.

Lemma keys_lookup (l : list Row) (ks : list Z) (i : nat) (r : Row) :
  (λ r : Row, r !! key) <$> l = Some <$> ks →
  l !! i = Some r → ∃ x, ks !! i = Some x ∧ r !! key = Some x.
Proof.
  intros Hk Hi.
  pose proof (f_equal (λ l, l !! i) Hk) as H. simpl in H.
  rewrite !list_lookup_fmap, Hi in H. simpl in H.
  destruct (ks !! i) as [x|]; simpl in H; [|discriminate].
  exists x. split; [reflexivity|]. congruence.
Qed.

Lemma mergeObject_sorted (merged : list Row) (obj : Row) :
  strictlySortedBy key merged → hasKey key obj →
  strictlySortedBy key (mergeObject key merged obj).
Proof.
  intros (ks & Hk & Hs) [k Hobj]. unfold mergeObject. rewrite Hobj.
  destruct (decide (merged = [])) as [->|Hne].
  { (* empty target: the row is appended *)
    exists [k]. simpl. rewrite Hobj. split; [reflexivity|].
    repeat constructor. }
  pose proof (findLowIndexInSortedArray_splits merged (λ e : Row, e !! key)
                k ks Hk (StronglySorted_lt_le_lookup ks Hs) Hne)
    as (Hr & Hbelow & Habove).
  set (r := findLowIndexInSortedArray merged _ (Some k)) in *.
  assert (Hlen : length ks = length merged)
    by (pose proof (f_equal length Hk) as H; rewrite !length_fmap in H; lia).
  destruct (decide (Z.of_nat (length merged) ≤ r)) as [Hge|Hlt].
  - (* all keys are below: push *)
    exists (ks ++ [k]). rewrite !fmap_app, Hk. simpl. rewrite Hobj.
    split; [reflexivity|].
    apply StronglySorted_app_2; [|assumption|repeat constructor].
    intros x1 x2 Hx1 Hx2. apply list_elem_of_singleton in Hx2 as ->.
    apply list_elem_of_lookup in Hx1 as [i Hi].
    apply (Hbelow i x1 Hi). apply lookup_lt_Some in Hi. lia.
  - assert (Hidx : (Z.to_nat r < length merged)%nat) by lia.
    destruct (lookup_lt_is_Some_2 merged _ Hidx) as [entry Hentry].
    rewrite Hentry.
    destruct (keys_lookup merged ks _ entry Hk Hentry) as (x & Hx & Hex).
    rewrite Hex.
    assert (Hkx : k ≤ x) by (apply (Habove _ _ Hx); lia).
    destruct (decide (Some x = Some k)) as [Heq|Hneq].
    + (* same key: the fields are merged into the entry *)
      injection Heq as ->. exists ks. split; [|assumption].
      rewrite list_fmap_insert. unfold objectAssign.
      rewrite (Row_lookup_union_Some_l obj entry key k Hobj).
      rewrite Hk. apply list_insert_id.
      rewrite list_lookup_fmap, Hx. reflexivity.
    + (* the entry has a larger key: splice in front of it *)
      assert (k < x) by (assert (x ≠ k) by congruence; lia).
      exists (take (Z.to_nat r) ks ++ k :: drop (Z.to_nat r) ks).
      unfold spliceIn. rewrite !fmap_app, !fmap_cons, !fmap_take, !fmap_drop.
      rewrite Hk, Hobj. split; [reflexivity|].
      rewrite <- (take_drop (Z.to_nat r) ks) in Hs.
      apply StronglySorted_app in Hs as (_ & Hs1 & Hs2).
      assert (Hdrop : Forall (Z.lt k) (drop (Z.to_nat r) ks)).
      { apply Forall_forall. intros y Hy.
        apply list_elem_of_lookup in Hy as [j Hj].
        rewrite lookup_drop in Hj.
        assert (x ≤ y); [|lia].
        rewrite <- (take_drop (Z.to_nat r) ks) in Hx.
        eapply (StronglySorted_lt_le_lookup (drop (Z.to_nat r) ks) Hs2 0 j);
          [lia| |rewrite lookup_drop; exact Hj].
        rewrite lookup_drop, Nat.add_0_r.
        rewrite take_drop in Hx. exact Hx. }
      apply StronglySorted_app_2; [|assumption|].
      * intros x1 x2 Hx1 Hx2.
        assert (x1 < k).
        { apply list_elem_of_lookup in Hx1 as [i Hi].
          pose proof (lookup_lt_Some _ _ _ Hi) as Hil.
          rewrite length_take in Hil.
          rewrite lookup_take_lt in Hi by lia.
          apply (Hbelow i x1 Hi). lia. }
        apply elem_of_cons in Hx2 as [->|Hx2]; [assumption|].
        rewrite Forall_forall in Hdrop. specialize (Hdrop _ Hx2). lia.
      * apply StronglySorted_cons. split; assumption.
Qed.

Lemma mergeObjects_sorted (objects : list Row) : ∀ merged : list Row,
  strictlySortedBy key merged → Forall (hasKey key) objects →
  strictlySortedBy key (foldl (mergeObject key) merged objects).
Proof.
  induction objects as [|obj objects IH]; intros merged Hm Hall; simpl.
  - assumption.
  - apply Forall_cons in Hall as [Hobj Hall].
    apply IH; [|assumption]. apply mergeObject_sorted; assumption.
Qed.

Lemma mergeObjectArrays_sorted (arrays : list (list Row)) :
  ∀ merged : list Row,
  strictlySortedBy key merged → Forall (Forall (hasKey key)) arrays →
  strictlySortedBy key (mergeObjectArrays key merged arrays).
Proof.
  unfold mergeObjectArrays.
  induction arrays as [|objects arrays IH]; intros merged Hm Hall; simpl.
  - assumption.
  - apply Forall_cons in Hall as [Hobjs Hall].
    apply IH; [|assumption]. apply mergeObjects_sorted; assumption.
Qed.
End MergeSorted.

(** ** Range algebra *)

(** Modelled from the spec: the range library ([range.js]) is imported by
    the cache request but is not among the sources; only its test suite is.
    The operations follow the words of the specification (section 4.A,
    "Range algebra") on integer bounds and are checked below against the
    cases of that test suite and the truth table of section 8. *)
Module Range.

(** A closed interval, or the empty range whose bounds are undefined. *)
Inductive t : Type :=
| Empty
| Interval (min max : Z).

#[global] Instance t_eq_dec : EqDecision t.
Proof. solve_decision. Defined.

Definition isEmpty (r : t) : bool :=
  match r with Empty => true | Interval _ _ => false end.

Definition min (r : t) : option Z :=
  match r with Empty => None | Interval lo _ => Some lo end.

Definition max (r : t) : option Z :=
  match r with Empty => None | Interval _ hi => Some hi end.

Definition fromExplicitRange (lo hi : Z) : t := Interval lo hi.

(** addValue(v): extends min/max monotonically; an empty range becomes
    [v, v]. *)
Definition addValue (r : t) (v : Z) : t :=
  match r with
  | Empty => Interval v v
  | Interval lo hi => Interval (Z.min lo v) (Z.max hi v)
  end.

Definition addRange (r other : t) : t :=
  match other with
  | Empty => r
  | Interval lo hi => addValue (addValue r lo) hi
  end.

(** duration: max - min if non-empty, else 0. *)
Definition duration (r : t) : Z :=
  match r with Empty => 0 | Interval lo hi => hi - lo end.

(** findIntersection: [max(a.min, b.min), min(a.max, b.max)]; empty if
    either operand is empty or the bounds cross. *)
Definition findIntersection (a b : t) : t :=
  match a, b with
  | Interval alo ahi, Interval blo bhi =>
      let lo := Z.max alo blo in
      let hi := Z.min ahi bhi in
      if decide (hi < lo) then Empty else Interval lo hi
  | _, _ => Empty
  end.

Definition intersectsRangeInclusive (a b : t) : bool :=
  match a, b with
  | Interval alo ahi, Interval blo bhi =>
      bool_decide (alo ≤ bhi) && bool_decide (blo ≤ ahi)
  | _, _ => false
  end.

Definition containsRangeInclusive (a b : t) : bool :=
  match a, b with
  | Interval alo ahi, Interval blo bhi =>
      bool_decide (alo ≤ blo) && bool_decide (bhi ≤ ahi)
  | _, _ => false
  end.

(** findDifference(a, b): the list (0, 1 or 2 ranges) of a minus b.
    Empty a yields []; empty b yields [a]; otherwise the parts of a to
    the left and to the right of the intersection, each reaching the
    boundary point of the intersection, and kept only when it has a
    positive duration. *)
Definition findDifference (a b : t) : list t :=
  match a, b with
  | Empty, _ => []
  | _, Empty => [a]
  | Interval alo ahi, Interval _ _ =>
      match findIntersection a b with
      | Empty => [a]
      | Interval ilo ihi =>
          (if decide (0 < duration (Interval alo ilo))
           then [Interval alo ilo] else []) ++
          (if decide (0 < duration (Interval ihi ahi))
           then [Interval ihi ahi] else [])
      end
  end.

(** The union of two ranges that overlap or touch. *)
Definition findUnion (a b : t) : t := addRange a b.

(** mergeIntoArray(sortedRanges): the sorted, coalesced union of the
    ranges of the list and this one; adjacent or overlapping ranges
    merge. *)
Fixpoint mergeIntoArray (self : t) (sortedRanges : list t) : list t :=
  match sortedRanges with
  | [] => [self]
  | r :: rest =>
      if intersectsRangeInclusive self r
      then mergeIntoArray (findUnion self r) rest
      else
        match max r, min self with
        | Some rhi, Some lo =>
            if decide (rhi < lo) then r :: mergeIntoArray self rest
            else self :: r :: rest
        | _, _ => r :: mergeIntoArray self rest
        end
  end.

(** The serialized form: [{min, max}], or an empty form. *)
Inductive dict : Type :=
| DictEmpty
| DictMinMax (min max : Z).

Definition toJSON (r : t) : dict :=
  match r with Empty => DictEmpty | Interval lo hi => DictMinMax lo hi end.

Definition fromDict (d : dict) : t :=
  match d with DictEmpty => Empty | DictMinMax lo hi => Interval lo hi end.

(** [v] lies in the range. *)
Definition contains (r : t) (v : Z) : Prop :=
  match r with Empty => False | Interval lo hi => lo ≤ v ≤ hi end.

Lemma fromDict_toJSON r : fromDict (toJSON r) = r.
Proof. destruct r; reflexivity. Qed.

(** The cases of the test suite and of the truth table. *)
Example test_addValue :
  addValue Empty 1 = Interval 1 1 ∧
  addValue (addValue Empty 1) 2 = Interval 1 2.
Proof. split; reflexivity. Qed.

Example test_addRangeToRange :
  addRange (addValue Empty 3) (addValue (addValue Empty 1) 2) = Interval 1 3.
Proof. reflexivity. Qed.

Example test_duration :
  duration (Interval 2 4) = 2 ∧ duration (Interval 2 2) = 0 ∧
  duration Empty = 0.
Proof. repeat split. Qed.

Example test_findIntersection :
  findIntersection (Interval 0 2) (Interval 1 3) = Interval 1 2 ∧
  findIntersection (Interval 0 2) (Interval 2 4) = Interval 2 2 ∧
  findIntersection (Interval 2 2) (Interval 0 2) = Interval 2 2 ∧
  findIntersection (Interval 0 2) (Interval 3 5) = Empty ∧
  findIntersection (Interval 0 2) Empty = Empty ∧
  findIntersection Empty (Interval 0 2) = Empty.
Proof. repeat split. Qed.

Example test_findDifference :
  findDifference (Interval 50 100) (Interval 0 0) = [Interval 50 100] ∧
  findDifference (Interval 50 100) (Interval 0 25) = [Interval 50 100] ∧
  findDifference (Interval 50 100) (Interval 0 50) = [Interval 50 100] ∧
  findDifference (Interval 50 100) (Interval 0 75) = [Interval 75 100] ∧
  findDifference (Interval 50 100) (Interval 0 100) = [] ∧
  findDifference (Interval 50 100) (Interval 0 150) = [] ∧
  findDifference (Interval 50 100) (Interval 50 50) = [Interval 50 100] ∧
  findDifference (Interval 50 100) (Interval 50 75) = [Interval 75 100] ∧
  findDifference (Interval 50 100) (Interval 50 100) = [] ∧
  findDifference (Interval 50 100) (Interval 50 150) = [] ∧
  findDifference (Interval 50 100) (Interval 75 75)
    = [Interval 50 75; Interval 75 100] ∧
  findDifference (Interval 50 100) (Interval 75 100) = [Interval 50 75] ∧
  findDifference (Interval 50 100) (Interval 75 150) = [Interval 50 75] ∧
  findDifference (Interval 50 50) (Interval 0 0) = [Interval 50 50] ∧
  findDifference (Interval 50 50) (Interval 0 25) = [Interval 50 50] ∧
  findDifference (Interval 50 50) (Interval 0 50) = [] ∧
  findDifference (Interval 50 50) (Interval 50 50) = [] ∧
  findDifference (Interval 50 50) (Interval 0 75) = [] ∧
  findDifference Empty (Interval 1 2) = [] ∧
  findDifference (Interval 0 0) (Interval 1 2) = [Interval 0 0] ∧
  findDifference (Interval 1 2) (Interval 0 0) = [Interval 1 2] ∧
  findDifference (Interval 1 2) Empty = [Interval 1 2] ∧
  findDifference (Interval 1 1) Empty = [Interval 1 1] ∧
  findDifference Empty (Interval 1 1) = [].
Proof. repeat split. Qed.

Example test_mergeIntoArray :
  mergeIntoArray (Interval 1 5) [Interval 4 10] = [Interval 1 10] ∧
  mergeIntoArray (Interval 4 10) [Interval 1 5] = [Interval 1 10] ∧
  mergeIntoArray (Interval 1 10) [Interval 4 6] = [Interval 1 10] ∧
  mergeIntoArray (Interval 1 3) [Interval 6 10]
    = [Interval 1 3; Interval 6 10].
Proof. repeat split. Qed.

Example test_contains_intersects :
  containsRangeInclusive (Interval 0 3) (Interval 1 2) = true ∧
  containsRangeInclusive (Interval 1 2) (Interval 0 3) = false ∧
  containsRangeInclusive (Interval 0 3) Empty = false ∧
  containsRangeInclusive (Interval 0 3) (Interval 2 4) = false ∧
  containsRangeInclusive (Interval 0 2) (Interval 2 2) = true ∧
  intersectsRangeInclusive (Interval 0 3) (Interval 2 4) = true ∧
  intersectsRangeInclusive (Interval 0 2) (Interval 3 5) = false ∧
  intersectsRangeInclusive (Interval 0 2) (Interval 2 2) = true ∧
  intersectsRangeInclusive (Interval 0 3) Empty = false.
Proof. repeat split. Qed.
End Range.

(** ** Request parsing *)

(** A form-encoded body: the fields in order; [get] answers the first value
    of a name, or [null] ([None]). *)
Abbreviation FormData := (list (string * string)).

Fixpoint formGet (body : FormData) (name : string) : option string :=
  match body with
  | [] => None
  | (n, v) :: rest => if decide (n = name) then Some v else formGet rest name
  end.

Definition formHas (body : FormData) (name : string) : bool :=
  bool_decide (is_Some (formGet body name)).

(** [s.split(',')]. *)
Fixpoint splitComma (s : string) : list string :=
  match s with
  | EmptyString => [EmptyString]
  | String c rest =>
      if decide (c = ","%char) then EmptyString :: splitComma rest
      else match splitComma rest with
           | [] => [String c EmptyString]
           | w :: ws => String c w :: ws
           end
  end.

Definition asciiCode (c : ascii) : Z := Z.of_N (Ascii.N_of_ascii c).

(** White space skipped by [parseInt]: tab, line feed, vertical tab, form
    feed, carriage return and space. *)
Definition isWhiteSpace (c : ascii) : bool :=
  let n := asciiCode c in
  bool_decide (9 ≤ n ≤ 13) || bool_decide (n = 32).

Fixpoint trimStart (s : string) : string :=
  match s with
  | String c rest => if isWhiteSpace c then trimStart rest else s
  | EmptyString => s
  end.

Definition digitValue (c : ascii) : option Z :=
  let n := asciiCode c in
  if bool_decide (48 ≤ n ≤ 57) then Some (n - 48)
  else if bool_decide (97 ≤ n ≤ 122) then Some (n - 87)
  else if bool_decide (65 ≤ n ≤ 90) then Some (n - 55)
  else None.

(** The value of the longest prefix of digits of the radix; [acc] is the
    value read so far, [None] while no digit was read. *)
Fixpoint readDigits (radix : Z) (acc : option Z) (s : string) : option Z :=
  match s with
  | EmptyString => acc
  | String c rest =>
      match digitValue c with
      | Some d =>
          if bool_decide (d < radix)
          then readDigits radix (Some (default 0 acc * radix + d)) rest
          else acc
      | None => acc
      end
  end.

(** [parseInt(v)] without a radix, on a form value or [null].  [None] is
    [NaN].  (Digit strings above 2^53 are read exactly here, where a double
    is rounded.) *)
Definition parseInt (v : option string) : option Z :=
  match v with
  | None => None (* parseInt(null) reads "null" *)
  | Some s =>
      let s := trimStart s in
      let '(sign, s) :=
        match s with
        | String "-"%char rest => (-1, rest)
        | String "+"%char rest => (1, rest)
        | _ => (1, s)
        end in
      let '(radix, s) :=
        match s with
        | String "0"%char (String "x"%char rest) => (16, rest)
        | String "0"%char (String "X"%char rest) => (16, rest)
        | _ => (10, s)
        end in
      (λ n, sign * n) <$> readDigits radix None s
  end.

Example parseInt_ex :
  parseInt (Some "42") = Some 42 ∧ parseInt (Some "  -17px") = Some (-17) ∧
  parseInt (Some "0x1F") = Some 31 ∧ parseInt (Some "0") = Some 0 ∧
  parseInt (Some "") = None ∧ parseInt (Some "abc") = None ∧
  parseInt None = None ∧ parseInt (Some "12.7") = Some 12.
Proof. repeat split. Qed.

(** [n || undefined] on a number: 0 and NaN are falsy. *)
Definition orUndefined (n : option Z) : option Z :=
  match n with
  | Some 0 => None
  | _ => n
  end.

(** [s || dflt] on a form value: [null] and the empty string are falsy. *)
Definition orDefault (s : option string) (dflt : string) : string :=
  match s with
  | None | Some EmptyString => dflt
  | Some s => s
  end.

Definition MAX_SAFE_INTEGER : Z := 9007199254740991.

(** The fields that [parseRequest_] sets on the request. *)
Record Request : Type := {
  body_ : FormData;
  columns_ : list string;
  revisionRange_ : Range.t;
  testSuite_ : string;
  measurement_ : string;
  bot_ : string;
  statistic_ : string;
  testCase_ : string;
  buildType_ : string;
}.

(** The two values added to the request range. *)
Definition minRevisionOf (body : FormData) : Z :=
  match orUndefined (parseInt (formGet body "min_revision")) with
  | None => 0
  | Some minRevision => minRevision
  end.

Definition maxRevisionOf (body : FormData) : Z :=
  match orUndefined (parseInt (formGet body "max_revision")) with
  | None => MAX_SAFE_INTEGER
  | Some maxRevision => maxRevision
  end.

(** [parseRequest_]; [None] when it throws 'Missing columns'. *)
Definition parseRequest_ (body : FormData) : option Request :=
  if negb (formHas body "columns") then None
  else
    let columns := splitComma (default EmptyString (formGet body "columns")) in
    let revisionRange :=
      Range.addValue (Range.addValue Range.Empty (minRevisionOf body))
                     (maxRevisionOf body) in
    Some {| body_ := body;
            columns_ := columns;
            revisionRange_ := revisionRange;
            testSuite_ := orDefault (formGet body "test_suite") "";
            measurement_ := orDefault (formGet body "measurement") "";
            bot_ := orDefault (formGet body "bot") "";
            statistic_ := orDefault (formGet body "statistic") "avg";
            testCase_ := orDefault (formGet body "test_case") "";
            buildType_ := orDefault (formGet body "build_type") "" |}.

Example parseRequest_ex :
  (revisionRange_ <$> parseRequest_
     [("columns", "revision,avg"); ("min_revision", "50");
      ("max_revision", "200")]) = Some (Range.Interval 50 200) ∧
  (columns_ <$> parseRequest_ [("columns", "revision,avg")])
    = Some ["revision"; "avg"] ∧
  (revisionRange_ <$> parseRequest_ [("columns", "revision,avg")])
    = Some (Range.Interval 0 MAX_SAFE_INTEGER) ∧
  parseRequest_ [("min_revision", "5")] = None.
Proof. repeat split. Qed.

(** [body.delete(name)]: the body without the fields of that name. *)
Definition formDelete (body : FormData) (name : string) : FormData :=
  filter (λ f, f.1 ≠ name) body.

Lemma formGet_formDelete_eq body name : formGet (formDelete body name) name = None.
Proof.
  induction body as [|[n v] body IH]; [reflexivity|].
  unfold formDelete in *. rewrite filter_cons. simpl.
  destruct (decide (n ≠ name)) as [Hne|Heq]; [|exact IH].
  simpl. destruct (decide (n = name)); [contradiction|exact IH].
Qed.

Lemma formGet_formDelete_ne body name other :
  name ≠ other → formGet (formDelete body name) other = formGet body other.
Proof.
  intros Hne. induction body as [|[n v] body IH]; [reflexivity|].
  unfold formDelete in *. rewrite filter_cons. simpl.
  destruct (decide (n ≠ name)) as [Hn|Hn]; simpl.
  - destruct (decide (n = other)); [reflexivity|exact IH].
  - destruct (decide (n = other)); [|exact IH].
    exfalso. apply Hn. congruence.
Qed.

Lemma orUndefined_None n : orUndefined n = None ↔ n = Some 0 ∨ n = None.
Proof.
  destruct n as [[| |]|]; simpl; split; intros H; try discriminate; auto;
    destruct H; discriminate.
Qed.

(** The request range in terms of the two values added to it. *)
Lemma parseRequest_range body req :
  parseRequest_ body = Some req →
  revisionRange_ req =
    Range.Interval (Z.min (minRevisionOf body) (maxRevisionOf body))
                   (Z.max (minRevisionOf body) (maxRevisionOf body)).
Proof.
  unfold parseRequest_. destruct (negb (formHas body "columns")); [discriminate|].
  intros [= <-]. reflexivity.
Qed.

(** A parsed request has a non-empty range with ordered bounds. *)
Lemma parseRequest_range_ordered body req :
  parseRequest_ body = Some req →
  ∃ lo hi, revisionRange_ req = Range.Interval lo hi ∧ lo ≤ hi.
Proof.
  intros H. rewrite (parseRequest_range _ _ H). eexists _, _.
  split; [reflexivity|lia].
Qed.

(** ** Result objects *)

(** The objects that travel through the generator: the cache result, the
    response of a slice, and the snapshots yielded to the consumer.  They
    are JavaScript objects with optional fields; [None] is an absent
    field.  The three fields that the cache reader fills from the
    metadata store are own properties of its result whatever the store
    answered: [Some None] is the property holding [undefined], which
    [Object.entries] lists like any other.  Timestamps are the
    milliseconds that [new Date(s)] gives for the stored ISO string. *)
Record ResultObj : Type := {
  data : option (list Row);
  columns : option (list string);
  error : option string;
  status : option Z;
  missingTimestamp : option (option Z);
  improvement_direction : option (option Z);
  units : option (option Z);
  availableRangeByCol : option (gmap string Range.t);
}.

Definition emptyResult : ResultObj :=
  {| data := None; columns := None; error := None; status := None;
     missingTimestamp := None; improvement_direction := None; units := None;
     availableRangeByCol := None |}.

Definition setData (d : option (list Row)) (r : ResultObj) : ResultObj :=
  {| data := d; columns := columns r; error := error r; status := status r;
     missingTimestamp := missingTimestamp r;
     improvement_direction := improvement_direction r; units := units r;
     availableRangeByCol := availableRangeByCol r |}.

Definition setColumns (c : option (list string)) (r : ResultObj) : ResultObj :=
  {| data := data r; columns := c; error := error r; status := status r;
     missingTimestamp := missingTimestamp r;
     improvement_direction := improvement_direction r; units := units r;
     availableRangeByCol := availableRangeByCol r |}.

Definition setMissingTimestamp (t : option (option Z)) (r : ResultObj)
  : ResultObj :=
  {| data := data r; columns := columns r; error := error r;
     status := status r; missingTimestamp := t;
     improvement_direction := improvement_direction r; units := units r;
     availableRangeByCol := availableRangeByCol r |}.

Definition deleteAvailableRangeByCol (r : ResultObj) : ResultObj :=
  {| data := data r; columns := columns r; error := error r;
     status := status r; missingTimestamp := missingTimestamp r;
     improvement_direction := improvement_direction r; units := units r;
     availableRangeByCol := None |}.

(** ** TimeseriesSlice *)

Definition MAX_RETRIES : nat := 3.
Definition HTTP_NOT_FOUND : Z := 404.
Definition SERVER_ERROR : Z := 500.

(** 1000 * 60 * 60 * 24 * 2.8 milliseconds.  The double product is
    241919999.99999997, less than a millisecond below 241920000: for a
    timestamp and a clock value that are whole milliseconds, the test
    [timestamp > clock - MISSING_TIMESERIES_RETRY_MS] on doubles has the
    outcome of [timestamp > clock - 241920000] on integers. *)
Definition MISSING_TIMESERIES_RETRY_MS : Z := 241920000.

(** [normalize(table, columnNames)]: each row of the table becomes an
    object; [datum[columnNames[i]] = row[i]] for every column name in
    turn, from [i] on.  A row shorter than the list of column names gets
    the remaining properties with the value [undefined], and of a
    repeated column name the last cell stays. *)
Fixpoint assignCells (i : nat) (columnNames : list string) (row : list Z)
    (datum : Row) : Row :=
  match columnNames with
  | [] => datum
  | columnName :: rest =>
      assignCells (S i) rest row (setProp columnName (row !! i) datum)
  end.

Definition normalizeRow (columnNames : list string) (row : list Z) : Row :=
  assignCells 0 columnNames row ∅.

Definition normalize (table : list (list Z)) (columnNames : list string)
  : list Row :=
  normalizeRow columnNames <$> table.

(** What the remote end answers to one [fetch]: the status line and the
    decoded JSON body. *)
Record HttpResponse : Type := {
  httpStatus : Z;
  statusText : string;
  jsonData : option (list (list Z));
  jsonImprovementDirection : option Z;
  jsonUnits : option Z;
}.

(** [response.ok]: the status is in the range 200-299. *)
Definition responseOk (response : HttpResponse) : bool :=
  bool_decide (200 ≤ httpStatus response ≤ 299).

(** The outcome of [fetch_]: the object it resolves to, the retry counter
    of the slice afterwards, and how many times [fetch] was called. *)
Record FetchOutcome : Type := {
  fetched : ResultObj;
  retryAfter : nat;
  fetchCalls : nat;
}.

Section Fetch.
(** The answers of the remote end to the successive calls of [fetch] for
    this slice. *)
Variable network : nat → HttpResponse.
(** [[...this.columns]] when the fetch starts. *)
Variable sliceColumns : list string.

Definition errorResult (response : HttpResponse) : ResultObj :=
  {| data := None; columns := None;
     error := Some (pretty (httpStatus response) +:+ " " +:+ statusText response);
     status := Some (httpStatus response);
     missingTimestamp := None; improvement_direction := None; units := None;
     availableRangeByCol := None |}.

Definition successResult (response : HttpResponse) : ResultObj :=
  {| data := (λ table, normalize table sliceColumns) <$> jsonData response;
     columns := Some sliceColumns;
     error := None; status := None; missingTimestamp := None;
     improvement_direction := Some <$> jsonImprovementDirection response;
     units := Some <$> jsonUnits response;
     availableRangeByCol := None |}.

(** [fetch_]: [retry_] is the slice's retry counter, [calls] the number of
    calls of [fetch] made before this one. *)
Equations? fetch_ (retry_ calls : nat) : FetchOutcome
  by wf (MAX_RETRIES - retry_)%nat lt :=
  fetch_ retry_ calls :=
    let response := network calls in
    if negb (responseOk response) then
      match decide (httpStatus response = SERVER_ERROR ∧
                    (retry_ < MAX_RETRIES)%nat) with
      | left _ => fetch_ (S retry_) (S calls)
      | right _ =>
          {| fetched := errorResult response; retryAfter := retry_;
             fetchCalls := S calls |}
      end
    else
      {| fetched := successResult response; retryAfter := retry_;
         fetchCalls := S calls |}.
Proof. lia. Qed.
End Fetch.

Definition mkResponse (st : Z) (text : string) (table : option (list (list Z)))
  : HttpResponse :=
  {| httpStatus := st; statusText := text; jsonData := table;
     jsonImprovementDirection := None; jsonUnits := None |}.

(** Scenario 7: the remote end answers 500 twice, then 200. *)
Example fetch_transient_error :
  let network n :=
    if decide (n < 2)%nat then mkResponse 500 "Internal Server Error" None
    else mkResponse 200 "OK" (Some [[10; 7]; [20; 8]]) in
  let out := fetch_ network ["revision"; "avg"] 0 0 in
  data (fetched out)
    = Some [ {["revision" := 10; "avg" := 7]};
             {["revision" := 20; "avg" := 8]} ] ∧
  fetchCalls out = 3%nat ∧ retryAfter out = 2%nat.
Proof. vm_compute. repeat split. Qed.

Section FetchRetry.
Variable network : nat → HttpResponse.
Variable sliceColumns : list string.

Lemma fetch__step retry_ calls :
  fetch_ network sliceColumns retry_ calls =
    let response := network calls in
    if negb (responseOk response) then
      if decide (httpStatus response = SERVER_ERROR ∧ (retry_ < MAX_RETRIES)%nat)
      then fetch_ network sliceColumns (S retry_) (S calls)
      else {| fetched := errorResult response; retryAfter := retry_;
              fetchCalls := S calls |}
    else {| fetched := successResult sliceColumns response;
            retryAfter := retry_; fetchCalls := S calls |}.
Proof.
  rewrite fetch__equation_1. cbv zeta.
  destruct (negb (responseOk (network calls))); [|reflexivity].
  destruct (decide _); reflexivity.
Qed.

Lemma responseOk_500 response :
  httpStatus response = SERVER_ERROR → responseOk response = false.
Proof.
  intros H. unfold responseOk, SERVER_ERROR in *. rewrite H.
  apply bool_decide_eq_false. lia.
Qed.

(** Each call of [fetch] beyond the first is paid for by one retry. *)
Lemma fetch__calls_bounded (budget : nat) : ∀ retry_ calls,
  (MAX_RETRIES - retry_ = budget)%nat →
  let out := fetch_ network sliceColumns retry_ calls in
  (calls < fetchCalls out)%nat ∧
  (fetchCalls out - calls = retryAfter out - retry_ + 1)%nat ∧
  (retry_ ≤ retryAfter out)%nat ∧ (retryAfter out ≤ Nat.max retry_ MAX_RETRIES)%nat.
Proof.
  induction budget as [budget IH] using lt_wf_ind.
  intros retry_ calls Hb. cbv zeta. rewrite fetch__step. cbv zeta.
  destruct (negb (responseOk (network calls))); [|simpl; lia].
  destruct (decide _) as [[_ Hlt]|_]; [|simpl; lia].
  specialize (IH (MAX_RETRIES - S retry_)%nat ltac:(lia) (S retry_) (S calls)
                 eq_refl).
  cbv zeta in IH. lia.
Qed.

(** After [k] answers 500 in a row ([k] within the retry budget) the
    [k]-th answer decides. *)
Lemma fetch__after_500s (k : nat) : ∀ retry_ calls,
  (retry_ + k ≤ MAX_RETRIES)%nat →
  (∀ j, (j < k)%nat → httpStatus (network (calls + j)) = SERVER_ERROR) →
  fetch_ network sliceColumns retry_ calls =
  fetch_ network sliceColumns (retry_ + k) (calls + k).
Proof.
  induction k as [|k IH]; intros retry_ calls Hk H500.
  - rewrite !Nat.add_0_r. reflexivity.
  - rewrite fetch__step. cbv zeta.
    pose proof (H500 0%nat ltac:(lia)) as H0. rewrite Nat.add_0_r in H0.
    rewrite (responseOk_500 _ H0). simpl negb. cbv iota.
    destruct (decide _) as [_|Hn]; [|exfalso; apply Hn; split; [assumption|lia]].
    rewrite (IH (S retry_) (S calls)).
    + f_equal; lia.
    + lia.
    + intros j Hj. replace (S calls + j)%nat with (calls + S j)%nat by lia.
      apply H500. lia.
Qed.
End FetchRetry.

(** ** The persistent store *)

(** Values of the metadata store.  A timestamp is the ISO string of a
    date, represented by its milliseconds; [MetaUndefined] is the value
    [undefined], which [put] stores like any other. *)
Inductive MetaValue : Type :=
| MetaUndefined
| MetaNumber (n : Z)
| MetaTime (ms : Z)
| MetaString (s : string)
| MetaColumns (cols : list string)
| MetaRanges (ranges : gmap string Range.t).

(** The three object stores of one timeseries database, as created by
    [upgradeDatabase]. *)
Record Database : Type := {
  dataStore : gmap Z Row;
  metadataStore : gmap string MetaValue;
  rangeStore : gmap string (list Range.dict);
}.

Definition emptyDatabase : Database :=
  {| dataStore := ∅; metadataStore := ∅; rangeStore := ∅ |}.

Definition entryLe (a b : Z * Row) : Prop := a.1 ≤ b.1.

#[global] Instance entryLe_dec : RelDecision entryLe.
Proof. intros a b. unfold entryLe. apply _. Defined.

(** The records of the data store in key order, as [getAll] and cursors
    deliver them. *)
Definition storeEntries (store : gmap Z Row) : list (Z * Row) :=
  merge_sort entryLe (map_to_list store).

Definition metaNumber (v : option MetaValue) : option Z :=
  match v with Some (MetaNumber n) => Some n | _ => None end.

Definition metaTime (v : option MetaValue) : option Z :=
  match v with Some (MetaTime ms) => Some ms | _ => None end.

(** ** Cache reader *)

Section CacheReader.
Variable req : Request.
Variable db : Database.

(** [getRanges_]: the stored range list of every requested column but
    'revision', as the entries of a Map. *)
Definition getRanges_ : list (string * option (list Range.dict)) :=
  (λ col, (col, rangeStore db !! col)) <$>
    filter (λ col, col ≠ "revision") (columns_ req).

(** The inner loop of [getAvailableRangeByCol_]: the intersection with the
    request range of the first stored range that meets it. *)
Fixpoint firstIntersection (rangeDicts : list Range.dict) : option Range.t :=
  match rangeDicts with
  | [] => None
  | rangeDict :: rest =>
      let range := Range.fromDict rangeDict in
      let intersection := Range.findIntersection range (revisionRange_ req) in
      if negb (Range.isEmpty intersection) then Some intersection
      else firstIntersection rest
  end.

Definition getAvailableRangeByCol_
    (rangesByCol : list (string * option (list Range.dict)))
  : gmap string Range.t :=
  foldl (λ availableRangeByCol entry,
           match entry.2 with
           | None => availableRangeByCol
           | Some rangeDicts =>
               match firstIntersection rangeDicts with
               | Some intersection =>
                   <[entry.1 := intersection]> availableRangeByCol
               | None => availableRangeByCol
               end
           end)
        ∅ rangesByCol.

(** [s] is falsy as a form value: [null] or the empty string. *)
Definition formFalsy (s : option string) : bool :=
  match s with
  | None | Some EmptyString => true
  | Some _ => false
  end.

(** [getDataPoints_]: every row when neither bound was given, otherwise
    the rows whose key lies in the request range. *)
Definition getDataPoints_ : list Row :=
  if formFalsy (formGet (body_ req) "min_revision") &&
     formFalsy (formGet (body_ req) "max_revision")
  then (storeEntries (dataStore db)).*2
  else
    match revisionRange_ req with
    | Range.Interval lo hi =>
        (filter (λ e, lo ≤ e.1 ≤ hi) (storeEntries (dataStore db))).*2
    | Range.Empty => []
    end.

Definition readDatabase_ : ResultObj :=
  let availableRangeByCol := getAvailableRangeByCol_ getRanges_ in
  let result :=
    {| data := None; columns := None; error := None; status := None;
       missingTimestamp :=
         Some (metaTime (metadataStore db !! "missingTimestamp"));
       improvement_direction :=
         Some (metaNumber (metadataStore db !! "improvement_direction"));
       units := Some (metaNumber (metadataStore db !! "units"));
       availableRangeByCol := Some availableRangeByCol |} in
  if decide (size availableRangeByCol = 0%nat) then result
  else setData (Some getDataPoints_) result.
End CacheReader.

(** ** Slice planner *)

(** What [slice.columns] holds: the array literal of a histogram slice, or
    the Set [columns] of [getSlices_], one object shared by all the other
    slices of the request ([owner]) that planned them. *)
Inductive Columns : Type :=
| ColumnArray (cols : list string)
| ColumnSet (owner : nat).

#[global] Instance Columns_eq_dec : EqDecision Columns.
Proof. solve_decision. Defined.

(** A slice, with the fields the planner, the coalescer and the generator
    read.  [sliceOwner] and [sliceIndex] stand for the identity of the
    object: the request that created it and its position among the slices
    that request created. *)
Record TimeseriesSlice : Type := {
  sliceOwner : nat;
  sliceIndex : nat;
  revisionRange : Range.t;
  sliceColumns : Columns;
}.

#[global] Instance TimeseriesSlice_eq_dec : EqDecision TimeseriesSlice.
Proof. solve_decision. Defined.

(** [new Set(list)]: the elements in the order of their first
    occurrence. *)
Definition newSet (l : list string) : list string :=
  foldl (λ set x, if decide (x ∈ set) then set else set ++ [x]) [] l.

(** [set.delete(x)]. *)
Definition setDelete (x : string) (set : list string) : list string :=
  filter (λ y, y ≠ x) set.

(** The result of [getSlices_]: the slices, and what the Set [columns]
    holds at the end. *)
Record Plan : Type := {
  planSlices : list TimeseriesSlice;
  planColumns : list string;
}.

Section SlicePlanner.
Variable req : Request.
Variable owner : nat.
Variable cacheResult : ResultObj.

(** [availableRangeByCol] as [getSlices_] sees it: the cached one when the
    cache result has data, or an empty Map. *)
Definition plannerAvailable : gmap string Range.t :=
  match data cacheResult with
  | Some _ => default ∅ (availableRangeByCol cacheResult)
  | None => ∅
  end.

Definition createSlice_ (index : nat) (revisionRange : Range.t)
    (columns : Columns) : TimeseriesSlice :=
  {| sliceOwner := owner; sliceIndex := index;
     revisionRange := revisionRange; sliceColumns := columns |}.

(** The slices pushed for the histogram column. *)
Definition histogramSlices (columns : list string) : list TimeseriesSlice :=
  if decide ("histogram" ∈ columns) then
    let missingRanges :=
      match plannerAvailable !! "histogram" with
      | Some available => Range.findDifference (revisionRange_ req) available
      | None => [revisionRange_ req]
      end in
    imap (λ i revisionRange,
            createSlice_ i revisionRange (ColumnArray ["revision"; "histogram"]))
         missingRanges
  else [].

(** One turn of the loop that drops the columns available for the whole
    request range. *)
Definition dropIfAvailable (columns : list string) (col : string)
  : list string :=
  if decide (col = "revision") then columns
  else if decide (col = "alert") then columns
  else match plannerAvailable !! col with
       | None => columns
       | Some availableRange =>
           if decide (Range.duration (revisionRange_ req)
                      = Range.duration availableRange)
           then setDelete col columns
           else columns
       end.

(** The Set [columns] after the histogram column and the fully available
    columns have been deleted. *)
Definition remainingColumns : list string :=
  let columns := setDelete "histogram" (newSet (columns_ req)) in
  foldl dropIfAvailable columns columns.

(** The loop that intersects the available ranges of the remaining
    columns; a column without one empties the range and ends the loop. *)
Fixpoint commonAvailable (columns : list string) (availableRange : Range.t)
  : Range.t :=
  match columns with
  | [] => availableRange
  | col :: rest =>
      if decide (col = "revision") then commonAvailable rest availableRange
      else match plannerAvailable !! col with
           | None => Range.Empty
           | Some availableForCol =>
               commonAvailable rest
                 (Range.findIntersection availableRange availableForCol)
           end
  end.

Definition getSlices_ : Plan :=
  let slices := histogramSlices (newSet (columns_ req)) in
  let columns := remainingColumns in
  if decide (length columns = 1%nat)
  then {| planSlices := []; planColumns := columns |}
  else
    let availableRange := commonAvailable columns (revisionRange_ req) in
    let missingRanges :=
      Range.findDifference (revisionRange_ req) availableRange in
    {| planSlices :=
         slices ++
         imap (λ i revisionRange,
                 createSlice_ (length slices + i) revisionRange
                              (ColumnSet owner))
              missingRanges;
       planColumns := columns |}.
End SlicePlanner.

(** *** Facts about ranges used by the planner *)

Lemma findIntersection_contains a b v :
  Range.contains (Range.findIntersection a b) v ↔
  Range.contains a v ∧ Range.contains b v.
Proof.
  destruct a as [|alo ahi], b as [|blo bhi]; simpl; try tauto.
  destruct (decide _); simpl; lia.
Qed.

(** Every point of [a] lies in [b] or in a range of [a] minus [b]. *)
Lemma findDifference_covers a b v :
  Range.contains a v →
  Range.contains b v ∨ ∃ r, r ∈ Range.findDifference a b ∧ Range.contains r v.
Proof.
  intros Ha. destruct a as [|alo ahi]; [contradiction|].
  destruct b as [|blo bhi].
  { right. exists (Range.Interval alo ahi).
    split; [apply list_elem_of_here|assumption]. }
  unfold Range.findDifference.
  pose proof (findIntersection_contains (Range.Interval alo ahi)
                (Range.Interval blo bhi) v) as Hi.
  destruct (Range.findIntersection _ _) as [|ilo ihi] eqn:Hint.
  { right. exists (Range.Interval alo ahi).
    split; [apply list_elem_of_here|assumption]. }
  assert (Hb : alo ≤ ilo ∧ ihi ≤ ahi).
  { simpl in Hint. destruct (decide _); [discriminate|].
    injection Hint as <- <-. lia. }
  simpl in Ha, Hi |- *.
  destruct (decide (v < ilo)) as [Hl|Hl].
  - right. exists (Range.Interval alo ilo).
    destruct (decide (0 < ilo - alo)); [|lia].
    split; [apply elem_of_app; left; apply list_elem_of_here|simpl; lia].
  - destruct (decide (ihi < v)) as [Hr|Hr].
    + right. exists (Range.Interval ihi ahi).
      destruct (decide (0 < ahi - ihi)); [|lia].
      split; [apply elem_of_app; right; apply list_elem_of_here|simpl; lia].
    + left. apply Hi. lia.
Qed.

(** A sub-range with the duration of the whole range is the whole range. *)
Lemma subrange_same_duration lo hi r v :
  (∀ w, Range.contains r w → lo ≤ w ≤ hi) → r ≠ Range.Empty →
  Range.duration (Range.Interval lo hi) = Range.duration r →
  lo ≤ v ≤ hi → Range.contains r v.
Proof.
  intros Hsub Hne Hd Hv. destruct r as [|a b]; [congruence|].
  simpl in *. assert (a ≤ b) by lia.
  pose proof (Hsub a ltac:(lia)). pose proof (Hsub b ltac:(lia)). lia.
Qed.

(** *** Facts about Sets of columns *)

Lemma elem_of_newSet_acc (l : list string) : ∀ (acc : list string) x,
  x ∈ foldl (λ set y, if decide (y ∈ set) then set else set ++ [y]) acc l
  ↔ x ∈ acc ∨ x ∈ l.
Proof.
  induction l as [|y l IH]; intros acc x; simpl.
  - rewrite elem_of_nil. tauto.
  - rewrite IH, elem_of_cons. destruct (decide (y ∈ acc)) as [Hy|Hy].
    + split; [tauto|]. intros [H|[->|H]]; tauto.
    + rewrite elem_of_app, list_elem_of_singleton. tauto.
Qed.

Lemma elem_of_newSet (l : list string) x : x ∈ newSet l ↔ x ∈ l.
Proof. unfold newSet. rewrite elem_of_newSet_acc, elem_of_nil. tauto. Qed.

(** A Set holds no element twice: its size is the length of the list. *)
Lemma NoDup_newSet (l : list string) : NoDup (newSet l).
Proof.
  unfold newSet.
  assert (H : ∀ acc : list string, NoDup acc →
    NoDup (foldl (λ set y, if decide (y ∈ set) then set else set ++ [y])
                 acc l)).
  { induction l as [|y l IH]; intros acc Hacc; simpl; [assumption|].
    apply IH. destruct (decide (y ∈ acc)); [assumption|].
    apply NoDup_app. split; [assumption|]. split.
    - intros x Hx ->%list_elem_of_singleton. contradiction.
    - apply NoDup_singleton. }
  apply H. constructor.
Qed.

Lemma elem_of_setDelete x y (set : list string) :
  x ∈ setDelete y set ↔ x ∈ set ∧ x ≠ y.
Proof. unfold setDelete. rewrite list_elem_of_filter. tauto. Qed.

(** *** What the planner guarantees *)

(** [s] is a slice that asks for the column [col], when the shared Set of
    its request holds [setContents]. *)
Definition sliceCarries (setContents : list string) (s : TimeseriesSlice)
    (col : string) : Prop :=
  match sliceColumns s with
  | ColumnArray cols => col ∈ cols
  | ColumnSet _ => col ∈ setContents
  end.

(** Every revision of the request range is in the available range of the
    column or in the range of a planned slice that carries the column. *)
Definition coveredBy (req : Request) (available : gmap string Range.t)
    (plan : Plan) (col : string) : Prop :=
  ∀ v, Range.contains (revisionRange_ req) v →
    (∃ r, available !! col = Some r ∧ Range.contains r v) ∨
    (∃ s, s ∈ planSlices plan ∧ sliceCarries (planColumns plan) s col ∧
          Range.contains (revisionRange s) v).

(** The available ranges are non-empty parts of the request range. *)
Definition availableWithin (req : Request) (available : gmap string Range.t)
  : Prop :=
  ∀ col r, available !! col = Some r →
    r ≠ Range.Empty ∧ ∀ w, Range.contains r w → Range.contains (revisionRange_ req) w.

Section PlannerFacts.
Variable req : Request.
Variable owner : nat.
Variable cacheResult : ResultObj.

Let available := plannerAvailable cacheResult.

(** The column is dropped by the loop over the fully available columns. *)
Definition droppable (col : string) : Prop :=
  col ≠ "revision" ∧ col ≠ "alert" ∧
  ∃ r, available !! col = Some r ∧
       Range.duration (revisionRange_ req) = Range.duration r.

Lemma elem_of_dropIfAvailable (columns : list string) col x :
  x ∈ dropIfAvailable req cacheResult columns col ↔
  x ∈ columns ∧ ¬ (x = col ∧ droppable col).
Proof.
  unfold dropIfAvailable, droppable. fold available.
  destruct (decide (col = "revision")) as [Hr|Hr]; [tauto|].
  destruct (decide (col = "alert")) as [Ha|Ha]; [tauto|].
  destruct (available !! col) as [r|] eqn:Hav.
  - destruct (decide _) as [Hd|Hd].
    + rewrite elem_of_setDelete. split.
      * intros [Hx Hne]. split; [assumption|]. intros [-> _]. congruence.
      * intros [Hx Hn]. split; [assumption|]. intros ->. apply Hn.
        split; [reflexivity|]. eauto 10.
    + split; [|tauto]. intros Hx. split; [assumption|].
      intros (_ & _ & _ & r' & [= <-] & Hd'). contradiction.
  - split; [|tauto]. intros Hx. split; [assumption|].
    intros (_ & _ & _ & r' & Hr' & _). discriminate.
Qed.

Lemma elem_of_foldl_dropIfAvailable (l : list string) :
  ∀ (columns : list string) x,
  x ∈ foldl (dropIfAvailable req cacheResult) columns l ↔
  x ∈ columns ∧ ¬ (x ∈ l ∧ droppable x).
Proof.
  induction l as [|col l IH]; intros columns x; simpl.
  - rewrite elem_of_nil. tauto.
  - rewrite IH, elem_of_dropIfAvailable, elem_of_cons. split.
    + intros [[Hx Hn1] Hn2]. split; [assumption|].
      intros [[->|Hl] Hd]; tauto.
    + intros [Hx Hn]. repeat split; [assumption| |].
      * intros [-> Hd]. tauto.
      * intros [Hl Hd]. tauto.
Qed.

Lemma elem_of_remainingColumns x :
  x ∈ remainingColumns req cacheResult ↔
  x ∈ columns_ req ∧ x ≠ "histogram" ∧ ¬ droppable x.
Proof.
  unfold remainingColumns. cbv zeta.
  rewrite elem_of_foldl_dropIfAvailable, elem_of_setDelete, elem_of_newSet.
  tauto.
Qed.

(** A point of the common available range is available for every
    remaining column. *)
Lemma commonAvailable_contains (columns : list string) :
  ∀ availableRange v,
  Range.contains (commonAvailable cacheResult columns availableRange) v →
  Range.contains availableRange v ∧
  ∀ col, col ∈ columns → col ≠ "revision" →
    ∃ r, available !! col = Some r ∧ Range.contains r v.
Proof.
  induction columns as [|c columns IH]; intros availableRange v Hv; simpl in Hv.
  - split; [assumption|]. intros col Hc. apply elem_of_nil in Hc. contradiction.
  - destruct (decide (c = "revision")) as [Hc|Hc].
    + destruct (IH _ _ Hv) as [H1 H2]. split; [assumption|].
      intros col [->|Hin]%elem_of_cons Hne; [contradiction|]. auto.
    + fold available in Hv.
      destruct (available !! c) as [r|] eqn:Hav; [|contradiction].
      destruct (IH _ _ Hv) as [H1 H2].
      apply findIntersection_contains in H1 as [H1 H1'].
      split; [assumption|].
      intros col [->|Hin]%elem_of_cons Hne; [eauto|auto].
Qed.

Lemma elem_of_imap_createSlice (base : nat) (cols : Columns)
    (ranges : list Range.t) (r : Range.t) :
  r ∈ ranges →
  ∃ i, createSlice_ owner (base + i) r cols ∈
         imap (λ i revisionRange,
                 createSlice_ owner (base + i) revisionRange cols) ranges.
Proof.
  intros [i Hi]%list_elem_of_lookup. exists i.
  apply list_elem_of_lookup. exists i.
  rewrite list_lookup_imap, Hi. reflexivity.
Qed.

(** The histogram slices, with what is available, cover the request. *)
Lemma histogramSlices_cover v :
  "histogram" ∈ columns_ req →
  Range.contains (revisionRange_ req) v →
  (∃ r, available !! "histogram" = Some r ∧ Range.contains r v) ∨
  (∃ s, s ∈ histogramSlices req owner cacheResult (newSet (columns_ req)) ∧
        sliceColumns s = ColumnArray ["revision"; "histogram"] ∧
        Range.contains (revisionRange s) v).
Proof.
  intros Hh Hv. unfold histogramSlices.
  destruct (decide _) as [_|Hn]; [|exfalso; apply Hn, elem_of_newSet, Hh].
  fold available.
  assert (Hs : ∀ ranges r, r ∈ ranges → Range.contains r v →
    ∃ s, s ∈ imap (λ i revisionRange, createSlice_ owner i revisionRange
                     (ColumnArray ["revision"; "histogram"])) ranges ∧
         sliceColumns s = ColumnArray ["revision"; "histogram"] ∧
         Range.contains (revisionRange s) v).
  { intros ranges r Hr Hc.
    destruct (elem_of_imap_createSlice 0 (ColumnArray ["revision"; "histogram"])
                ranges r Hr) as [i Hi].
    eexists. split; [exact Hi|]. split; [reflexivity|exact Hc]. }
  destruct (available !! "histogram") as [a|] eqn:Hav.
  - destruct (findDifference_covers _ a v Hv) as [Ha|(r & Hr & Hc)].
    + left. eauto.
    + right. eapply Hs; eauto.
  - right. eapply Hs; [apply list_elem_of_here|assumption].
Qed.

(** When the planner does not return early, every requested column other
    than 'revision' and 'alert' is covered. *)
Lemma getSlices_covers col :
  availableWithin req available →
  length (remainingColumns req cacheResult) ≠ 1%nat →
  col ∈ columns_ req → col ≠ "revision" → col ≠ "alert" →
  coveredBy req available (getSlices_ req owner cacheResult) col.
Proof.
  intros Hwithin Hlen Hcol Hrev Halert v Hv.
  unfold getSlices_. cbv zeta.
  destruct (decide _) as [Hone|_]; [contradiction|]. simpl.
  destruct (decide (col = "histogram")) as [->|Hhist].
  { destruct (histogramSlices_cover v Hcol Hv) as [?|(s & Hs & Hc & Hr)];
      [left; assumption|].
    right. exists s. split; [apply elem_of_app; left; exact Hs|].
    split; [|exact Hr]. unfold sliceCarries. rewrite Hc.
    apply elem_of_cons. right. apply list_elem_of_here. }
  destruct (decide (col ∈ remainingColumns req cacheResult)) as [Hrem|Hrem].
  - (* the column is still asked for *)
    set (common := commonAvailable cacheResult
                     (remainingColumns req cacheResult) (revisionRange_ req)).
    destruct (findDifference_covers _ common v Hv) as [Hc|(r & Hr & Hc)].
    + left. apply commonAvailable_contains in Hc as [_ Hc]. auto.
    + right.
      destruct (elem_of_imap_createSlice
                  (length (histogramSlices req owner cacheResult
                             (newSet (columns_ req))))
                  (ColumnSet owner) _ r Hr) as [i Hi].
      eexists. split; [apply elem_of_app; right; exact Hi|].
      split; [exact Hrem|exact Hc].
  - (* the column was dropped: it is available for the whole range *)
    left.
    assert (Hd : droppable col).
    { destruct (decide (col = "revision")); [contradiction|].
      destruct (decide (col = "alert")); [contradiction|].
      unfold droppable.
      destruct (available !! col) as [r|] eqn:Hav.
      - destruct (decide (Range.duration (revisionRange_ req)
                          = Range.duration r)) as [Hd|Hd]; [eauto 10|].
        exfalso. apply Hrem, elem_of_remainingColumns.
        repeat split; try assumption.
        intros (_ & _ & r' & Hr' & Hd').
        assert (r' = r) by congruence. subst r'. contradiction.
      - exfalso. apply Hrem, elem_of_remainingColumns.
        repeat split; try assumption.
        intros (_ & _ & r' & Hr' & _). congruence. }
    destruct Hd as (_ & _ & r & Hav & Hd). exists r. split; [assumption|].
    destruct (Hwithin _ _ Hav) as [Hne Hsub].
    destruct (revisionRange_ req) as [|lo hi] eqn:Hreq; [contradiction|].
    eapply subrange_same_duration; eauto.
Qed.
(** A requested column that is no longer in the Set was dropped as fully
    available (or is the histogram column). *)
Lemma dropped_column_droppable col :
  col ∈ columns_ req → col ≠ "histogram" →
  col ∉ remainingColumns req cacheResult → droppable col.
Proof.
  intros Hcol Hhist Hrem.
  assert (Hnn : ¬ ¬ droppable col).
  { intros Hn. apply Hrem, elem_of_remainingColumns. tauto. }
  unfold droppable in *.
  destruct (decide (col = "revision")); [tauto|].
  destruct (decide (col = "alert")); [tauto|].
  destruct (available !! col) as [r|] eqn:Hav.
  - destruct (decide (Range.duration (revisionRange_ req) = Range.duration r))
      as [Hd|Hd]; [eauto 10|].
    exfalso. apply Hnn. intros (_ & _ & r' & Hr' & Hd').
    assert (r' = r) by congruence. subst r'. contradiction.
  - exfalso. apply Hnn. intros (_ & _ & r' & Hr' & _). congruence.
Qed.

(** For a request that asks for 'revision' and not for 'histogram', every
    other column but 'alert' is covered, whether the planner returns
    early or not. *)
Lemma getSlices_covers_without_histogram col :
  availableWithin req available →
  "revision" ∈ columns_ req → "histogram" ∉ columns_ req →
  col ∈ columns_ req → col ≠ "revision" → col ≠ "alert" →
  coveredBy req available (getSlices_ req owner cacheResult) col.
Proof.
  intros Hwithin Hrevision Hnohist Hcol Hrev Halert.
  destruct (decide (length (remainingColumns req cacheResult) = 1%nat))
    as [Hone|Hmore]; [|apply getSlices_covers; assumption].
  intros v Hv. left.
  assert (Hin : "revision" ∈ remainingColumns req cacheResult).
  { apply elem_of_remainingColumns. split; [assumption|].
    split; [discriminate|]. intros (Hn & _). congruence. }
  assert (Hrem : col ∉ remainingColumns req cacheResult).
  { destruct (remainingColumns req cacheResult) as [|x [|y rest]];
      try discriminate.
    apply list_elem_of_singleton in Hin as <-.
    intros ->%list_elem_of_singleton. congruence. }
  destruct (dropped_column_droppable col Hcol) as (_ & _ & r & Hav & Hd);
    [intros ->; contradiction|assumption|].
  exists r. split; [assumption|].
  destruct (Hwithin _ _ Hav) as [Hne Hsub].
  destruct (revisionRange_ req) as [|lo hi] eqn:Hreq; [contradiction|].
  eapply subrange_same_duration; eauto.
Qed.
End PlannerFacts.

(** *** What the cache reader guarantees *)

Section ReaderFacts.
Variable req : Request.
Variable db : Database.

Lemma firstIntersection_within rangeDicts r :
  firstIntersection req rangeDicts = Some r →
  r ≠ Range.Empty ∧
  ∀ w, Range.contains r w → Range.contains (revisionRange_ req) w.
Proof.
  induction rangeDicts as [|d rest IH]; simpl; [discriminate|].
  destruct (Range.findIntersection _ _) as [|lo hi] eqn:Hint; simpl; [exact IH|].
  intros [= <-]. split; [discriminate|]. intros w Hw.
  rewrite <- Hint in Hw. apply findIntersection_contains in Hw. tauto.
Qed.

Lemma getAvailableRangeByCol_within rangesByCol :
  availableWithin req (getAvailableRangeByCol_ req rangesByCol).
Proof.
  unfold getAvailableRangeByCol_.
  assert (H : ∀ acc : gmap string Range.t, availableWithin req acc →
    availableWithin req
      (foldl (λ availableRangeByCol entry,
                match entry.2 with
                | None => availableRangeByCol
                | Some rangeDicts =>
                    match firstIntersection req rangeDicts with
                    | Some intersection =>
                        <[entry.1 := intersection]> availableRangeByCol
                    | None => availableRangeByCol
                    end
                end) acc rangesByCol)).
  { induction rangesByCol as [|[col ds] rest IH]; intros acc Hacc; simpl;
      [assumption|].
    apply IH. destruct ds as [ds|]; [|assumption].
    destruct (firstIntersection req ds) as [i|] eqn:Hi; [|assumption].
    intros c r. rewrite lookup_insert. destruct (decide (col = c)).
    - intros [= <-]. eapply firstIntersection_within; eauto.
    - apply Hacc. }
  apply H. intros c r. rewrite lookup_empty. discriminate.
Qed.

(** The planner sees exactly the available ranges that the reader
    derived. *)
Lemma plannerAvailable_readDatabase :
  plannerAvailable (readDatabase_ req db)
  = getAvailableRangeByCol_ req (getRanges_ req db).
Proof.
  unfold readDatabase_, plannerAvailable. cbv zeta.
  destruct (decide _) as [Hz|Hnz]; simpl; [|reflexivity].
  symmetry. apply map_size_empty_iff. exact Hz.
Qed.

Lemma readDatabase_availableWithin :
  availableWithin req (plannerAvailable (readDatabase_ req db)).
Proof.
  rewrite plannerAvailable_readDatabase. apply getAvailableRangeByCol_within.
Qed.
End ReaderFacts.

(** ** In-flight coalescer *)

(** What a step of the generator can end with: a value, or a thrown
    [TypeError]. *)
Inductive Outcome (A : Type) : Type :=
| Returns (a : A)
| Throws (message : string).
Arguments Returns {A} a.
Arguments Throws {A} message.

#[global] Instance Outcome_bind : MBind Outcome := λ A B k m,
  match m with
  | Returns a => k a
  | Throws message => Throws message
  end.

Fixpoint foldOutcome {A S} (step : S → A → Outcome S) (s : S) (l : list A)
  : Outcome S :=
  match l with
  | [] => Returns s
  | a :: rest => s' ← step s a; foldOutcome step s' rest
  end.

(** The shared Sets of columns: for each request that planned slices, what
    its Set [columns] holds now. *)
Abbreviation Heap := (gmap nat (list string)).

Definition setContents (heap : Heap) (owner : nat) : list string :=
  default [] (heap !! owner).

(** [for (const col of slice.columns)] visits these. *)
Definition columnsList (heap : Heap) (c : Columns) : list string :=
  match c with
  | ColumnArray cols => cols
  | ColumnSet owner => setContents heap owner
  end.

(** [columns.has(col)]; an array has no method [has]. *)
Definition columnsHas (heap : Heap) (c : Columns) (col : string)
  : Outcome bool :=
  match c with
  | ColumnArray _ => Throws "otherSlice.columns.has is not a function"
  | ColumnSet owner => Returns (bool_decide (col ∈ setContents heap owner))
  end.

(** [columns.delete(col)]; an array has no method [delete]. *)
Definition columnsDelete (heap : Heap) (c : Columns) (col : string)
  : Outcome Heap :=
  match c with
  | ColumnArray _ => Throws "slice.columns.delete is not a function"
  | ColumnSet owner =>
      Returns (<[owner := setDelete col (setContents heap owner)]> heap)
  end.

(** [columns.size === 1]; an array has no [size]. *)
Definition columnsSizeIsOne (heap : Heap) (c : Columns) : bool :=
  match c with
  | ColumnArray _ => false
  | ColumnSet owner => bool_decide (length (setContents heap owner) = 1%nat)
  end.

(** The state of a coalescing pass: the Sets of columns, the Set [slices]
    of this request, and [matchingSlices]. *)
Record Coalescing : Type := {
  heap : Heap;
  slices : list TimeseriesSlice;
  matchingSlices : list TimeseriesSlice;
}.

(** [set.add(x)] and [set.delete(x)] on a Set of slices. *)
Definition sliceSetAdd (x : TimeseriesSlice) (set : list TimeseriesSlice)
  : list TimeseriesSlice :=
  if decide (x ∈ set) then set else set ++ [x].

Definition sliceSetDelete (x : TimeseriesSlice) (set : list TimeseriesSlice)
  : list TimeseriesSlice :=
  filter (λ y, y ≠ x) set.

(** One turn of [for (const col of slice.columns)]. *)
Definition dropSharedColumn (slice otherSlice : TimeseriesSlice)
    (st : Coalescing) (col : string) : Outcome Coalescing :=
  if decide (col = "revision") then Returns st
  else
    has ← columnsHas (heap st) (sliceColumns otherSlice) col;
    if (has : bool) then
      heap' ← columnsDelete (heap st) (sliceColumns slice) col;
      Returns {| heap := heap'; slices := slices st;
                 matchingSlices := sliceSetAdd otherSlice (matchingSlices st) |}
    else Returns st.

(** The body of [for (const otherSlice of otherSlices)]: one planned slice
    against one slice of a peer. *)
Definition compareSlices (slice : TimeseriesSlice) (st : Coalescing)
    (otherSlice : TimeseriesSlice) : Outcome Coalescing :=
  let intersection :=
    Range.findIntersection (revisionRange slice) (revisionRange otherSlice) in
  if decide (Range.duration intersection < Range.duration (revisionRange slice))
  then Returns st
  else
    st' ← foldOutcome (dropSharedColumn slice otherSlice) st
           (columnsList (heap st) (sliceColumns slice));
    if columnsSizeIsOne (heap st') (sliceColumns slice)
    then Returns {| heap := heap st';
                    slices := sliceSetDelete slice (slices st');
                    matchingSlices := matchingSlices st' |}
    else Returns st'.

(** A live request as the coalescer sees it: its [databaseName_] (unset
    until the request has opened its database) and its planned slices. *)
Record Peer : Type := {
  peerDatabaseName_ : option string;
  peerSlices : list TimeseriesSlice;
}.

(** The callback given to [findInProgressRequest], for one peer. *)
Definition coalesceWith (databaseName_ : option string) (st : Coalescing)
    (other : Peer) : Outcome Coalescing :=
  if decide (peerDatabaseName_ other ≠ databaseName_) then Returns st
  else
    foldOutcome
      (λ st slice, foldOutcome (compareSlices slice) st (peerSlices other))
      st (slices st).

(** Modelled from the spec: [findInProgressRequest] belongs to the base
    class ([cache-request-base.js]), which is not among the sources.  By
    section 4.G it enumerates the other live requests; here it runs the
    callback on each of them in turn, and an exception of the callback ends
    the pass.  The pass is taken as one step of the event loop: no other
    request runs between its awaits. *)
Definition findInProgressRequest (databaseName_ : option string)
    (peers : list Peer) (st : Coalescing) : Outcome Coalescing :=
  foldOutcome (coalesceWith databaseName_) st peers.

(** ** Result generator *)

(** [TimeseriesCacheRequest.databaseName]. *)
Definition databaseName (req : Request) : string :=
  "timeseries/" +:+ testSuite_ req +:+ "/" +:+ measurement_ req +:+ "/" +:+
  bot_ req +:+ "/" +:+ testCase_ req +:+ "/" +:+ buildType_ req.

(** [datum.revision >= revisionRange_.min && datum.revision <=
    revisionRange_.max]. *)
Definition inRequestRange (req : Request) (datum : Row) : bool :=
  match datum !! "revision", revisionRange_ req with
  | Some revision, Range.Interval lo hi =>
      bool_decide (lo ≤ revision) && bool_decide (revision ≤ hi)
  | _, _ => false
  end.

(** The object given to [scheduleWrite] for a timeseries that is missing. *)
Definition missingResult (now : Z) : ResultObj :=
  setMissingTimestamp (Some (Some now)) emptyResult.

(** The variables of the generator that change while responses arrive;
    [yielded] and [written] record, in order, the snapshots given to the
    consumer (as they are when yielded) and the objects given to
    [scheduleWrite].  The rows of [finalResult.data] are the row objects
    of [mergedData] (the cache result shares them with the copy, and
    every later [finalResult] holds the array itself). *)
Record Generating : Type := {
  mergedData : list Row;
  finalResult : ResultObj;
  yielded : list ResultObj;
  written : list ResultObj;
}.

Section Generator.
Variable req : Request.

(** The alerts of the rows in the request range are deleted. *)
Definition purgeAlerts (mergedData : list Row) : list Row :=
  (λ datum : Row,
     if inRequestRange req datum then delete "alert" datum else datum)
  <$> mergedData.

(** The body of [for await (const result of raceAllPromises(...))];
    [now] is the clock when the result is handled and [None] a falsy
    result.  The answer is the state when the body ends and the
    exception that ended it, if any: a result without columns throws
    before anything is changed; a result with columns and without data
    throws after the alerts were deleted (when the columns include
    'alert') and after [result.columns] was reassigned.  (The response
    object is not part of the state.) *)
Definition handleResult (st : Generating) (now : Z)
    (result : option ResultObj) : Generating * option string :=
  match result with
  | None => (st, None)
  | Some result =>
      if bool_decide (data result = None) &&
         bool_decide (status result = Some HTTP_NOT_FOUND)
      then
        ({| mergedData := mergedData st;
            finalResult := finalResult st;
            yielded := yielded st;
            written := written st ++ [missingResult now] |}, None)
      else
        match columns result with
        | None => (st, Some "result.columns is undefined")
        | Some resultColumns =>
            let merged :=
              if decide ("alert" ∈ resultColumns)
              then purgeAlerts (mergedData st) else mergedData st in
            let final :=
              if decide ("alert" ∈ resultColumns)
              then setData (purgeAlerts <$> data (finalResult st))
                           (finalResult st)
              else finalResult st in
            let result :=
              setColumns
                (Some (newSet (resultColumns ++
                               default [] (columns (finalResult st)))))
                result in
            match data result with
            | None =>
                ({| mergedData := merged;
                    finalResult := final;
                    yielded := yielded st;
                    written := written st |},
                 Some "result.data is undefined")
            | Some rows =>
                let merged :=
                  mergeObjectArrays "revision" merged
                    [filter (λ d, inRequestRange req d) rows] in
                let final := setData (Some merged) result in
                ({| mergedData := merged;
                    finalResult := final;
                    yielded := yielded st ++ [final];
                    written := written st |}, None)
            end
        end
  end.

(** The loop over the results in the order of their completion: the state
    when it ends, and the exception that ended it, if any. *)
Fixpoint handleResults (st : Generating)
    (arrivals : list (Z * option ResultObj)) : Generating * option string :=
  match arrivals with
  | [] => (st, None)
  | arrival :: rest =>
      match handleResult st arrival.1 arrival.2 with
      | (st', None) => handleResults st' rest
      | (st', Some message) => (st', Some message)
      end
  end.

(** [finalResult.data && finalResult.data.length]. *)
Definition hasRows (r : ResultObj) : bool :=
  match data r with
  | Some (_ :: _) => true
  | _ => false
  end.

(** What a run of the generator did: the snapshots it yielded, the objects
    it gave to [scheduleWrite], the slices whose fetch it started, and the
    exception that ended it, if any. *)
Record Run : Type := {
  snapshots : list ResultObj;
  scheduledWrites : list ResultObj;
  launched : list TimeseriesSlice;
  thrown : option string;
}.

(** [new Date(missingTimestamp) > new Date() - MISSING_TIMESERIES_RETRY_MS],
    guarded by the presence of the timestamp. *)
Definition recentlyMissing (now : Z) (cacheResult : ResultObj) : bool :=
  match missingTimestamp cacheResult with
  | Some (Some timestamp) =>
      bool_decide (now - MISSING_TIMESERIES_RETRY_MS < timestamp)
  | _ => false
  end.

(** This request's number among the live requests. *)
Variable self : nat.
(** The other live requests, and the Sets of columns of their slices. *)
Variable peers : list Peer.
Variable peerSets : Heap.
(** The response of a slice whose fetch another request has started. *)
Variable memo : TimeseriesSlice → option ResultObj.
(** The answers of the remote end to the fetches of a slice. *)
Variable network : TimeseriesSlice → nat → HttpResponse.
(** The order in which the slice responses complete (positions in
    [sliceResponses]), each with the clock at that moment. *)
Variable completion : list (nat * Z).

(** [slice.responsePromise], resolved. *)
Definition responseOf (heap : Heap) (slice : TimeseriesSlice) : ResultObj :=
  match memo slice with
  | Some response => response
  | None =>
      fetched (fetch_ (network slice)
                      (columnsList heap (sliceColumns slice)) 0 0)
  end.

(** [raceAllPromises]: the results in the order of completion. *)
Definition raceAllPromises (sliceResponses : list ResultObj)
  : list (Z * option ResultObj) :=
  omap (λ c : nat * Z, (λ r, (c.2, Some r)) <$> sliceResponses !! c.1)
       completion.

(** The part of [generateResults] after the test on [missingTimestamp];
    [cached] is the copy of the cache result that was yielded, if any. *)
Definition fetchAndMerge (cacheResult cached : ResultObj)
    (merged : list Row) (first : list ResultObj) : Run :=
  let plan := getSlices_ req self cacheResult in
  let start :=
    {| heap := <[self := planColumns plan]> peerSets;
       slices := planSlices plan;
       matchingSlices := [] |} in
  match findInProgressRequest (Some (databaseName req)) peers start with
  | Throws message =>
      {| snapshots := first; scheduledWrites := []; launched := [];
         thrown := Some message |}
  | Returns st =>
      let fetching := slices st ++ matchingSlices st in
      let sliceResponses := responseOf (heap st) <$> fetching in
      let started := filter (λ s, memo s = None) fetching in
      let gen :=
        {| mergedData := merged;
           finalResult := setColumns (Some []) cached;
           yielded := first; written := [] |} in
      match handleResults gen (raceAllPromises sliceResponses) with
      | (gen', Some message) =>
          {| snapshots := yielded gen'; scheduledWrites := written gen';
             launched := started; thrown := Some message |}
      | (gen', None) =>
          {| snapshots := yielded gen';
             scheduledWrites :=
               written gen' ++
               (if hasRows (finalResult gen') then [finalResult gen'] else []);
             launched := started; thrown := None |}
      end
  end.

(** [generateResults], run to its end; [now] is the clock when the
    timestamp of a missing timeseries is tested. *)
Definition generateResults (cacheResult : ResultObj) (now : Z) : Run :=
  let cached :=
    match data cacheResult with
    | Some _ => deleteAvailableRangeByCol cacheResult
    | None => cacheResult
    end in
  let merged := default [] (data cacheResult) in
  let first :=
    match data cacheResult with Some _ => [cached] | None => [] end in
  if recentlyMissing now cached
  then {| snapshots := first; scheduledWrites := []; launched := [];
          thrown := None |}
  else fetchAndMerge cacheResult cached merged first.
End Generator.

(** ** Cache writer *)

Section CacheWriter.
(** [Range.fromExplicitRange(min, last).mergeIntoArray(
     prevRangesRaw.map(Range.fromDict)).map(range => range.toJSON())],
    as a function of the two bounds (either may be undefined) and of the
    stored list.  The range library is not among the sources: the writer is
    modelled for any implementation of it. *)
Variable mergeCovered :
  option Z → option Z → list Range.dict → list Range.dict.

Variable req : Request.
(** The clock, for the access time. *)
Variable now : Z.

Definition updateAccessTime_ (metadata : gmap string MetaValue)
  : gmap string MetaValue :=
  <["_accessTime" := MetaTime now]> metadata.

(** [writeData_]: every row is merged over the row stored under its
    revision.  The reads are all issued before the first write, so each
    row is merged with what the store held at the start.  A row without a
    revision has no key and is not stored. *)
Definition writeData_ (rows : option (list Row)) (store : gmap Z Row)
  : gmap Z Row :=
  match rows with
  | None => store
  | Some rows =>
      foldl (λ current (datum : Row),
               match datum !! "revision" with
               | Some revision =>
                   let prev := default ∅ (store !! revision) in
                   <[revision := objectAssign prev datum]> current
               | None => current
               end)
            store rows
  end.

(** [writeRanges_]: nothing without data; an exception (and nothing
    written) when the data is an empty array; otherwise the covered range
    is merged into the stored ranges of every requested column but
    'revision' and 'alert'. *)
Definition writeRanges_ (rows : option (list Row))
    (store : gmap string (list Range.dict)) : gmap string (list Range.dict) :=
  match rows with
  | None => store
  | Some rows =>
      match last rows with
      | None => store
      | Some lastRow =>
          foldl (λ current col,
                   if decide (col = "revision") then current
                   else if decide (col = "alert") then current
                   else
                     let prevRangesRaw := default [] (store !! col) in
                     <[col := mergeCovered (Range.min (revisionRange_ req))
                                           (lastRow !! "revision")
                                           prevRangesRaw]> current)
                store (columns_ req)
      end
  end.

(** The value that is stored for a property: [undefined] as it is. *)
Definition metaValue (wrap : Z → MetaValue) (value : option Z) : MetaValue :=
  match value with
  | Some v => wrap v
  | None => MetaUndefined
  end.

(** [Object.entries(metadata)], the object without its [data]: every own
    property, also one that holds [undefined]. *)
Definition metadataEntries (payload : ResultObj)
  : list (string * MetaValue) :=
  omap id
    [ (λ v, ("columns", MetaColumns v)) <$> columns payload;
      (λ v, ("error", MetaString v)) <$> error payload;
      (λ v, ("status", MetaNumber v)) <$> status payload;
      (λ v, ("missingTimestamp", metaValue MetaTime v))
        <$> missingTimestamp payload;
      (λ v, ("improvement_direction", metaValue MetaNumber v))
        <$> improvement_direction payload;
      (λ v, ("units", metaValue MetaNumber v)) <$> units payload;
      (λ v, ("availableRangeByCol", MetaRanges v))
        <$> availableRangeByCol payload ].

Definition writeMetadata_ (metadata : list (string * MetaValue))
    (store : gmap string MetaValue) : gmap string MetaValue :=
  foldl (λ current entry, <[entry.1 := entry.2]> current) store metadata.

Definition writeDatabase (payload : ResultObj) (db : Database) : Database :=
  {| dataStore := writeData_ (data payload) (dataStore db);
     metadataStore :=
       writeMetadata_ (metadataEntries payload)
                      (updateAccessTime_ (metadataStore db));
     rangeStore := writeRanges_ (data payload) (rangeStore db) |}.
End CacheWriter.

(** The covered-range merge with the range algebra of the
    specification.  (With an undefined bound the stored list is kept.) *)
Definition mergeCoveredSpec (lo hi : option Z) (prev : list Range.dict)
  : list Range.dict :=
  match lo, hi with
  | Some lo, Some hi =>
      Range.toJSON <$>
        Range.mergeIntoArray (Range.fromExplicitRange lo hi)
                             (Range.fromDict <$> prev)
  | _, _ => prev
  end.

(** The states of a timeseries database: created empty, then changed by
    the writes of requests. *)
Inductive reachable
    (mergeCovered : option Z → option Z → list Range.dict → list Range.dict)
  : Database → Prop :=
| reachable_created : reachable mergeCovered emptyDatabase
| reachable_written req now payload db :
    reachable mergeCovered db →
    reachable mergeCovered (writeDatabase mergeCovered req now payload db).

(** *** What the cache writer maintains *)

Section WriterFacts.
Variable mergeCovered :
  option Z → option Z → list Range.dict → list Range.dict.

(** [writeRanges_] writes under no other key than the requested columns
    that are neither 'revision' nor 'alert'. *)
Lemma writeRanges_lookup req rows store key :
  key = "revision" ∨ key = "alert" ∨ key ∉ columns_ req →
  writeRanges_ mergeCovered req rows store !! key = store !! key.
Proof.
  intros Hkey. unfold writeRanges_.
  destruct rows as [rows|]; [|reflexivity].
  destruct (last rows) as [lastRow|]; [|reflexivity].
  assert (H : ∀ (cols : list string) (current : gmap string (list Range.dict)),
    key = "revision" ∨ key = "alert" ∨ key ∉ cols →
    foldl (λ current col,
             if decide (col = "revision") then current
             else if decide (col = "alert") then current
             else <[col := mergeCovered (Range.min (revisionRange_ req))
                             (lastRow !! "revision")
                             (default [] (store !! col))]> current)
          current cols !! key = current !! key).
  { induction cols as [|col cols IH]; intros current Hk; simpl; [reflexivity|].
    rewrite IH.
    - destruct (decide (col = "revision")); [reflexivity|].
      destruct (decide (col = "alert")); [reflexivity|].
      apply lookup_insert_ne.
      destruct Hk as [->|[->|Hk]]; [congruence|congruence|].
      intros ->. apply Hk, list_elem_of_here.
    - destruct Hk as [?|[?|Hk]]; [tauto|tauto|].
      right; right. intros Hin. apply Hk. apply elem_of_cons. tauto. }
  apply H. exact Hkey.
Qed.

(** Every stored row carries the revision it is stored under. *)
Definition keyedByRevision (store : gmap Z Row) : Prop :=
  ∀ k (row : Row), store !! k = Some row → row !! "revision" = Some k.

Lemma writeData_keyedByRevision rows store :
  keyedByRevision store → keyedByRevision (writeData_ rows store).
Proof.
  intros Hstore. unfold writeData_. destruct rows as [rows|]; [|assumption].
  assert (H : ∀ (rows : list Row) (current : gmap Z Row),
    keyedByRevision current →
    keyedByRevision
      (foldl (λ current (datum : Row),
                match datum !! "revision" with
                | Some revision =>
                    <[revision := objectAssign
                                    (default ∅ (store !! revision)) datum]>
                      current
                | None => current
                end) current rows)).
  { clear rows. induction rows as [|datum rows IH]; intros current Hc; simpl;
      [assumption|].
    apply IH. destruct (datum !! "revision") as [revision|] eqn:Hrev;
      [|assumption].
    intros k row. rewrite lookup_insert.
    destruct (decide (revision = k)) as [->|Hne]; [|apply Hc].
    intros [= <-]. unfold objectAssign.
    apply Row_lookup_union_Some_l. exact Hrev. }
  apply H. exact Hstore.
Qed.

Lemma reachable_rangeStore db :
  reachable mergeCovered db →
  rangeStore db !! "alert" = None ∧ rangeStore db !! "revision" = None.
Proof.
  induction 1 as [|req now payload db Hdb [IHa IHr]].
  - split; apply lookup_empty.
  - simpl. rewrite !writeRanges_lookup by tauto. split; assumption.
Qed.

Lemma reachable_keyedByRevision db :
  reachable mergeCovered db → keyedByRevision (dataStore db).
Proof.
  induction 1 as [|req now payload db Hdb IH].
  - intros k row. simpl. rewrite lookup_empty. discriminate.
  - simpl. apply writeData_keyedByRevision. exact IH.
Qed.
End WriterFacts.

(** *** The cached rows are sorted by revision *)

#[global] Instance entryLe_trans : Transitive entryLe.
Proof. intros a b c. unfold entryLe. lia. Qed.

#[global] Instance entryLe_total : Total entryLe.
Proof. intros a b. unfold entryLe. lia. Qed.

Lemma StronglySorted_le_NoDup_lt (ks : list Z) :
  StronglySorted Z.le ks → NoDup ks → StronglySorted Z.lt ks.
Proof.
  induction 1 as [|k ks Hs IH Hall]; intros Hnd; [constructor|].
  apply NoDup_cons in Hnd as [Hk Hnd].
  constructor; [auto|].
  rewrite Forall_forall in Hall |- *. intros y Hy.
  specialize (Hall y Hy). assert (k ≠ y) by (intros ->; contradiction). lia.
Qed.

(** A list of store records in key order, without a repeated key, whose
    rows carry their key as revision, gives rows strictly sorted by
    revision. *)
Lemma entries_strictlySorted (entries : list (Z * Row)) :
  StronglySorted entryLe entries → NoDup entries.*1 →
  (∀ k row, (k, row) ∈ entries → row !! "revision" = Some k) →
  strictlySortedBy "revision" entries.*2.
Proof.
  intros Hs Hnd Hrev. exists entries.*1. split.
  - clear Hs Hnd. induction entries as [|[k row] entries IH]; [reflexivity|].
    simpl. rewrite (Hrev k row) by apply list_elem_of_here.
    f_equal. apply IH. intros k' row' Hin. apply Hrev.
    apply elem_of_cons. tauto.
  - apply StronglySorted_le_NoDup_lt; [|assumption].
    clear Hnd Hrev. induction Hs as [|e entries Hs IH Hall]; [constructor|].
    simpl. constructor; [assumption|].
    rewrite Forall_forall in Hall. apply Forall_forall.
    intros y [e' [-> He']]%list_elem_of_fmap. apply Hall, He'.
Qed.

Lemma StronglySorted_filter {A} (R : relation A) (P : A → Prop)
    `{!∀ x, Decision (P x)} (l : list A) :
  StronglySorted R l → StronglySorted R (filter P l).
Proof.
  induction 1 as [|x l Hs IH Hall]; [constructor|].
  rewrite filter_cons. destruct (decide (P x)); [|assumption].
  constructor; [assumption|].
  rewrite Forall_forall in Hall. apply Forall_forall.
  intros y [_ Hy]%list_elem_of_filter. auto.
Qed.

Lemma NoDup_fst_filter {A B} (P : A * B → Prop) `{!∀ x, Decision (P x)}
    (l : list (A * B)) :
  NoDup l.*1 → NoDup (filter P l).*1.
Proof.
  induction l as [|[a b] l IH]; [intros; constructor|].
  simpl. intros [Ha Hnd]%NoDup_cons. rewrite filter_cons.
  destruct (decide (P (a, b))); [|auto].
  simpl. apply NoDup_cons. split; [|auto].
  intros [[a' b'] [Heq [_ Hin]%list_elem_of_filter]]%list_elem_of_fmap.
  simpl in Heq. subst a'. apply Ha. apply list_elem_of_fmap.
  exists (a, b'). split; [reflexivity|assumption].
Qed.

Lemma storeEntries_facts (store : gmap Z Row) :
  StronglySorted entryLe (storeEntries store) ∧
  NoDup (storeEntries store).*1 ∧
  ∀ k row, (k, row) ∈ storeEntries store ↔ store !! k = Some row.
Proof.
  unfold storeEntries. split; [apply StronglySorted_merge_sort; apply _|].
  pose proof (merge_sort_Permutation entryLe (map_to_list store)) as Hp.
  split.
  - rewrite Hp. apply NoDup_fst_map_to_list.
  - intros k row. rewrite Hp. apply elem_of_map_to_list.
Qed.

(** The rows read from a store that is keyed by revision are strictly
    sorted by revision. *)
Lemma getDataPoints_sorted req db :
  keyedByRevision (dataStore db) →
  strictlySortedBy "revision" (getDataPoints_ req db).
Proof.
  intros Hkeyed. unfold getDataPoints_.
  destruct (storeEntries_facts (dataStore db)) as (Hs & Hnd & Hin).
  destruct (_ && _).
  - apply entries_strictlySorted; [assumption|assumption|].
    intros k row Hk. apply Hkeyed, Hin, Hk.
  - destruct (revisionRange_ req) as [|lo hi]; [apply strictlySortedBy_nil|].
    apply entries_strictlySorted.
    + apply StronglySorted_filter. assumption.
    + apply NoDup_fst_filter. assumption.
    + intros k row [_ Hk]%list_elem_of_filter. apply Hkeyed, Hin, Hk.
Qed.

(** *** The merged rows stay sorted *)

(** The data of the snapshot, when it has any, is strictly sorted by
    revision. *)
Definition sortedSnapshot (snapshot : ResultObj) : Prop :=
  ∀ rows, data snapshot = Some rows → strictlySortedBy "revision" rows.

Definition sortedGenerating (st : Generating) : Prop :=
  strictlySortedBy "revision" (mergedData st) ∧
  Forall sortedSnapshot (yielded st).

Section GeneratorSorted.
Variable req : Request.

Lemma purgeAlerts_keys (rows : list Row) :
  (λ r : Row, r !! "revision") <$> purgeAlerts req rows
  = (λ r : Row, r !! "revision") <$> rows.
Proof.
  unfold purgeAlerts. rewrite <- list_fmap_compose. apply list_fmap_ext.
  intros i datum _. simpl. destruct (inRequestRange req datum); [|reflexivity].
  apply Row_lookup_delete_ne. discriminate.
Qed.

Lemma purgeAlerts_sorted (rows : list Row) :
  strictlySortedBy "revision" rows →
  strictlySortedBy "revision" (purgeAlerts req rows).
Proof.
  intros (ks & Hk & Hs). exists ks. rewrite purgeAlerts_keys. auto.
Qed.

Lemma inRequestRange_hasKey (rows : list Row) :
  Forall (hasKey "revision") (filter (λ d, inRequestRange req d) rows).
Proof.
  apply Forall_forall. intros d [Hd _]%list_elem_of_filter.
  unfold inRequestRange in Hd. unfold hasKey.
  destruct (d !! "revision"); [eauto|contradiction].
Qed.

Lemma handleResult_sorted st now result :
  sortedGenerating st →
  sortedGenerating (handleResult req st now result).1.
Proof.
  intros [Hm Hy]. unfold handleResult.
  destruct result as [result|]; [|split; assumption].
  destruct (_ && _); [split; assumption|].
  destruct (columns result) as [resultColumns|]; [|split; assumption].
  cbv zeta. simpl.
  assert (Hpurged : strictlySortedBy "revision"
            (if decide ("alert" ∈ resultColumns)
             then purgeAlerts req (mergedData st) else mergedData st))
    by (destruct (decide _); [apply purgeAlerts_sorted|]; assumption).
  destruct (data result) as [rows|]; [|split; assumption].
  assert (Hsorted : strictlySortedBy "revision"
    (mergeObjectArrays "revision"
       (if decide ("alert" ∈ resultColumns)
        then purgeAlerts req (mergedData st) else mergedData st)
       [filter (λ d, inRequestRange req d) rows])).
  { apply mergeObjectArrays_sorted; [assumption|].
    repeat constructor. apply inRequestRange_hasKey. }
  split; simpl; [exact Hsorted|].
  apply Forall_app. split; [assumption|].
  repeat constructor. intros rows' [= <-]. exact Hsorted.
Qed.

Lemma handleResults_sorted arrivals : ∀ st,
  sortedGenerating st →
  sortedGenerating (handleResults req st arrivals).1.
Proof.
  induction arrivals as [|[now result] arrivals IH]; intros st Hst; simpl;
    [assumption|].
  pose proof (handleResult_sorted st now result Hst) as Hstep.
  destruct (handleResult req st now result) as [st' [message|]];
    [exact Hstep|].
  apply IH. exact Hstep.
Qed.

(** Every snapshot of a run is sorted when the cached rows are. *)
Lemma generateResults_sorted self peers peerSets memo network completion
    cacheResult now :
  sortedSnapshot cacheResult →
  Forall sortedSnapshot
    (snapshots (generateResults req self peers peerSets memo network
                  completion cacheResult now)).
Proof.
  intros Hcache. unfold generateResults. cbv zeta.
  set (cached := match data cacheResult with
                 | Some _ => deleteAvailableRangeByCol cacheResult
                 | None => cacheResult
                 end).
  set (first := match data cacheResult with
                | Some _ => [cached] | None => []
                end).
  assert (Hfirst : Forall sortedSnapshot first).
  { subst first cached. destruct (data cacheResult) as [rows|] eqn:Hd;
      [|constructor].
    repeat constructor. intros rows'. simpl. rewrite Hd. intros [= <-].
    apply Hcache. assumption. }
  assert (Hmerged : strictlySortedBy "revision" (default [] (data cacheResult))).
  { destruct (data cacheResult) as [rows|] eqn:Hd; simpl;
      [apply Hcache; assumption|apply strictlySortedBy_nil]. }
  destruct (recentlyMissing now cached); [exact Hfirst|].
  unfold fetchAndMerge. cbv zeta.
  destruct (findInProgressRequest _ _ _) as [st|message]; [|exact Hfirst].
  match goal with |- context [handleResults req ?g ?a] =>
    pose proof (handleResults_sorted a g) as Hloop;
    destruct (handleResults req g a) as [gen' [message|]]
  end; simpl in *; apply Hloop; split; assumption.
Qed.
End GeneratorSorted.

(** *** One comparison of the coalescer *)

Lemma filter_ext_elem {A} (P Q : A → Prop) `{!∀ x, Decision (P x)}
    `{!∀ x, Decision (Q x)} (l : list A) :
  (∀ x, x ∈ l → (P x ↔ Q x)) → filter P l = filter Q l.
Proof.
  induction l as [|x l IH]; intros Hext; [reflexivity|].
  rewrite !filter_cons.
  pose proof (Hext x (list_elem_of_here _ _)) as Hx.
  rewrite IH by (intros y Hy; apply Hext, elem_of_cons; tauto).
  destruct (decide (P x)), (decide (Q x)); tauto.
Qed.

Lemma filter_all {A} (P : A → Prop) `{!∀ x, Decision (P x)} (l : list A) :
  (∀ x, x ∈ l → P x) → filter P l = l.
Proof.
  induction l as [|x l IH]; intros Hall; [reflexivity|].
  rewrite filter_cons_True by apply Hall, list_elem_of_here.
  f_equal. apply IH. intros y Hy. apply Hall, elem_of_cons. tauto.
Qed.

Lemma sliceSetAdd_elem x (set : list TimeseriesSlice) :
  x ∈ sliceSetAdd x set.
Proof.
  unfold sliceSetAdd. destruct (decide (x ∈ set)); [assumption|].
  apply elem_of_app. right. apply list_elem_of_here.
Qed.

Lemma sliceSetAdd_idem x (set : list TimeseriesSlice) :
  sliceSetAdd x (sliceSetAdd x set) = sliceSetAdd x set.
Proof.
  unfold sliceSetAdd at 1.
  destruct (decide _) as [_|Hn]; [reflexivity|].
  exfalso. apply Hn, sliceSetAdd_elem.
Qed.

Lemma foldOutcome_cons {A S} (step : S → A → Outcome S) s a l :
  foldOutcome step s (a :: l) = step s a ≫= λ s', foldOutcome step s' l.
Proof. reflexivity. Qed.

Lemma bind_Returns {A B} (a : A) (k : A → Outcome B) : Returns a ≫= k = k a.
Proof. reflexivity. Qed.

(** [col] is a column other than 'revision' that the peer slice, whose
    columns are [theirs], carries too. *)
Definition sharedWith (theirs : list string) (col : string) : Prop :=
  col ≠ "revision" ∧ col ∈ theirs.

#[global] Instance sharedWith_dec theirs col : Decision (sharedWith theirs col).
Proof. unfold sharedWith. apply _. Defined.

Section Comparison.
Variables slice otherSlice : TimeseriesSlice.
Variables own other : nat.
Hypothesis Hown : sliceColumns slice = ColumnSet own.
Hypothesis Hother : sliceColumns otherSlice = ColumnSet other.
Hypothesis Hdistinct : own ≠ other.

(** The loop over the columns of the planned slice deletes the visited
    columns that the peer slice carries, and adds the peer slice to
    [matchingSlices] when there is one. *)
Lemma dropSharedColumns_result (visited : list string) : ∀ st,
  let theirs := setContents (heap st) other in
  ∃ st',
    foldOutcome (dropSharedColumn slice otherSlice) st visited = Returns st' ∧
    setContents (heap st') own
      = filter (λ col, ¬ (col ∈ visited ∧ sharedWith theirs col))
               (setContents (heap st) own) ∧
    (∀ o, o ≠ own → heap st' !! o = heap st !! o) ∧
    slices st' = slices st ∧
    matchingSlices st'
      = if decide (Exists (sharedWith theirs) visited)
        then sliceSetAdd otherSlice (matchingSlices st)
        else matchingSlices st.
Proof.
  induction visited as [|col visited IH]; intros st theirs.
  - exists st. simpl. split; [reflexivity|]. split.
    + symmetry. apply filter_all. intros x _. rewrite elem_of_nil. tauto.
    + split; [reflexivity|]. split; reflexivity.
  - rewrite foldOutcome_cons.
    destruct (decide (col = "revision")) as [Hrev|Hrev].
    { (* 'revision' is skipped *)
      assert (Hstep : dropSharedColumn slice otherSlice st col = Returns st).
      { unfold dropSharedColumn. destruct (decide _); [reflexivity|contradiction]. }
      rewrite Hstep, bind_Returns.
      destruct (IH st) as (st' & Hrun & Hmine & Hothers & Hsl & Hm).
      exists st'. split; [exact Hrun|]. split.
      - rewrite Hmine. apply filter_ext_elem. intros x _.
        rewrite elem_of_cons. unfold sharedWith. split.
        + intros Hn [[->|Hx] Hs]; tauto.
        + intros Hn [Hx Hs]. tauto.
      - split; [assumption|]. split; [assumption|].
        rewrite Hm. fold theirs.
        destruct (decide (Exists (sharedWith theirs) visited)) as [He|He];
          destruct (decide (Exists (sharedWith theirs) (col :: visited)))
            as [He'|He']; try reflexivity.
        + exfalso. apply He'. apply Exists_cons. tauto.
        + exfalso. apply Exists_cons in He' as [[Hc _]|He']; tauto. }
    destruct (decide (col ∈ theirs)) as [Hin|Hin].
    + (* the peer slice carries the column: delete it, borrow the slice *)
      set (st1 := {| heap := <[own := setDelete col (setContents (heap st) own)]>
                               (heap st);
                     slices := slices st;
                     matchingSlices :=
                       sliceSetAdd otherSlice (matchingSlices st) |}).
      assert (Hstep : dropSharedColumn slice otherSlice st col = Returns st1).
      { unfold dropSharedColumn. destruct (decide _); [contradiction|].
        rewrite Hother, Hown. simpl. fold theirs.
        rewrite bool_decide_eq_true_2 by assumption. reflexivity. }
      rewrite Hstep, bind_Returns.
      assert (Htheirs1 : setContents (heap st1) other = theirs).
      { unfold setContents. simpl. rewrite lookup_insert_ne by assumption.
        reflexivity. }
      assert (Hmine1 : setContents (heap st1) own
                       = setDelete col (setContents (heap st) own)).
      { unfold setContents at 1. simpl. rewrite lookup_insert_eq. reflexivity. }
      destruct (IH st1) as (st' & Hrun & Hmine & Hothers & Hsl & Hm).
      exists st'. split; [exact Hrun|]. split.
      * rewrite Hmine, Htheirs1, Hmine1. unfold setDelete.
        rewrite list_filter_filter. apply filter_ext_elem. intros x _.
        rewrite elem_of_cons. unfold sharedWith. split.
        -- intros [Hn Hx] [[->|Hv] Hs]; tauto.
        -- intros Hn. split; [tauto|]. intros ->. apply Hn. tauto.
      * split.
        { intros o Ho. rewrite Hothers by assumption. simpl.
          apply lookup_insert_ne. congruence. }
        split; [rewrite Hsl; reflexivity|].
        rewrite Hm, Htheirs1.
        destruct (decide (Exists (sharedWith theirs) (col :: visited)))
          as [_|He'];
          [|exfalso; apply He'; apply Exists_cons; left; split; assumption].
        destruct (decide (Exists (sharedWith theirs) visited)); simpl;
          [apply sliceSetAdd_idem|reflexivity].
    + (* the peer slice does not carry it *)
      assert (Hstep : dropSharedColumn slice otherSlice st col = Returns st).
      { unfold dropSharedColumn. destruct (decide _); [contradiction|].
        rewrite Hother. simpl. fold theirs.
        rewrite bool_decide_eq_false_2 by assumption. reflexivity. }
      rewrite Hstep, bind_Returns.
      destruct (IH st) as (st' & Hrun & Hmine & Hothers & Hsl & Hm).
      exists st'. split; [exact Hrun|]. split.
      * rewrite Hmine. apply filter_ext_elem. intros x _.
        rewrite elem_of_cons. unfold sharedWith. fold theirs. split.
        -- intros Hn [[->|Hx] Hs]; tauto.
        -- intros Hn [Hx Hs]. tauto.
      * split; [assumption|]. split; [assumption|].
        rewrite Hm. fold theirs.
        destruct (decide (Exists (sharedWith theirs) visited)) as [He|He];
          destruct (decide (Exists (sharedWith theirs) (col :: visited)))
            as [He'|He']; try reflexivity.
        -- exfalso. apply He'. apply Exists_cons. tauto.
        -- exfalso. apply Exists_cons in He' as [[_ Hc]|He']; tauto.
Qed.
End Comparison.

(** *** Responses that are skipped *)

(** The state after a write of [missingTimestamp] was scheduled. *)
Definition recordMissing (now : Z) (st : Generating) : Generating :=
  {| mergedData := mergedData st; finalResult := finalResult st;
     yielded := yielded st; written := written st ++ [missingResult now] |}.

(** Two states of the generator that differ at most in the writes
    scheduled so far. *)
Definition sameButWritten (a b : Generating) : Prop :=
  mergedData a = mergedData b ∧ finalResult a = finalResult b ∧
  yielded a = yielded b.

Section SkippedResponses.
Variable req : Request.

Lemma handleResult_not_found st now result :
  data result = None → status result = Some HTTP_NOT_FOUND →
  handleResult req st now (Some result) = (recordMissing now st, None).
Proof.
  intros Hd Hs. unfold handleResult.
  rewrite (bool_decide_eq_true_2 _ Hd), (bool_decide_eq_true_2 _ Hs).
  reflexivity.
Qed.

Lemma handleResult_sameButWritten a b now result :
  sameButWritten a b →
  sameButWritten (handleResult req a now result).1
                 (handleResult req b now result).1 ∧
  (handleResult req a now result).2 = (handleResult req b now result).2.
Proof.
  intros (Hm & Hf & Hy). unfold handleResult, sameButWritten.
  destruct result as [result|]; [|simpl; tauto].
  destruct (_ && _); [simpl; tauto|].
  destruct (columns result) as [resultColumns|]; [|simpl; tauto].
  cbv zeta. simpl. rewrite Hm, Hf, Hy.
  destruct (data result) as [rows|]; simpl; tauto.
Qed.

Lemma handleResults_sameButWritten arrivals : ∀ a b,
  sameButWritten a b →
  sameButWritten (handleResults req a arrivals).1
                 (handleResults req b arrivals).1 ∧
  (handleResults req a arrivals).2 = (handleResults req b arrivals).2.
Proof.
  induction arrivals as [|[now result] arrivals IH]; intros a b Hab; simpl;
    [split; [assumption|reflexivity]|].
  destruct (handleResult_sameButWritten a b now result Hab) as [Hstep Hthrow].
  destruct (handleResult req a now result) as [a' ma],
           (handleResult req b now result) as [b' mb].
  simpl in Hstep, Hthrow. subst mb.
  destruct ma as [message|]; [split; [assumption|reflexivity]|].
  apply IH. assumption.
Qed.

Lemma handleResults_cons st now result rest :
  handleResults req st ((now, result) :: rest) =
    match handleResult req st now result with
    | (st', None) => handleResults req st' rest
    | (st', Some message) => (st', Some message)
    end.
Proof. reflexivity. Qed.

(** The loop over the arrivals, cut at any point. *)
Lemma handleResults_app before : ∀ st after,
  handleResults req st (before ++ after) =
    match handleResults req st before with
    | (st1, None) => handleResults req st1 after
    | (st1, Some message) => (st1, Some message)
    end.
Proof.
  induction before as [|[now result] before IH]; intros st after; simpl;
    [reflexivity|].
  destruct (handleResult req st now result) as [st' [message|]];
    [reflexivity|apply IH].
Qed.

(** Scheduled writes are never taken back. *)
Lemma handleResult_written st now result w :
  w ∈ written st → w ∈ written (handleResult req st now result).1.
Proof.
  intros Hw. unfold handleResult.
  destruct result as [result|]; [|assumption].
  destruct (_ && _); [simpl; apply elem_of_app; tauto|].
  destruct (columns result); [|assumption]. cbv zeta. simpl.
  destruct (data result); assumption.
Qed.

Lemma handleResults_written arrivals : ∀ st w,
  w ∈ written st → w ∈ written (handleResults req st arrivals).1.
Proof.
  induction arrivals as [|[now result] arrivals IH]; intros st w Hw; simpl;
    [assumption|].
  pose proof (handleResult_written st now result w Hw) as Hstep.
  destruct (handleResult req st now result) as [st' [message|]];
    [exact Hstep|].
  apply IH. exact Hstep.
Qed.
End SkippedResponses.

(** *** A timestamp that does not suppress *)

(** The result object without its [missingTimestamp]. *)
Definition forgetMissing (r : ResultObj) : ResultObj :=
  setMissingTimestamp None r.

(** Two states of the generator that differ at most in the
    [missingTimestamp] of the cache result they carry. *)
Definition sameButMissing (a b : Generating) : Prop :=
  mergedData a = mergedData b ∧
  forgetMissing (finalResult a) = forgetMissing (finalResult b) ∧
  forgetMissing <$> yielded a = forgetMissing <$> yielded b ∧
  written a = written b.

Definition sameRunButMissing (a b : Run) : Prop :=
  forgetMissing <$> snapshots a = forgetMissing <$> snapshots b ∧
  forgetMissing <$> scheduledWrites a = forgetMissing <$> scheduledWrites b ∧
  launched a = launched b ∧ thrown a = thrown b.

Section OldTimestamp.
Variable req : Request.

Lemma forgetMissing_columns a b :
  forgetMissing a = forgetMissing b → columns a = columns b.
Proof. intros H. exact (f_equal columns H). Qed.

Lemma forgetMissing_data a b :
  forgetMissing a = forgetMissing b → data a = data b.
Proof. intros H. exact (f_equal data H). Qed.

Lemma forgetMissing_setData d r :
  forgetMissing (setData d r) = setData d (forgetMissing r).
Proof. reflexivity. Qed.

Lemma handleResult_sameButMissing a b now result :
  sameButMissing a b →
  sameButMissing (handleResult req a now result).1
                 (handleResult req b now result).1 ∧
  (handleResult req a now result).2 = (handleResult req b now result).2.
Proof.
  intros (Hm & Hf & Hy & Hw). unfold handleResult, sameButMissing.
  destruct result as [result|]; [|simpl; tauto].
  destruct (_ && _).
  { repeat split; simpl; try assumption. rewrite Hw. reflexivity. }
  destruct (columns result) as [resultColumns|]; [|simpl; tauto].
  cbv zeta. simpl.
  rewrite Hm, (forgetMissing_columns _ _ Hf).
  destruct (data result) as [rows|].
  - repeat split; simpl; try assumption.
    rewrite !fmap_app, Hy. reflexivity.
  - repeat split; simpl; try assumption.
    destruct (decide _); [|assumption].
    rewrite !forgetMissing_setData, Hf, (forgetMissing_data _ _ Hf).
    reflexivity.
Qed.

Lemma handleResults_sameButMissing arrivals : ∀ a b,
  sameButMissing a b →
  sameButMissing (handleResults req a arrivals).1
                 (handleResults req b arrivals).1 ∧
  (handleResults req a arrivals).2 = (handleResults req b arrivals).2.
Proof.
  induction arrivals as [|[now result] arrivals IH]; intros a b Hab; simpl;
    [split; [assumption|reflexivity]|].
  destruct (handleResult_sameButMissing a b now result Hab) as [Hstep Hthrow].
  destruct (handleResult req a now result) as [a' ma],
           (handleResult req b now result) as [b' mb].
  simpl in Hstep, Hthrow. subst mb.
  destruct ma as [message|]; [split; [assumption|reflexivity]|].
  apply IH. assumption.
Qed.

(** The part of the generator after the test does not look at the
    timestamp. *)
Lemma fetchAndMerge_sameButMissing self peers peerSets memo network
    completion cacheResult cached cached' merged first first' :
  forgetMissing cached = forgetMissing cached' →
  forgetMissing <$> first = forgetMissing <$> first' →
  sameRunButMissing
    (fetchAndMerge req self peers peerSets memo network completion
       cacheResult cached merged first)
    (fetchAndMerge req self peers peerSets memo network completion
       (forgetMissing cacheResult) cached' merged first').
Proof.
  intros Hc Hfirst. unfold fetchAndMerge. cbv zeta.
  change (getSlices_ req self (forgetMissing cacheResult))
    with (getSlices_ req self cacheResult).
  destruct (findInProgressRequest _ _ _) as [st|message];
    [|repeat split; assumption].
  match goal with
  | |- context [handleResults req ?g ?arr] =>
      match goal with
      | |- context [handleResults req ?g' arr] =>
          lazymatch g' with
          | g => fail
          | _ => pose proof (handleResults_sameButMissing arr g g') as Hloop
          end
      end
  end.
  destruct Hloop as [(Hm & Hf & Hy & Hw) Hthrown].
  { repeat split; simpl; try assumption.
    change (setColumns (Some []) (forgetMissing cached)
            = setColumns (Some []) (forgetMissing cached')).
    rewrite Hc. reflexivity. }
  match goal with
  | |- context [handleResults req ?g ?arr] =>
      destruct (handleResults req g arr) as [ga ta]
  end.
  match goal with
  | |- context [handleResults req ?g ?arr] =>
      destruct (handleResults req g arr) as [gb tb]
  end.
  simpl in *. subst tb.
  destruct ta as [message|]; repeat split; simpl; try assumption;
    try (rewrite Hw; reflexivity).
  rewrite !fmap_app, Hw. f_equal.
  unfold hasRows. rewrite (forgetMissing_data _ _ Hf).
  destruct (data (finalResult gb)) as [[|row rows]|]; simpl;
    try reflexivity.
  f_equal. exact Hf.
Qed.
End OldTimestamp.

(** * The specification, claim by claim *)

(** ** Scenarios *)

Definition coldRequest : FormData :=
  [("columns", "revision,avg"); ("max_revision", "100")].

(** Scenario 1, cold cache: one slice for the whole range. *)
Example scenario_cold_cache :
  (λ req, getSlices_ req 0 (readDatabase_ req emptyDatabase))
    <$> parseRequest_ coldRequest
  = Some {| planSlices :=
              [ {| sliceOwner := 0; sliceIndex := 0;
                   revisionRange := Range.Interval 0 100;
                   sliceColumns := ColumnSet 0 |} ];
            planColumns := ["revision"; "avg"] |}.
Proof. vm_compute. reflexivity. Qed.

(** The database after the run of scenario 1 has written its result. *)
Definition warmDatabase : Database :=
  {| dataStore :=
       {[ 50 := {["revision" := 50; "avg" := 7]};
          100 := {["revision" := 100; "avg" := 8]} ]};
     metadataStore := {[ "_accessTime" := MetaTime 2000 ]};
     rangeStore := {[ "avg" := [Range.DictMinMax 0 100] ]} |}.

(** Scenario 2, warm cache: no slice. *)
Example scenario_warm_cache :
  (λ req, planSlices (getSlices_ req 0 (readDatabase_ req warmDatabase)))
    <$> parseRequest_ coldRequest
  = Some [].
Proof. vm_compute. reflexivity. Qed.

(** Scenario 3, partial cache: one slice for the missing part. *)
Example scenario_partial_cache :
  (λ req, (λ s, (revisionRange s, sliceColumns s)) <$>
            planSlices (getSlices_ req 0 (readDatabase_ req warmDatabase)))
    <$> parseRequest_ [("columns", "revision,avg"); ("min_revision", "50");
                       ("max_revision", "200")]
  = Some [(Range.Interval 100 200, ColumnSet 0)].
Proof. vm_compute. reflexivity. Qed.

(** Scenario 4, alerts are fetched again while avg comes from the cache. *)
Example scenario_alert_refetch :
  (λ req, getSlices_ req 0 (readDatabase_ req warmDatabase))
    <$> parseRequest_ [("columns", "revision,avg,alert");
                       ("max_revision", "100")]
  = Some {| planSlices :=
              [ {| sliceOwner := 0; sliceIndex := 0;
                   revisionRange := Range.Interval 0 100;
                   sliceColumns := ColumnSet 0 |} ];
            planColumns := ["revision"; "alert"] |}.
Proof. vm_compute. reflexivity. Qed.

(** ** C1: coverage of the request range *)

Definition histogramRequest : FormData :=
  [("columns", "revision,histogram"); ("max_revision", "100")].

(** With one more column to fetch the histogram slices are kept. *)
Example histogram_slices_kept :
  (λ req, (λ s, (revisionRange s, sliceColumns s)) <$>
            planSlices (getSlices_ req 0 (readDatabase_ req emptyDatabase)))
    <$> parseRequest_ [("columns", "revision,avg,histogram");
                       ("max_revision", "100")]
  = Some [ (Range.Interval 0 100, ColumnArray ["revision"; "histogram"]);
           (Range.Interval 0 100, ColumnSet 0) ].
Proof. vm_compute. reflexivity. Qed.

(** C1.  The claim: for every request and every requested column other
    than 'revision' and 'alert', the cached available range of the column
    together with the ranges of the planned slices covers the request
    range.  The planner breaks it: for the request of the columns
    'revision' and 'histogram' over [0, 100] on an empty cache, the
    histogram slice is created and then dropped by the early return that
    is meant for the case where everything is cached, so nothing covers
    the histogram column.  Apart from that early return the claim holds
    on what the cache reader delivers: whenever the planner goes on to its
    final return, and for every request that asks for 'revision' and not
    for 'histogram'. *)
Theorem getSlices_drops_histogram_slices :
  (∃ req, parseRequest_ histogramRequest = Some req ∧
     let cacheResult := readDatabase_ req emptyDatabase in
     let plan := getSlices_ req 0 cacheResult in
     revisionRange_ req = Range.Interval 0 100 ∧
     "histogram" ∈ columns_ req ∧
     plannerAvailable cacheResult !! "histogram" = None ∧
     length (histogramSlices req 0 cacheResult (newSet (columns_ req)))
       = 1%nat ∧
     planSlices plan = [] ∧
     ¬ coveredBy req (plannerAvailable cacheResult) plan "histogram") ∧
  (∀ req owner db col,
     let cacheResult := readDatabase_ req db in
     length (remainingColumns req cacheResult) ≠ 1%nat ∨
     ("revision" ∈ columns_ req ∧ "histogram" ∉ columns_ req) →
     col ∈ columns_ req → col ≠ "revision" → col ≠ "alert" →
     coveredBy req (plannerAvailable cacheResult)
       (getSlices_ req owner cacheResult) col).
Proof.
  split.
  - eexists. split; [reflexivity|]. cbv zeta.
    split; [reflexivity|].
    split; [apply elem_of_cons; right; apply list_elem_of_here|].
    split; [reflexivity|].
    split; [reflexivity|].
    split; [reflexivity|].
    intros Hcov. destruct (Hcov 50) as [(r & Hr & _)|(s & Hs & _)].
    + change (0 ≤ 50 ≤ 100). lia.
    + vm_compute in Hr. discriminate.
    + vm_compute in Hs. apply elem_of_nil in Hs. exact Hs.
  - intros req owner db col cacheResult Hcase Hcol Hrev Halert.
    pose proof (readDatabase_availableWithin req db) as Hwithin.
    destruct Hcase as [Hmore|[Hrevision Hnohist]].
    + apply getSlices_covers; assumption.
    + apply getSlices_covers_without_histogram; assumption.
Qed.

(** ** C2: fully cached columns drop out *)

(** C2.  In the slice planner every requested column other than
    'revision' and 'alert' whose available range has the duration of the
    request range is removed from the column set, and when only
    'revision' remains after that, [getSlices_] returns no slice. *)
Theorem planner_drops_cached_columns req owner cacheResult :
  (∀ col r,
     col ∈ columns_ req → col ≠ "revision" → col ≠ "alert" →
     plannerAvailable cacheResult !! col = Some r →
     Range.duration r = Range.duration (revisionRange_ req) →
     col ∉ remainingColumns req cacheResult) ∧
  (remainingColumns req cacheResult = ["revision"] →
   planSlices (getSlices_ req owner cacheResult) = []).
Proof.
  split.
  - intros col r Hcol Hrev Halert Hav Hd Hin.
    apply elem_of_remainingColumns in Hin as (_ & _ & Hn).
    apply Hn. unfold droppable. eauto 10.
  - intros Hrem. unfold getSlices_. cbv zeta. rewrite Hrem. reflexivity.
Qed.

Definition warmRequest : Request :=
  {| body_ := coldRequest; columns_ := ["revision"; "avg"];
     revisionRange_ := Range.Interval 0 100;
     testSuite_ := ""; measurement_ := ""; bot_ := ""; statistic_ := "avg";
     testCase_ := ""; buildType_ := "" |}.

Lemma planner_drops_cached_columns_witness :
  ("avg" ∉ remainingColumns warmRequest
             (readDatabase_ warmRequest warmDatabase)) ∧
  (planSlices (getSlices_ warmRequest 0 (readDatabase_ warmRequest warmDatabase))
   = []).
Proof.
  pose proof (planner_drops_cached_columns warmRequest 0%nat
                (readDatabase_ warmRequest warmDatabase)) as [Hdrop Hnone].
  split.
  - apply (Hdrop "avg" (Range.Interval 0 100)).
    + apply elem_of_cons. right. apply list_elem_of_here.
    + discriminate.
    + discriminate.
    + vm_compute. reflexivity.
    + reflexivity.
  - apply Hnone. vm_compute. reflexivity.
Defined.

(** ** C7: the bisection on an empty array *)

(** C7.  The claim: [findLowIndexInSortedArray] returns 0 on an empty
    array, and otherwise the smallest index whose key is at least
    [loVal], or the length of the array when no key is.  On the empty
    array the code returns 1, against its own documentation (the length of
    the array is 0 there).  On a non-empty array sorted by key the claim
    holds: the result splits the array into the keys below [loVal] and the
    keys at or above it. *)
Theorem findLowIndexInSortedArray_empty :
  (∀ (A : Type) (getKey : A → option Z) (loVal : option Z),
     findLowIndexInSortedArray [] getKey loVal = 1) ∧
  (∀ (A : Type) (ary : list A) (getKey : A → option Z) (lo : Z) (ks : list Z),
     getKey <$> ary = Some <$> ks →
     (∀ (i j : nat) x y,
        (i ≤ j)%nat → ks !! i = Some x → ks !! j = Some y → x ≤ y) →
     ary ≠ [] →
     splitsAt ary lo ks (findLowIndexInSortedArray ary getKey (Some lo))).
Proof.
  split.
  - intros A getKey loVal. reflexivity.
  - intros A ary getKey lo ks Hkeys Hsorted Hne.
    apply findLowIndexInSortedArray_splits; assumption.
Qed.

(** ** C10: revisions that parse to 0 or NaN *)

(** The claim as stated fails: with a min_revision above the sentinel, a
    max_revision of '0' is replaced by the sentinel, which then becomes
    the lower bound of the request range, not its max. *)
Lemma zero_max_revision_not_range_max :
  let body := [("columns", "revision,avg"); ("max_revision", "0");
               ("min_revision", "9007199254740992")] in
  parseInt (formGet body "max_revision") = Some 0 ∧
  (revisionRange_ <$> parseRequest_ body)
    = Some (Range.Interval MAX_SAFE_INTEGER 9007199254740992) ∧
  (Range.max <$> (revisionRange_ <$> parseRequest_ body))
    ≠ Some (Some MAX_SAFE_INTEGER).
Proof. cbv zeta. split; [reflexivity|]. split; [reflexivity|]. discriminate. Qed.

(** Likewise a min_revision of '0' next to a negative max_revision. *)
Example zero_min_revision_not_range_min :
  (revisionRange_ <$> parseRequest_
     [("columns", "revision,avg"); ("min_revision", "0");
      ("max_revision", "-5")])
  = Some (Range.Interval (-5) 0).
Proof. reflexivity. Qed.

Lemma parseRequest_formDelete body name req :
  name ≠ "columns" →
  parseRequest_ body = Some req →
  ∃ req', parseRequest_ (formDelete body name) = Some req'.
Proof.
  intros Hne. unfold parseRequest_, formHas.
  rewrite formGet_formDelete_ne by assumption.
  destruct (negb _); [discriminate|]. eauto.
Qed.

(** C10, amended.  In request parsing a max_revision whose integer parse
    is 0 or NaN is treated exactly like an absent max_revision: the
    sentinel [MAX_SAFE_INTEGER] is the upper value added to the request
    range, and it is the max of the range whenever the lower value (the
    parsed min_revision, or its default 0) does not exceed it.  Likewise a
    min_revision whose parse is 0 or NaN is treated like an absent one:
    the default 0 is the lower value added, and it is the min of the range
    whenever the upper value is not negative. *)
Theorem parseRequest_falsy_revision body req :
  parseRequest_ body = Some req →
  (parseInt (formGet body "max_revision") = Some 0 ∨
   parseInt (formGet body "max_revision") = None →
     maxRevisionOf body = MAX_SAFE_INTEGER ∧
     (revisionRange_ <$> parseRequest_ (formDelete body "max_revision"))
       = Some (revisionRange_ req) ∧
     (minRevisionOf body ≤ MAX_SAFE_INTEGER →
      Range.max (revisionRange_ req) = Some MAX_SAFE_INTEGER)) ∧
  (parseInt (formGet body "min_revision") = Some 0 ∨
   parseInt (formGet body "min_revision") = None →
     minRevisionOf body = 0 ∧
     (revisionRange_ <$> parseRequest_ (formDelete body "min_revision"))
       = Some (revisionRange_ req) ∧
     (0 ≤ maxRevisionOf body →
      Range.min (revisionRange_ req) = Some 0)).
Proof.
  intros Hreq. pose proof (parseRequest_range _ _ Hreq) as Hrange. split.
  - intros Hmax%orUndefined_None.
    assert (Hm : maxRevisionOf body = MAX_SAFE_INTEGER)
      by (unfold maxRevisionOf; rewrite Hmax; reflexivity).
    split; [exact Hm|]. split.
    + destruct (parseRequest_formDelete body "max_revision" req) as [req' Hreq'];
        [discriminate|assumption|].
      rewrite Hreq'. simpl. f_equal.
      rewrite (parseRequest_range _ _ Hreq'), Hrange.
      unfold minRevisionOf, maxRevisionOf.
      rewrite formGet_formDelete_eq, formGet_formDelete_ne by discriminate.
      rewrite Hmax. reflexivity.
    + intros Hle. rewrite Hrange, Hm. simpl. f_equal. lia.
  - intros Hmin%orUndefined_None.
    assert (Hm : minRevisionOf body = 0)
      by (unfold minRevisionOf; rewrite Hmin; reflexivity).
    split; [exact Hm|]. split.
    + destruct (parseRequest_formDelete body "min_revision" req) as [req' Hreq'];
        [discriminate|assumption|].
      rewrite Hreq'. simpl. f_equal.
      rewrite (parseRequest_range _ _ Hreq'), Hrange.
      unfold minRevisionOf, maxRevisionOf.
      rewrite formGet_formDelete_eq, formGet_formDelete_ne by discriminate.
      rewrite Hmin. reflexivity.
    + intros Hle. rewrite Hrange, Hm. simpl. f_equal. lia.
Qed.

Lemma parseRequest_falsy_revision_witness :
  let body := [("columns", "revision,avg"); ("min_revision", "abc");
               ("max_revision", "0")] in
  ∃ req, parseRequest_ body = Some req ∧
         Range.max (revisionRange_ req) = Some MAX_SAFE_INTEGER ∧
         Range.min (revisionRange_ req) = Some 0.
Proof.
  cbv zeta. eexists. split; [reflexivity|].
  match goal with
  | |- Range.max (revisionRange_ ?r) = _ ∧ _ =>
      pose proof (parseRequest_falsy_revision
                    [("columns", "revision,avg"); ("min_revision", "abc");
                     ("max_revision", "0")] r eq_refl) as [Hmax Hmin]
  end.
  split.
  - apply Hmax; [left; reflexivity|]. vm_compute. discriminate.
  - apply Hmin; [right; reflexivity|]. vm_compute. discriminate.
Defined.

(** ** C4: the retry policy of a slice fetch *)

(** C4.  For every slice fetch, an answer with status 500 is retried up
    to 3 times (at most 4 calls of [fetch] in all) before an
    [{error, status}] object is returned, and any other status that is
    not OK makes the fetch return an [{error, status}] object at once,
    without another call. *)
Theorem fetch_retry_policy (network : nat → HttpResponse)
    (sliceColumns : list string) :
  let out := fetch_ network sliceColumns 0 0 in
  (fetchCalls out ≤ 4)%nat ∧
  (∀ k, (k ≤ 3)%nat →
     (∀ j, (j < k)%nat → httpStatus (network j) = SERVER_ERROR) →
     responseOk (network k) = false →
     httpStatus (network k) ≠ SERVER_ERROR →
     fetched out = errorResult (network k) ∧
     status (fetched out) = Some (httpStatus (network k)) ∧
     fetchCalls out = S k) ∧
  ((∀ j, (j < 4)%nat → httpStatus (network j) = SERVER_ERROR) →
     fetched out = errorResult (network 3%nat) ∧
     status (fetched out) = Some SERVER_ERROR ∧
     fetchCalls out = 4%nat ∧ retryAfter out = MAX_RETRIES).
Proof.
  cbv zeta. split; [|split].
  - pose proof (fetch__calls_bounded network sliceColumns _ 0%nat 0%nat eq_refl)
      as H. cbv zeta in H. unfold MAX_RETRIES in H. lia.
  - intros k Hk H500 Hnok Hother.
    rewrite (fetch__after_500s network sliceColumns k 0 0)
      by (unfold MAX_RETRIES; simpl; auto with lia).
    simpl. rewrite fetch__step. cbv zeta. rewrite Hnok. simpl.
    destruct (decide _) as [[H5 _]|_]; [contradiction|]. auto.
  - intros H500.
    rewrite (fetch__after_500s network sliceColumns 3 0 0)
      by (unfold MAX_RETRIES; simpl; auto with lia).
    simpl. rewrite fetch__step. cbv zeta.
    rewrite (responseOk_500 _ (H500 3%nat ltac:(lia))). simpl.
    destruct (decide _) as [[_ Hlt]|_]; [unfold MAX_RETRIES in Hlt; lia|].
    simpl. rewrite (H500 3%nat ltac:(lia)). auto.
Qed.

Lemma fetch_retry_policy_witness :
  let forbidden n :=
    if decide (n < 2)%nat then mkResponse 500 "Internal Server Error" None
    else mkResponse 403 "Forbidden" None in
  let broken (_ : nat) := mkResponse 500 "Internal Server Error" None in
  (status (fetched (fetch_ forbidden ["revision"; "avg"] 0 0)) = Some 403 ∧
   fetchCalls (fetch_ forbidden ["revision"; "avg"] 0 0) = 3%nat) ∧
  (status (fetched (fetch_ broken ["revision"; "avg"] 0 0)) = Some 500 ∧
   fetchCalls (fetch_ broken ["revision"; "avg"] 0 0) = 4%nat).
Proof.
  cbv zeta. split.
  - pose proof (fetch_retry_policy
      (λ n, if decide (n < 2)%nat
            then mkResponse 500 "Internal Server Error" None
            else mkResponse 403 "Forbidden" None)
      ["revision"; "avg"]) as (_ & Hother & _).
    destruct (Hother 2%nat) as (_ & Hstatus & Hcalls).
    + lia.
    + intros j Hj. destruct (decide (j < 2)%nat); [reflexivity|lia].
    + reflexivity.
    + vm_compute. discriminate.
    + split; assumption.
  - pose proof (fetch_retry_policy
      (λ _, mkResponse 500 "Internal Server Error" None)
      ["revision"; "avg"]) as (_ & _ & Hall).
    destruct Hall as (_ & Hstatus & Hcalls & _); [reflexivity|].
    split; assumption.
Defined.

(** ** C3: a timeseries that was recently missing *)

(** What the generator yields from the cache before anything else. *)
Definition cachedPortion (cacheResult : ResultObj) : list ResultObj :=
  match data cacheResult with
  | Some _ => [deleteAvailableRangeByCol cacheResult]
  | None => []
  end.

(** C3.  When the cache result carries a [missingTimestamp] strictly
    younger than 2.8 days, the generator ends after the cached portion and
    starts no slice; a timestamp that is 2.8 days old or older has no
    effect: the run is the one without a timestamp, apart from that field
    of the cache result. *)
Theorem missingTimestamp_suppression req self peers peerSets memo network
    completion cacheResult now timestamp :
  missingTimestamp cacheResult = Some (Some timestamp) →
  let run := generateResults req self peers peerSets memo network completion
               cacheResult now in
  (now - MISSING_TIMESERIES_RETRY_MS < timestamp →
     snapshots run = cachedPortion cacheResult ∧
     launched run = [] ∧ scheduledWrites run = [] ∧ thrown run = None) ∧
  (timestamp ≤ now - MISSING_TIMESERIES_RETRY_MS →
     sameRunButMissing run
       (generateResults req self peers peerSets memo network completion
          (forgetMissing cacheResult) now)).
Proof.
  intros Hts. cbv zeta. unfold generateResults. cbv zeta.
  assert (Hcached : missingTimestamp
            (match data cacheResult with
             | Some _ => deleteAvailableRangeByCol cacheResult
             | None => cacheResult
             end) = Some (Some timestamp))
    by (destruct (data cacheResult); exact Hts).
  unfold recentlyMissing. rewrite Hcached. split.
  - intros Hyoung. rewrite bool_decide_eq_true_2 by assumption.
    unfold cachedPortion. destruct (data cacheResult); repeat split.
  - intros Hold. rewrite bool_decide_eq_false_2 by lia.
    change (data (forgetMissing cacheResult)) with (data cacheResult).
    assert (Hnone : missingTimestamp
              (match data cacheResult with
               | Some _ => deleteAvailableRangeByCol (forgetMissing cacheResult)
               | None => forgetMissing cacheResult
               end) = None)
      by (destruct (data cacheResult); reflexivity).
    rewrite Hnone.
    apply fetchAndMerge_sameButMissing;
      destruct (data cacheResult); reflexivity.
Qed.

Definition missingCache (timestamp : Z) : ResultObj :=
  {| data := Some [ {["revision" := 50; "avg" := 7]} ];
     columns := None; error := None; status := None;
     missingTimestamp := Some (Some timestamp);
     improvement_direction := None; units := None;
     availableRangeByCol := Some {[ "avg" := Range.Interval 0 50 ]} |}.

Lemma missingTimestamp_suppression_witness :
  let run (timestamp : Z) :=
    generateResults warmRequest 0 [] ∅ (λ _, None)
      (λ _ _, mkResponse 404 "Not Found" None) [(0%nat, 300000000)]
      (missingCache timestamp) 300000000 in
  (snapshots (run 100000000)
     = [deleteAvailableRangeByCol (missingCache 100000000)] ∧
   launched (run 100000000) = []) ∧
  launched (run 1000)
    = launched (generateResults warmRequest 0 [] ∅ (λ _, None)
                  (λ _ _, mkResponse 404 "Not Found" None)
                  [(0%nat, 300000000)]
                  (forgetMissing (missingCache 1000)) 300000000).
Proof.
  cbv zeta. split.
  - destruct (missingTimestamp_suppression warmRequest 0%nat [] ∅ (λ _, None)
                (λ _ _, mkResponse 404 "Not Found" None) [(0%nat, 300000000)]
                (missingCache 100000000) 300000000 100000000 eq_refl)
      as [Hyoung _].
    destruct Hyoung as (Hs & Hl & _); [vm_compute; reflexivity|].
    split; assumption.
  - destruct (missingTimestamp_suppression warmRequest 0%nat [] ∅ (λ _, None)
                (λ _ _, mkResponse 404 "Not Found" None) [(0%nat, 300000000)]
                (missingCache 1000) 300000000 1000 eq_refl)
      as [_ Hold].
    destruct Hold as (_ & _ & Hl & _); [vm_compute; discriminate|].
    exact Hl.
Defined.

(** ** C5: a timeseries that does not exist *)

(** C5.  For every slice response without data whose status is 404, the
    generator schedules a write of an object whose only property is
    [missingTimestamp], holding the current time, and yields no snapshot
    for it: the other variables of the loop stay as they are.  The 404
    does not reach the consumer as an error: with or without that response
    the loop yields the same snapshots and ends the same way. *)
Theorem not_found_recorded_not_yielded req st now result before after :
  data result = None → status result = Some HTTP_NOT_FOUND →
  let missing :=
    {| data := None; columns := None; error := None; status := None;
       missingTimestamp := Some (Some now);
       improvement_direction := None; units := None;
       availableRangeByCol := None |} in
  handleResult req st now (Some result) =
    ({| mergedData := mergedData st; finalResult := finalResult st;
        yielded := yielded st; written := written st ++ [missing] |}, None) ∧
  let loop := handleResults req st (before ++ (now, Some result) :: after) in
  let without := handleResults req st (before ++ after) in
  yielded loop.1 = yielded without.1 ∧ loop.2 = without.2 ∧
  ((handleResults req st before).2 = None → missing ∈ written loop.1).
Proof.
  intros Hd Hs.
  pose proof (handleResult_not_found req) as Hstep.
  split; [apply Hstep; assumption|]. cbv zeta.
  rewrite !handleResults_app.
  destruct (handleResults req st before) as [st1 [message|]].
  { repeat split. discriminate. }
  rewrite handleResults_cons, Hstep by assumption.
  destruct (handleResults_sameButWritten req after (recordMissing now st1) st1)
    as [(_ & _ & Hy) Ht]; [repeat split|].
  split; [exact Hy|]. split; [exact Ht|]. intros _.
  apply handleResults_written. simpl. apply elem_of_app. right.
  apply list_elem_of_here.
Qed.

Definition notFound : ResultObj :=
  {| data := None; columns := None; error := Some "404 Not Found";
     status := Some 404; missingTimestamp := None;
     improvement_direction := None; units := None;
     availableRangeByCol := None |}.

Definition idle : Generating :=
  {| mergedData := []; finalResult := setColumns (Some []) emptyResult;
     yielded := []; written := [] |}.

Lemma not_found_recorded_not_yielded_witness :
  let missing :=
    {| data := None; columns := None; error := None; status := None;
       missingTimestamp := Some (Some 7000);
       improvement_direction := None; units := None;
       availableRangeByCol := None |} in
  handleResult warmRequest idle 7000 (Some notFound)
    = ({| mergedData := []; finalResult := finalResult idle;
          yielded := []; written := [missing] |}, None) ∧
  yielded (handleResults warmRequest idle [(7000, Some notFound)]).1 = [] ∧
  missing ∈
    written (handleResults warmRequest idle [(7000, Some notFound)]).1.
Proof.
  destruct (not_found_recorded_not_yielded warmRequest idle 7000 notFound
              [] [] eq_refl eq_refl) as (Hstep & Hy & _ & Hw).
  split; [exact Hstep|]. split; [exact Hy|]. apply Hw. reflexivity.
Defined.

(** Scenario 5: the remote end answers 404; nothing is yielded and the
    timestamp is scheduled for writing. *)
Example scenario_negative_result :
  let run := generateResults warmRequest 0 [] ∅ (λ _, None)
               (λ _ _, mkResponse 404 "Not Found" None) [(0%nat, 7000)]
               (readDatabase_ warmRequest emptyDatabase) 6000 in
  snapshots run = [] ∧ scheduledWrites run = [missingResult 7000] ∧
  missingTimestamp <$> scheduledWrites run = [Some (Some 7000)] ∧
  length (launched run) = 1%nat ∧ thrown run = None.
Proof. vm_compute. repeat split. Qed.

(** ** C6: coalescing with the slices of live peers *)

Definition avgSlice (owner index : nat) (lo hi : Z) : TimeseriesSlice :=
  {| sliceOwner := owner; sliceIndex := index;
     revisionRange := Range.Interval lo hi; sliceColumns := ColumnSet owner |}.

Definition timeseriesName : option string := Some "timeseries/suite/m/bot//".

(** The claim as stated fails: this request planned one slice for
    'revision', 'avg' and 'std' over [0, 100]; two peers of the same
    database each fetch 'revision' and 'avg', over [0, 100] and over
    [0, 200].  Both peer slices cover the planned slice and carry its
    column 'avg', but only the first is borrowed: once 'avg' is taken
    from the first, the planned slice (which stays planned, for 'std') has
    no column left in common with the second. *)
Lemma covering_peer_slice_not_borrowed :
  let planned := avgSlice 0 0 0 100 in
  let first := avgSlice 1 0 0 100 in
  let second := avgSlice 2 0 0 200 in
  let sets : Heap := {[ 0%nat := ["revision"; "avg"; "std"];
                        1%nat := ["revision"; "avg"];
                        2%nat := ["revision"; "avg"] ]} in
  let peers := [ {| peerDatabaseName_ := timeseriesName; peerSlices := [first] |};
                 {| peerDatabaseName_ := timeseriesName; peerSlices := [second] |} ] in
  Range.duration (revisionRange planned)
    ≤ Range.duration (Range.findIntersection (revisionRange planned)
                                            (revisionRange second)) ∧
  sharedWith (setContents sets 2) "avg" ∧ "avg" ∈ setContents sets 0 ∧
  ∃ st, findInProgressRequest timeseriesName peers
          {| heap := sets; slices := [planned]; matchingSlices := [] |}
        = Returns st ∧
        slices st = [planned] ∧
        setContents (heap st) 0 = ["revision"; "std"] ∧
        matchingSlices st = [first] ∧ (second ∉ matchingSlices st).
Proof.
  cbv zeta. split; [vm_compute; discriminate|].
  split; [split; [discriminate|apply elem_of_cons; right; apply list_elem_of_here]|].
  split; [apply elem_of_cons; right; apply list_elem_of_here|].
  eexists. split; [vm_compute; reflexivity|]. simpl.
  split; [reflexivity|]. split; [reflexivity|]. split; [reflexivity|].
  intros [H|H]%elem_of_cons; [discriminate|]. apply elem_of_nil in H. exact H.
Qed.

(** The slices that [getSlices_] plans for the columns left share one Set
    of columns.  Here the request has two slices, [0, 30] and [50, 100];
    a peer covers the first with 'avg'.  The column leaves the Set, the
    first slice is dropped, and the second slice stays planned with
    'revision' as its only column. *)
Example coalescing_empties_sibling_slice :
  let left := avgSlice 0 0 0 30 in
  let right := avgSlice 0 1 50 100 in
  let peer := avgSlice 1 0 0 30 in
  let sets : Heap := {[ 0%nat := ["revision"; "avg"];
                        1%nat := ["revision"; "avg"] ]} in
  ∃ st, findInProgressRequest timeseriesName
          [ {| peerDatabaseName_ := timeseriesName; peerSlices := [peer] |} ]
          {| heap := sets; slices := [left; right]; matchingSlices := [] |}
        = Returns st ∧
        slices st = [right] ∧
        columnsList (heap st) (sliceColumns right) = ["revision"].
Proof. cbv zeta. eexists. split; [vm_compute; reflexivity|]. split; reflexivity. Qed.

(** A peer slice that overlaps the planned slice without covering it is
    left alone: the planned slice over [50, 150] keeps its columns next to
    a peer slice over [0, 100]. *)
Example overlapping_peer_slice_not_borrowed :
  let planned := avgSlice 0 0 50 150 in
  let peer := avgSlice 1 0 0 100 in
  let start := {| heap := {[ 0%nat := ["revision"; "avg"];
                             1%nat := ["revision"; "avg"] ]};
                  slices := [planned]; matchingSlices := [] |} in
  findInProgressRequest timeseriesName
    [ {| peerDatabaseName_ := timeseriesName; peerSlices := [peer] |} ] start
  = Returns start.
Proof. vm_compute. reflexivity. Qed.

(** The columns of a histogram slice are an array, which has neither
    [has] nor [delete]: comparing with a covering histogram slice of a
    peer ends the pass with a TypeError. *)
Example coalescing_with_histogram_slice_throws :
  let planned := avgSlice 0 0 0 100 in
  let peer := {| sliceOwner := 1; sliceIndex := 0;
                 revisionRange := Range.Interval 0 100;
                 sliceColumns := ColumnArray ["revision"; "histogram"] |} in
  findInProgressRequest timeseriesName
    [ {| peerDatabaseName_ := timeseriesName; peerSlices := [peer] |} ]
    {| heap := {[ 0%nat := ["revision"; "avg"] ]}; slices := [planned];
       matchingSlices := [] |}
  = Throws "otherSlice.columns.has is not a function".
Proof. vm_compute. reflexivity. Qed.

(** C6, amended.  During coalescing, a live peer with another database
    name is left alone.  When a planned slice is compared with a slice of
    a live peer with the same database name (both holding a Set of
    columns) and the intersection of their revision ranges has at least
    the duration of the planned slice: every column other than
    'revision' that both
    slices carry at that moment is removed from the columns of the
    planned slice and the other columns stay; the peer slice is added to
    the borrowed set when there is such a column, and the borrowed set is
    unchanged when there is none; and when the columns of the planned
    slice are then a single one, the planned slice is removed from the
    slice set, otherwise the slice set is unchanged. *)
Theorem coalescing_comparison slice otherSlice own other st :
  (∀ name peer, peerDatabaseName_ peer ≠ name →
     coalesceWith name st peer = Returns st) ∧
  (sliceColumns slice = ColumnSet own →
  sliceColumns otherSlice = ColumnSet other →
  own ≠ other →
  Range.duration (revisionRange slice)
    ≤ Range.duration (Range.findIntersection (revisionRange slice)
                                            (revisionRange otherSlice)) →
  let mine := setContents (heap st) own in
  let theirs := setContents (heap st) other in
  ∃ st', compareSlices slice st otherSlice = Returns st' ∧
    setContents (heap st') own = filter (λ col, ¬ sharedWith theirs col) mine ∧
    setContents (heap st') other = theirs ∧
    (Exists (sharedWith theirs) mine → otherSlice ∈ matchingSlices st') ∧
    (¬ Exists (sharedWith theirs) mine →
     matchingSlices st' = matchingSlices st) ∧
    (length (setContents (heap st') own) = 1%nat →
     slices st' = sliceSetDelete slice (slices st) ∧ slice ∉ slices st') ∧
    (length (setContents (heap st') own) ≠ 1%nat → slices st' = slices st)).
Proof.
  split.
  { intros name peer Hname. unfold coalesceWith.
    destruct (decide _); [reflexivity|contradiction]. }
  intros Hown Hother Hne Hcover mine theirs.
  unfold compareSlices. cbv zeta.
  destruct (decide _) as [Hshort|_]; [lia|].
  rewrite Hown. simpl columnsList. fold mine.
  destruct (dropSharedColumns_result slice otherSlice own other Hown Hother Hne
              mine st) as (st1 & Hrun & Hmine & Hothers & Hsl & Hm).
  cbv zeta in Hmine, Hm. fold theirs mine in Hmine, Hm.
  rewrite Hrun, bind_Returns.
  assert (Hfilter : setContents (heap st1) own
                    = filter (λ col, ¬ sharedWith theirs col) mine).
  { rewrite Hmine. apply filter_ext_elem. intros x Hx. tauto. }
  assert (Htheirs : setContents (heap st1) other = theirs).
  { unfold setContents. rewrite Hothers by congruence. reflexivity. }
  assert (Hborrow : Exists (sharedWith theirs) mine →
                    otherSlice ∈ matchingSlices st1).
  { intros He. rewrite Hm. destruct (decide _); [|contradiction].
    apply sliceSetAdd_elem. }
  assert (Hsame : ¬ Exists (sharedWith theirs) mine →
                  matchingSlices st1 = matchingSlices st).
  { intros He. rewrite Hm. destruct (decide _); [contradiction|reflexivity]. }
  simpl columnsSizeIsOne.
  destruct (bool_decide_reflect (length (setContents (heap st1) own) = 1%nat))
    as [Hone|Hmore].
  - eexists. split; [reflexivity|]. simpl.
    repeat split; try assumption.
    + rewrite Hsl. reflexivity.
    + rewrite Hsl. unfold sliceSetDelete.
      intros [Hn _]%list_elem_of_filter. contradiction.
    + intros Hn. contradiction.
  - exists st1. split; [reflexivity|].
    repeat split; try assumption; intros; (contradiction || assumption).
Qed.

Lemma coalescing_comparison_witness :
  let planned := avgSlice 0 0 0 100 in
  let peer := avgSlice 1 0 0 200 in
  let st := {| heap := {[ 0%nat := ["revision"; "avg"; "std"];
                          1%nat := ["revision"; "avg"] ]};
               slices := [planned]; matchingSlices := [] |} in
  ∃ st', compareSlices planned st peer = Returns st' ∧
         setContents (heap st') 0 = ["revision"; "std"] ∧
         peer ∈ matchingSlices st' ∧ slices st' = [planned].
Proof.
  cbv zeta.
  destruct (coalescing_comparison (avgSlice 0 0 0 100) (avgSlice 1 0 0 200)
              0%nat 1%nat
              {| heap := {[ 0%nat := ["revision"; "avg"; "std"];
                            1%nat := ["revision"; "avg"] ]};
                 slices := [avgSlice 0 0 0 100]; matchingSlices := [] |})
    as [_ Hcompare].
  destruct (Hcompare eq_refl eq_refl ltac:(discriminate)
              ltac:(vm_compute; discriminate))
    as (st' & Hrun & Hmine & _ & Hborrow & _ & _ & Hkeep).
  exists st'. split; [exact Hrun|].
  split; [rewrite Hmine; vm_compute; reflexivity|].
  split.
  - apply Hborrow. apply Exists_cons. right. apply Exists_cons. left.
    split; [discriminate|]. vm_compute.
    apply elem_of_cons. right. apply list_elem_of_here.
  - apply Hkeep. rewrite Hmine. vm_compute. discriminate.
Defined.

(** ** C8: no availability for alerts *)

(** A column without stored ranges is not available. *)
Lemma getAvailableRangeByCol_None req rangesByCol col :
  (∀ entry, entry ∈ rangesByCol → entry.1 = col → entry.2 = None) →
  getAvailableRangeByCol_ req rangesByCol !! col = None.
Proof.
  unfold getAvailableRangeByCol_.
  assert (H : ∀ acc : gmap string Range.t, acc !! col = None →
    (∀ entry, entry ∈ rangesByCol → entry.1 = col → entry.2 = None) →
    foldl (λ availableRangeByCol entry,
             match entry.2 with
             | None => availableRangeByCol
             | Some rangeDicts =>
                 match firstIntersection req rangeDicts with
                 | Some intersection =>
                     <[entry.1 := intersection]> availableRangeByCol
                 | None => availableRangeByCol
                 end
             end) acc rangesByCol !! col = None).
  { induction rangesByCol as [|[c ds] rest IH]; intros acc Hacc Hall; simpl;
      [assumption|].
    apply IH.
    - destruct ds as [ds|]; [|assumption].
      destruct (firstIntersection req ds); [|assumption].
      rewrite lookup_insert_ne; [assumption|].
      intros ->. specialize (Hall (col, Some ds) (list_elem_of_here _ _) eq_refl).
      discriminate.
    - intros entry Hin. apply Hall. apply elem_of_cons. tauto. }
  apply H. apply lookup_empty.
Qed.

(** C8.  The cache writer writes no availability range for the column
    'alert', nor for 'revision': [writeRanges_] leaves both keys of the
    range store as they are, so in every reachable state of the database
    the stored availability map has no entry for 'alert' (nor for
    'revision'), and no request reads an available range for 'alert'. *)
Theorem alert_never_stored_available
    (mergeCovered : option Z → option Z → list Range.dict → list Range.dict) :
  (∀ req rows store,
     writeRanges_ mergeCovered req rows store !! "alert" = store !! "alert" ∧
     writeRanges_ mergeCovered req rows store !! "revision"
       = store !! "revision") ∧
  (∀ db, reachable mergeCovered db →
     rangeStore db !! "alert" = None ∧ rangeStore db !! "revision" = None ∧
     ∀ req, plannerAvailable (readDatabase_ req db) !! "alert" = None).
Proof.
  split.
  - intros req rows store. split; apply writeRanges_lookup; tauto.
  - intros db Hdb.
    destruct (reachable_rangeStore mergeCovered db Hdb) as [Ha Hr].
    split; [exact Ha|]. split; [exact Hr|]. intros req.
    rewrite plannerAvailable_readDatabase.
    apply getAvailableRangeByCol_None.
    intros entry [c [-> _]]%list_elem_of_fmap Hc. simpl in *. subst c.
    exact Ha.
Qed.

Definition alertRequest : Request :=
  {| body_ := [("columns", "revision,avg,alert"); ("max_revision", "100")];
     columns_ := ["revision"; "avg"; "alert"];
     revisionRange_ := Range.Interval 0 100;
     testSuite_ := ""; measurement_ := ""; bot_ := ""; statistic_ := "avg";
     testCase_ := ""; buildType_ := "" |}.

Definition alertPayload : ResultObj :=
  setData (Some [ {["revision" := 50; "avg" := 7; "alert" := 1]};
                  {["revision" := 100; "avg" := 8]} ])
          (setColumns (Some ["revision"; "avg"; "alert"]) emptyResult).

Lemma alert_never_stored_available_witness :
  let db := writeDatabase mergeCoveredSpec alertRequest 2000 alertPayload
              emptyDatabase in
  rangeStore db !! "avg" = Some [Range.DictMinMax 0 100] ∧
  rangeStore db !! "alert" = None ∧ rangeStore db !! "revision" = None.
Proof.
  cbv zeta. split; [vm_compute; reflexivity|].
  destruct (alert_never_stored_available mergeCoveredSpec) as [_ Hreach].
  destruct (Hreach (writeDatabase mergeCoveredSpec alertRequest 2000
                      alertPayload emptyDatabase)) as (Ha & Hr & _).
  - apply reachable_written. apply reachable_created.
  - split; assumption.
Defined.

(** ** C9: merged rows stay sorted by revision *)

(** What the cache reader returns from a store keyed by revision is a
    sorted snapshot. *)
Lemma readDatabase_sorted req db :
  keyedByRevision (dataStore db) → sortedSnapshot (readDatabase_ req db).
Proof.
  intros Hkeyed rows. unfold readDatabase_. cbv zeta.
  destruct (decide _); simpl; [discriminate|].
  intros [= <-]. apply getDataPoints_sorted. exact Hkeyed.
Qed.

(** C9.  [mergeObjectArrays(key, target, ...inputs)] keeps [target]
    strictly ascending by the key field: for every target that is
    strictly sorted by key and every list of arrays of rows (rows being
    objects that carry the key), the target after the call is strictly
    sorted by key.  So every snapshot that the generator emits, from the
    rows read from the database and the rows of the responses, has its
    data strictly sorted by 'revision'. *)
Theorem mergeObjectArrays_keeps_sorted :
  (∀ key (target : list Row) (inputs : list (list Row)),
     strictlySortedBy key target →
     Forall (Forall (hasKey key)) inputs →
     strictlySortedBy key (mergeObjectArrays key target inputs)) ∧
  (∀ mergeCovered db req self peers peerSets memo network completion now,
     reachable mergeCovered db →
     Forall sortedSnapshot
       (snapshots (generateResults req self peers peerSets memo network
                     completion (readDatabase_ req db) now))).
Proof.
  split.
  - intros key target inputs. apply mergeObjectArrays_sorted.
  - intros mergeCovered db req self peers peerSets memo network completion
      now Hdb.
    apply generateResults_sorted, readDatabase_sorted.
    eapply reachable_keyedByRevision. exact Hdb.
Qed.

Lemma mergeObjectArrays_keeps_sorted_witness :
  strictlySortedBy "revision"
    (mergeObjectArrays "revision"
       [ {["revision" := 10; "avg" := 1]}; {["revision" := 30; "avg" := 3]} ]
       [ [ {["revision" := 40; "avg" := 4]}; {["revision" := 20; "avg" := 2]} ];
         [ {["revision" := 30; "std" := 9]} ] ]) ∧
  Forall sortedSnapshot
    (snapshots
       (generateResults warmRequest 0 [] ∅ (λ _, None)
          (λ _ _, mkResponse 200 "OK" (Some [[70; 5]; [20; 6]]))
          [(0%nat, 7000)]
          (readDatabase_ warmRequest
             (writeDatabase mergeCoveredSpec alertRequest 2000 alertPayload
                emptyDatabase))
          6000)).
Proof.
  destruct mergeObjectArrays_keeps_sorted as [Hmerge Hrun]. split.
  - apply Hmerge.
    + exists [10; 30]. split; [vm_compute; reflexivity|].
      repeat constructor.
    + repeat constructor; unfold hasKey; vm_compute; eauto.
  - apply (Hrun mergeCoveredSpec).
    apply reachable_written. apply reachable_created.
Defined.

(** * Further properties of the code *)

(** ** The bisection on arbitrary arrays *)

Section BisectAny.
Context {A : Type}.
Variable ary : list A.
Variable getKey : A → option Z.
Variable loVal : option Z.

Lemma findLow_loop_any_step low high hitPos :
  findLow_loop ary getKey loVal low high hitPos =
    if decide (low ≤ high) then
      let i := (low + high) `div` 2 in
      let comparison := comparisonAt ary getKey loVal i in
      if jsNeg comparison then findLow_loop ary getKey loVal (i + 1) high hitPos
      else if jsPos comparison
           then findLow_loop ary getKey loVal low (i - 1) hitPos
           else findLow_loop ary getKey loVal low (i - 1) i
    else if decide (hitPos ≠ -1) then hitPos else low.
Proof.
  rewrite findLow_loop_equation_1.
  destruct (decide (low ≤ high)); reflexivity.
Qed.

(** Whatever the keys are (unsorted, undefined), the loop answers a
    position of the array or its length. *)
Lemma findLow_loop_in_bounds (n : nat) : ∀ low high hitPos,
  Z.to_nat (high - low + 1) = n →
  0 ≤ low → high < Z.of_nat (length ary) → low ≤ high + 1 →
  (hitPos = -1 ∨ 0 ≤ hitPos < Z.of_nat (length ary)) →
  0 ≤ findLow_loop ary getKey loVal low high hitPos ≤ Z.of_nat (length ary).
Proof.
  induction n as [n IH] using lt_wf_ind.
  intros low high hitPos Hn H0 Hhi Hlh Hhit.
  rewrite findLow_loop_any_step.
  destruct (decide (low ≤ high)) as [Hle|Hgt].
  - set (i := (low + high) `div` 2).
    assert (Hi : low ≤ i ≤ high)
      by (subst i; split;
          [apply Z.div_le_lower_bound | apply Z.div_le_upper_bound]; lia).
    cbv zeta. fold i.
    destruct (jsNeg _); [|destruct (jsPos _)].
    + apply (IH (Z.to_nat (high - (i + 1) + 1)) ltac:(lia)); try lia.
    + apply (IH (Z.to_nat (i - 1 - low + 1)) ltac:(lia)); try lia.
    + apply (IH (Z.to_nat (i - 1 - low + 1)) ltac:(lia)); try lia.
  - destruct (decide (hitPos ≠ -1)); lia.
Qed.
End BisectAny.

(** X1.  On a non-empty array [findLowIndexInSortedArray] answers an
    index between 0 and the length of the array, whatever the keys are:
    unsorted keys or keys that are not numbers can make the answer wrong,
    never out of range. *)
Theorem findLowIndexInSortedArray_in_bounds (A : Type) (ary : list A)
    (getKey : A → option Z) (loVal : option Z) :
  ary ≠ [] →
  0 ≤ findLowIndexInSortedArray ary getKey loVal ≤ Z.of_nat (length ary).
Proof.
  intros Hne. unfold findLowIndexInSortedArray.
  destruct (decide (length ary = 0%nat)) as [Hz|Hnz].
  { destruct ary; [congruence|discriminate]. }
  apply (findLow_loop_in_bounds ary getKey loVal _ 0
           (Z.of_nat (length ary) - 1) (-1) eq_refl); lia.
Qed.

Lemma findLowIndexInSortedArray_in_bounds_witness :
  0 ≤ findLowIndexInSortedArray [30; 10; 20] (λ x : Z, if decide (x = 10) then None else Some x)
        (Some 15) ≤ 3.
Proof.
  apply (findLowIndexInSortedArray_in_bounds Z [30; 10; 20]
           (λ x : Z, if decide (x = 10) then None else Some x) (Some 15)).
  discriminate.
Defined.

(** X2.  On an array sorted by key (equal keys allowed) in which [lo]
    occurs, [findLowIndexInSortedArray] answers the first position that
    holds the key [lo]. *)
Theorem findLowIndexInSortedArray_first_hit (A : Type) (ary : list A)
    (getKey : A → option Z) (lo : Z) (ks : list Z) (i : nat) :
  getKey <$> ary = Some <$> ks →
  (∀ (i j : nat) x y,
     (i ≤ j)%nat → ks !! i = Some x → ks !! j = Some y → x ≤ y) →
  ks !! i = Some lo →
  let r := findLowIndexInSortedArray ary getKey (Some lo) in
  0 ≤ r ≤ Z.of_nat i ∧ ks !! Z.to_nat r = Some lo ∧
  ∀ (j : nat) x, ks !! j = Some x → Z.of_nat j < r → x < lo.
Proof.
  intros Hkeys Hsorted Hi r.
  assert (Hne : ary ≠ []).
  { intros ->. destruct ks; [rewrite lookup_nil in Hi|]; discriminate. }
  destruct (findLowIndexInSortedArray_splits ary getKey lo ks Hkeys Hsorted Hne)
    as (Hr & Hbelow & Habove). fold r in Hr, Hbelow, Habove.
  assert (Hri : r ≤ Z.of_nat i).
  { destruct (decide (r ≤ Z.of_nat i)); [assumption|].
    pose proof (Hbelow i lo Hi ltac:(lia)). lia. }
  split; [lia|]. split; [|exact Hbelow].
  pose proof (lookup_lt_Some _ _ _ Hi) as Hlen.
  destruct (lookup_lt_is_Some_2 ks (Z.to_nat r) ltac:(lia)) as [x Hx].
  rewrite Hx. f_equal.
  pose proof (Habove (Z.to_nat r) x Hx ltac:(lia)).
  pose proof (Hsorted (Z.to_nat r) i x lo ltac:(lia) Hx Hi). lia.
Qed.

Lemma findLowIndexInSortedArray_first_hit_witness :
  findLowIndexInSortedArray [10; 20; 20; 20; 30] Some (Some 20) = 1.
Proof.
  destruct (findLowIndexInSortedArray_first_hit Z [10; 20; 20; 20; 30] Some 20
              [10; 20; 20; 20; 30] 3 eq_refl) as (Hr & Hkey & Hbelow).
  - intros i j x y Hij Hx Hy.
    do 5 (destruct i as [|i]; [do 5 (destruct j as [|j];
            [simpl in *; try lia; simplify_eq; lia|]); simpl in Hy; discriminate|]).
    simpl in Hx. discriminate.
  - reflexivity.
  - reflexivity.
Defined.

(** ** What a merge does to the rows *)

Lemma elem_of_list_insert_inv {A} (l : list A) (i : nat) (x y : A) :
  y ∈ <[i := x]> l → y = x ∨ y ∈ l.
Proof.
  intros [j Hj]%list_elem_of_lookup.
  destruct (decide (i = j)) as [->|Hne].
  - destruct (decide (j < length l)%nat) as [Hlt|Hge].
    + rewrite list_lookup_insert_eq in Hj by assumption. left. congruence.
    + rewrite list_insert_ge in Hj by lia. right.
      eapply list_elem_of_lookup_2; eauto.
  - rewrite list_lookup_insert_ne in Hj by assumption. right.
    eapply list_elem_of_lookup_2; eauto.
Qed.

Lemma elem_of_spliceIn {A} (i : nat) (x y : A) (l : list A) :
  y ∈ spliceIn i x l ↔ y = x ∨ y ∈ l.
Proof.
  unfold spliceIn. rewrite elem_of_app, elem_of_cons.
  rewrite <- (take_drop i l) at 3. rewrite elem_of_app. tauto.
Qed.

(** The two ways of [mergeObject], on any target: the row is appended or
    spliced in, or its fields are assigned to the entry found.  (The entry
    read at the answer of the bisection always exists.) *)
Lemma mergeObject_ways (key : string) (merged : list Row) (obj : Row) :
  (∃ i, mergeObject key merged obj = spliceIn i obj merged) ∨
  (∃ i entry, merged !! i = Some entry ∧ entry !! key = obj !! key ∧
     mergeObject key merged obj = <[i := objectAssign entry obj]> merged).
Proof.
  unfold mergeObject. cbv zeta.
  set (index := findLowIndexInSortedArray merged _ _).
  destruct (decide (Z.of_nat (length merged) ≤ index)) as [Hge|Hlt].
  { left. exists (length merged). unfold spliceIn.
    rewrite take_ge, drop_ge by lia. reflexivity. }
  destruct (merged !! Z.to_nat index) as [entry|] eqn:Hentry.
  - destruct (decide (entry !! key = obj !! key)) as [Heq|Hneq].
    + right. eauto.
    + left. eauto.
  - exfalso. apply lookup_ge_None in Hentry.
    destruct merged as [|row rows];
      [apply Hlt; subst index; unfold findLowIndexInSortedArray;
       destruct (decide _); [simpl; lia|contradiction]|].
    simpl in Hentry, Hlt. lia.
Qed.

(** [r'] is the row [r] after merges: the same key, and every property
    of [r] still there (its value may be newer, and may be [undefined]
    when a later row holds [undefined] under that name). *)
Definition extendsRow (key : string) (r r' : Row) : Prop :=
  r' !! key = r !! key ∧ ∀ field, hasOwn r field → hasOwn r' field.

Lemma extendsRow_refl key r : extendsRow key r r.
Proof. split; [reflexivity|auto]. Qed.

Lemma extendsRow_trans key r1 r2 r3 :
  extendsRow key r1 r2 → extendsRow key r2 r3 → extendsRow key r1 r3.
Proof. intros [H1 H1'] [H2 H2']. split; [congruence|auto]. Qed.

Lemma objectAssign_key key (entry obj : Row) :
  entry !! key = obj !! key → objectAssign entry obj !! key = obj !! key.
Proof.
  intros Hkey. unfold objectAssign. rewrite Row_lookup_union.
  destruct (props obj !! key) as [value|] eqn:Hobj.
  - rewrite Row_lookup_unfold, Hobj. reflexivity.
  - exact Hkey.
Qed.

Lemma objectAssign_extends_entry key (entry obj : Row) :
  entry !! key = obj !! key → extendsRow key entry (objectAssign entry obj).
Proof.
  intros Hkey. split.
  - rewrite objectAssign_key by assumption. congruence.
  - intros field Hfield. apply Row_hasOwn_union. tauto.
Qed.

Lemma objectAssign_extends_obj key (entry obj : Row) :
  entry !! key = obj !! key → extendsRow key obj (objectAssign entry obj).
Proof.
  intros Hkey. split.
  - apply objectAssign_key. exact Hkey.
  - intros field Hfield. apply Row_hasOwn_union. tauto.
Qed.

Section MergeAny.
Variable key : string.

Lemma mergeObject_length (merged : list Row) (obj : Row) :
  (length merged ≤ length (mergeObject key merged obj) ≤ S (length merged))%nat.
Proof.
  destruct (mergeObject_ways key merged obj) as [[i ->]|(i & e & _ & _ & ->)].
  - unfold spliceIn. rewrite length_app. simpl.
    rewrite length_take, length_drop. lia.
  - rewrite length_insert. lia.
Qed.

Lemma mergeObject_keeps (merged : list Row) (obj r : Row) :
  r ∈ merged → ∃ r', r' ∈ mergeObject key merged obj ∧ extendsRow key r r'.
Proof.
  intros Hr.
  destruct (mergeObject_ways key merged obj)
    as [[i ->]|(i & entry & Hentry & Hkey & ->)].
  - exists r. split; [apply elem_of_spliceIn; tauto|apply extendsRow_refl].
  - apply list_elem_of_lookup in Hr as [j Hj].
    destruct (decide (i = j)) as [->|Hne].
    + assert (r = entry) by congruence. subst r.
      exists (objectAssign entry obj). split.
      * apply list_elem_of_insert. eapply lookup_lt_Some; eauto.
      * apply objectAssign_extends_entry. exact Hkey.
    + exists r. split; [|apply extendsRow_refl].
      apply list_elem_of_lookup. exists j.
      rewrite list_lookup_insert_ne by assumption. exact Hj.
Qed.

Lemma mergeObject_holds_obj (merged : list Row) (obj : Row) :
  ∃ r', r' ∈ mergeObject key merged obj ∧ extendsRow key obj r'.
Proof.
  destruct (mergeObject_ways key merged obj)
    as [[i ->]|(i & entry & Hentry & Hkey & ->)].
  - exists obj. split; [apply elem_of_spliceIn; tauto|apply extendsRow_refl].
  - exists (objectAssign entry obj). split.
    + apply list_elem_of_insert. eapply lookup_lt_Some; eauto.
    + apply objectAssign_extends_obj. exact Hkey.
Qed.

Lemma mergeObjects_grow (objects : list Row) : ∀ merged : list Row,
  let result := foldl (mergeObject key) merged objects in
  (length merged ≤ length result ≤ length merged + length objects)%nat ∧
  (∀ r, r ∈ merged → ∃ r', r' ∈ result ∧ extendsRow key r r') ∧
  (∀ obj, obj ∈ objects → ∃ r', r' ∈ result ∧ extendsRow key obj r').
Proof.
  induction objects as [|obj objects IH]; intros merged; cbv zeta; simpl.
  - split; [lia|]. split.
    + intros r Hr. exists r. split; [assumption|apply extendsRow_refl].
    + intros obj Hobj. apply elem_of_nil in Hobj. contradiction.
  - destruct (IH (mergeObject key merged obj)) as (Hlen & Hkeep & Hobjs).
    cbv zeta in Hlen, Hkeep, Hobjs.
    pose proof (mergeObject_length merged obj) as Hstep.
    split; [lia|]. split.
    + intros r Hr.
      destruct (mergeObject_keeps merged obj r Hr) as (r1 & Hr1 & He1).
      destruct (Hkeep r1 Hr1) as (r2 & Hr2 & He2).
      exists r2. split; [assumption|]. eapply extendsRow_trans; eauto.
    + intros o [->|Ho]%elem_of_cons; [|auto].
      destruct (mergeObject_holds_obj merged obj) as (r1 & Hr1 & He1).
      destruct (Hkeep r1 Hr1) as (r2 & Hr2 & He2).
      exists r2. split; [assumption|]. eapply extendsRow_trans; eauto.
Qed.
End MergeAny.

(** X3.  [mergeObjectArrays] never removes a row or a property, whatever
    the target and the inputs are (sorted or not): the target grows by at
    most one row per input row, every row of the target and every input
    row is found in the result under its key with all its own property
    names (the value under a name may then be [undefined]). *)
Theorem mergeObjectArrays_never_removes (key : string) (arrays : list (list Row)) :
  ∀ target : list Row,
  let result := mergeObjectArrays key target arrays in
  (length target ≤ length result ≤ length target + length (concat arrays))%nat ∧
  (∀ r, r ∈ target → ∃ r', r' ∈ result ∧ extendsRow key r r') ∧
  (∀ objects obj, objects ∈ arrays → obj ∈ objects →
     ∃ r', r' ∈ result ∧ extendsRow key obj r').
Proof.
  unfold mergeObjectArrays.
  induction arrays as [|objects arrays IH]; intros target; cbv zeta; simpl.
  - split; [lia|]. split.
    + intros r Hr. exists r. split; [assumption|apply extendsRow_refl].
    + intros objects obj Hin. apply elem_of_nil in Hin. contradiction.
  - destruct (mergeObjects_grow key objects target) as (Hlen1 & Hkeep1 & Hobj1).
    destruct (IH (foldl (mergeObject key) target objects))
      as (Hlen & Hkeep & Hobjs).
    cbv zeta in *. rewrite length_app.
    split; [lia|]. split.
    + intros r Hr. destruct (Hkeep1 r Hr) as (r1 & Hr1 & He1).
      destruct (Hkeep r1 Hr1) as (r2 & Hr2 & He2).
      exists r2. split; [assumption|]. eapply extendsRow_trans; eauto.
    + intros objs obj [->|Hin]%elem_of_cons Hobj; [|eauto].
      destruct (Hobj1 obj Hobj) as (r1 & Hr1 & He1).
      destruct (Hkeep r1 Hr1) as (r2 & Hr2 & He2).
      exists r2. split; [assumption|]. eapply extendsRow_trans; eauto.
Qed.

(** A row of the response that is shorter than the list of column names
    has the missing column as a property that holds [undefined]; merged
    over a row with that revision, it erases the value that was there. *)
Example mergeObjectArrays_short_row :
  let merged :=
    mergeObjectArrays "revision" [ {["revision" := 100; "avg" := 8]} ]
      [ normalize [[100]] ["revision"; "avg"] ] in
  ∃ r, merged = [r] ∧ r !! "revision" = Some 100 ∧
       hasOwn r "avg" ∧ r !! "avg" = None.
Proof.
  cbv zeta. eexists. split; [vm_compute; reflexivity|].
  split; [reflexivity|]. split; [vm_compute; eauto|reflexivity].
Qed.

(** ** A merge into a sorted target, row by row *)

Section MergeRows.
Variable key : string.

Definition keyBelow (k : Z) (r : Row) : Prop := ∃ x, r !! key = Some x ∧ x < k.
Definition keyAbove (k : Z) (r : Row) : Prop := ∃ x, r !! key = Some x ∧ k < x.

(** One step on a sorted target: the rows below the key, the row with
    the key when there is one (it receives the fields), the rows above. *)
Lemma mergeObject_cases (merged : list Row) (obj : Row) (k : Z) :
  strictlySortedBy key merged → obj !! key = Some k →
  ∃ l1 l2, Forall (keyBelow k) l1 ∧ Forall (keyAbove k) l2 ∧
    ((merged = l1 ++ l2 ∧ mergeObject key merged obj = l1 ++ obj :: l2) ∨
     (∃ entry, entry !! key = Some k ∧ merged = l1 ++ entry :: l2 ∧
        mergeObject key merged obj = l1 ++ objectAssign entry obj :: l2)).
Proof.
  intros (ks & Hk & Hs) Hobj. unfold mergeObject. rewrite Hobj.
  destruct (decide (merged = [])) as [->|Hne].
  { exists [], []. split; [constructor|]. split; [constructor|].
    left. split; reflexivity. }
  pose proof (findLowIndexInSortedArray_splits merged (λ e : Row, e !! key)
                k ks Hk (StronglySorted_lt_le_lookup ks Hs) Hne)
    as (Hr & Hbelow & Habove).
  set (r := findLowIndexInSortedArray merged _ (Some k)) in *.
  assert (Hlen : length ks = length merged)
    by (pose proof (f_equal length Hk) as H; rewrite !length_fmap in H; lia).
  assert (Htake : Forall (keyBelow k) (take (Z.to_nat r) merged)).
  { apply Forall_forall. intros e He.
    apply list_elem_of_lookup in He as [i Hi].
    pose proof (lookup_lt_Some _ _ _ Hi) as Hil. rewrite length_take in Hil.
    rewrite lookup_take_lt in Hi by lia.
    destruct (keys_lookup key merged ks i e Hk Hi) as (x & Hx & Hex).
    exists x. split; [assumption|]. apply (Hbelow i x Hx). lia. }
  destruct (decide (Z.of_nat (length merged) ≤ r)) as [Hge|Hlt].
  - exists merged, []. rewrite take_ge in Htake by lia.
    split; [assumption|]. split; [constructor|]. left.
    rewrite app_nil_r. split; reflexivity.
  - assert (Hidx : (Z.to_nat r < length merged)%nat) by lia.
    destruct (lookup_lt_is_Some_2 merged _ Hidx) as [entry Hentry].
    rewrite Hentry.
    destruct (keys_lookup key merged ks _ entry Hk Hentry) as (x & Hx & Hex).
    rewrite Hex.
    assert (Hkx : k ≤ x) by (apply (Habove _ _ Hx); lia).
    assert (Hafter : ∀ (j : nat) e, (Z.to_nat r < j)%nat →
              merged !! j = Some e → ∃ y, e !! key = Some y ∧ x < y).
    { intros j e Hj He.
      destruct (keys_lookup key merged ks j e Hk He) as (y & Hy & Hey).
      exists y. split; [assumption|].
      eapply (StronglySorted_lookup_lt Z.lt ks Hs (Z.to_nat r) j); eauto. }
    destruct (decide (Some x = Some k)) as [Heq|Hneq].
    + injection Heq as ->.
      exists (take (Z.to_nat r) merged), (drop (S (Z.to_nat r)) merged).
      split; [assumption|]. split.
      * apply Forall_forall. intros e He.
        apply list_elem_of_lookup in He as [j Hj]. rewrite lookup_drop in Hj.
        apply (Hafter (S (Z.to_nat r) + j)%nat e ltac:(lia) Hj).
      * right. exists entry. split; [assumption|]. split.
        -- symmetry. apply take_drop_middle. exact Hentry.
        -- apply insert_take_drop. exact Hidx.
    + assert (k < x) by (assert (x ≠ k) by congruence; lia).
      exists (take (Z.to_nat r) merged), (drop (Z.to_nat r) merged).
      split; [assumption|]. split.
      * apply Forall_forall. intros e He.
        apply list_elem_of_lookup in He as [j Hj]. rewrite lookup_drop in Hj.
        destruct (decide (j = 0%nat)) as [->|Hj0].
        -- rewrite Nat.add_0_r, Hentry in Hj. injection Hj as <-.
           exists x. split; assumption.
        -- destruct (Hafter (Z.to_nat r + j)%nat e ltac:(lia) Hj)
             as (y & Hy & Hxy).
           exists y. split; [assumption|lia].
      * left. split; [|reflexivity]. symmetry. apply take_drop.
Qed.
End MergeRows.

(** The rows of [l] whose key is [k]. *)
Definition rowsWithKey (key : string) (k : Z) (l : list Row) : list Row :=
  filter (λ r : Row, r !! key = Some k) l.

Lemma mergeObjectArrays_concat (key : string) (arrays : list (list Row)) :
  ∀ merged, mergeObjectArrays key merged arrays
            = foldl (mergeObject key) merged (concat arrays).
Proof.
  unfold mergeObjectArrays.
  induction arrays as [|objects arrays IH]; intros merged; simpl.
  - reflexivity.
  - rewrite foldl_app. apply IH.
Qed.

Section LastWriteWins.
Variable key : string.

Lemma rowsWithKey_app k (l1 l2 : list Row) :
  rowsWithKey key k (l1 ++ l2) = rowsWithKey key k l1 ++ rowsWithKey key k l2.
Proof. apply filter_app. Qed.

Lemma rowsWithKey_cons_eq k (r : Row) (l : list Row) :
  r !! key = Some k → rowsWithKey key k (r :: l) = r :: rowsWithKey key k l.
Proof. intros Hr. unfold rowsWithKey. rewrite filter_cons_True; auto. Qed.

Lemma rowsWithKey_cons_ne k (r : Row) (l : list Row) :
  r !! key ≠ Some k → rowsWithKey key k (r :: l) = rowsWithKey key k l.
Proof. intros Hr. unfold rowsWithKey. rewrite filter_cons_False; auto. Qed.

Lemma rowsWithKey_below k k' (l : list Row) :
  k ≤ k' → Forall (keyBelow key k) l → rowsWithKey key k' l = [].
Proof.
  intros Hk. induction 1 as [|r l (x & Hx & Hlt) _ IH]; [reflexivity|].
  rewrite rowsWithKey_cons_ne; [exact IH|]. rewrite Hx. intros [= ->]. lia.
Qed.

Lemma rowsWithKey_above k k' (l : list Row) :
  k' ≤ k → Forall (keyAbove key k) l → rowsWithKey key k' l = [].
Proof.
  intros Hk. induction 1 as [|r l (x & Hx & Hlt) _ IH]; [reflexivity|].
  rewrite rowsWithKey_cons_ne; [exact IH|]. rewrite Hx. intros [= ->]. lia.
Qed.

(** One step, seen key by key. *)
Lemma rowsWithKey_mergeObject (merged : list Row) (obj : Row) (k k' : Z) :
  strictlySortedBy key merged → obj !! key = Some k →
  rowsWithKey key k' (mergeObject key merged obj)
  = if decide (k' = k) then [⋃ (obj :: rowsWithKey key k merged)]
    else rowsWithKey key k' merged.
Proof.
  intros Hs Hobj.
  destruct (mergeObject_cases key merged obj k Hs Hobj)
    as (l1 & l2 & Hl1 & Hl2 & [[-> ->]|(entry & He & -> & ->)]).
  - rewrite !rowsWithKey_app.
    destruct (decide (k' = k)) as [->|Hne].
    + rewrite rowsWithKey_cons_eq by assumption.
      rewrite (rowsWithKey_below k k l1), (rowsWithKey_above k k l2)
        by (assumption || lia).
      simpl. rewrite (right_id_L ∅ (∪)). reflexivity.
    + rewrite rowsWithKey_cons_ne by congruence. reflexivity.
  - assert (Hnew : objectAssign entry obj !! key = Some k)
      by (unfold objectAssign; apply Row_lookup_union_Some_l; assumption).
    rewrite !rowsWithKey_app.
    destruct (decide (k' = k)) as [->|Hne].
    + rewrite !rowsWithKey_cons_eq by assumption.
      rewrite (rowsWithKey_below k k l1), (rowsWithKey_above k k l2)
        by (assumption || lia).
      simpl. rewrite (right_id_L ∅ (∪)). reflexivity.
    + rewrite !rowsWithKey_cons_ne by congruence. reflexivity.
Qed.

(** A sorted array has at most one row per key. *)
Lemma rowsWithKey_sorted (merged : list Row) (k : Z) :
  strictlySortedBy key merged →
  rowsWithKey key k merged = [] ∨ ∃ entry, rowsWithKey key k merged = [entry].
Proof.
  intros Hs.
  destruct (mergeObject_cases key merged {[key := k]} k Hs
              (Row_lookup_singleton _ _))
    as (l1 & l2 & Hl1 & Hl2 & [[-> _]|(entry & He & -> & _)]);
    rewrite rowsWithKey_app.
  - left. rewrite (rowsWithKey_below k k l1), (rowsWithKey_above k k l2)
      by (assumption || lia). reflexivity.
  - right. exists entry. rewrite rowsWithKey_cons_eq by assumption.
    rewrite (rowsWithKey_below k k l1), (rowsWithKey_above k k l2)
      by (assumption || lia). reflexivity.
Qed.

(** The row a key ends up with: nothing when no row has the key, else
    the union of the rows, the first one that has a property winning it
    (also when it holds [undefined]). *)
Definition unionOfRows (rows : list Row) : list Row :=
  match rows with [] => [] | _ => [⋃ rows] end.

Lemma union_rows_app (l1 l2 : list Row) : ⋃ (l1 ++ l2) = ⋃ l1 ∪ ⋃ l2.
Proof.
  induction l1 as [|r l1 IH]; simpl.
  - rewrite (left_id_L ∅ (∪)). reflexivity.
  - rewrite IH, (assoc_L (∪)). reflexivity.
Qed.

Lemma unionOfRows_app_cons (l : list Row) (r : Row) (l' : list Row) :
  unionOfRows (l ++ r :: l') = [⋃ (l ++ r :: l')].
Proof. destruct l; reflexivity. Qed.

Lemma mergeObjects_rowsWithKey (objects : list Row) (k : Z) :
  ∀ merged : list Row,
  strictlySortedBy key merged → Forall (hasKey key) objects →
  rowsWithKey key k (foldl (mergeObject key) merged objects)
  = unionOfRows (reverse (rowsWithKey key k objects) ++ rowsWithKey key k merged).
Proof.
  induction objects as [|obj objects IH]; intros merged Hs Hall; simpl.
  - destruct (rowsWithKey_sorted merged k Hs) as [->|[entry ->]];
      [reflexivity|].
    simpl. rewrite (right_id_L ∅ (∪)). reflexivity.
  - apply Forall_cons in Hall as [[ko Hobj] Hall].
    rewrite IH by (try apply mergeObject_sorted; try assumption; eexists; eauto).
    rewrite (rowsWithKey_mergeObject merged obj ko k Hs Hobj).
    destruct (decide (k = ko)) as [->|Hne].
    + rewrite rowsWithKey_cons_eq by assumption.
      rewrite reverse_cons, <- app_assoc. simpl.
      rewrite !unionOfRows_app_cons. f_equal.
      rewrite !union_rows_app. simpl.
      rewrite (right_id_L ∅ (∪)). reflexivity.
    + rewrite rowsWithKey_cons_ne by congruence. reflexivity.
Qed.
End LastWriteWins.

(** X4.  On a sorted target and rows that carry the key, the merge is a
    last-write-wins union per key: the result has no row with key [k]
    when neither the target nor an input has one, and otherwise exactly
    one, whose own properties are those of the rows with that key, a
    later input row winning over an earlier one and every input row over
    the target's row, whatever the winning property holds (also
    [undefined]). *)
Theorem mergeObjectArrays_last_write_wins (key : string) (target : list Row)
    (arrays : list (list Row)) (k : Z) :
  strictlySortedBy key target → Forall (Forall (hasKey key)) arrays →
  rowsWithKey key k (mergeObjectArrays key target arrays)
  = unionOfRows (reverse (rowsWithKey key k (concat arrays))
                 ++ rowsWithKey key k target).
Proof.
  intros Hs Hall. rewrite mergeObjectArrays_concat.
  apply mergeObjects_rowsWithKey; [assumption|].
  apply Forall_concat. exact Hall.
Qed.

Lemma mergeObjectArrays_last_write_wins_witness :
  rowsWithKey "revision" 30
    (mergeObjectArrays "revision"
       [ {["revision" := 10; "avg" := 1]}; {["revision" := 30; "avg" := 3]} ]
       [ [ {["revision" := 30; "avg" := 5; "std" := 9]} ];
         [ {["revision" := 30; "avg" := 7]} ] ])
  = [ {["revision" := 30; "avg" := 7; "std" := 9]} ].
Proof.
  rewrite mergeObjectArrays_last_write_wins.
  - vm_compute. reflexivity.
  - exists [10; 30]. split; [vm_compute; reflexivity|].
    repeat constructor.
  - repeat constructor; eexists; vm_compute; reflexivity.
Defined.

(** ** The answer that decides a slice fetch *)

Section FetchLast.
Variable network : nat → HttpResponse.
Variable sliceColumns : list string.

Definition decidedBy (response : HttpResponse) : ResultObj :=
  if responseOk response then successResult sliceColumns response
  else errorResult response.

Lemma fetch__last_answer (budget : nat) : ∀ retry_ calls,
  (MAX_RETRIES - retry_ = budget)%nat →
  let out := fetch_ network sliceColumns retry_ calls in
  let last := network (fetchCalls out - 1)%nat in
  (∀ j, (calls ≤ j < fetchCalls out - 1)%nat →
        httpStatus (network j) = SERVER_ERROR) ∧
  fetched out = decidedBy last ∧
  (responseOk last = false → httpStatus last = SERVER_ERROR →
   (MAX_RETRIES ≤ retryAfter out)%nat).
Proof.
  induction budget as [budget IH] using lt_wf_ind.
  intros retry_ calls Hb. cbv zeta. rewrite fetch__step. cbv zeta.
  unfold decidedBy.
  destruct (responseOk (network calls)) eqn:Hok; simpl negb; cbv iota.
  { simpl. rewrite Nat.sub_0_r, Hok. split; [intros; lia|].
    split; [reflexivity|discriminate]. }
  destruct (decide _) as [[H500 Hlt]|Hn].
  - specialize (IH (MAX_RETRIES - S retry_)%nat ltac:(lia) (S retry_) (S calls)
                   eq_refl).
    cbv zeta in IH. destruct IH as (Hbefore & Hlast & Hbudget).
    pose proof (fetch__calls_bounded network sliceColumns _ (S retry_) (S calls)
                  eq_refl) as Hc. cbv zeta in Hc.
    split; [|split; assumption].
    intros j Hj. destruct (decide (j = calls)) as [->|Hne]; [assumption|].
    apply Hbefore. lia.
  - simpl. rewrite Nat.sub_0_r, Hok. split; [intros; lia|].
    split; [reflexivity|]. intros _ H500.
    destruct (decide (retry_ < MAX_RETRIES)%nat); [|lia].
    exfalso. apply Hn. split; assumption.
Qed.
End FetchLast.

(** X5.  A slice fetch is decided by the last answer it received: every
    answer before it had status 500; an OK answer gives the decoded body
    with its table normalised and [columns] set to the slice's columns,
    any other answer the [{error, status}] object; and a 500 is only
    taken as the result once the three retries are used up.  The retry
    counter of the slice is the number of calls but one. *)
Theorem fetch_decided_by_last_answer (network : nat → HttpResponse)
    (sliceColumns : list string) :
  let out := fetch_ network sliceColumns 0 0 in
  let last := network (fetchCalls out - 1)%nat in
  (∀ j, (j < fetchCalls out - 1)%nat → httpStatus (network j) = SERVER_ERROR) ∧
  fetched out = (if responseOk last then successResult sliceColumns last
                 else errorResult last) ∧
  (responseOk last = true →
   error (fetched out) = None ∧ columns (fetched out) = Some sliceColumns) ∧
  (httpStatus last = SERVER_ERROR → fetchCalls out = 4%nat) ∧
  retryAfter out = (fetchCalls out - 1)%nat.
Proof.
  cbv zeta.
  destruct (fetch__last_answer network sliceColumns _ 0%nat 0%nat eq_refl)
    as (Hbefore & Hlast & Hbudget). cbv zeta in Hbefore, Hlast, Hbudget.
  pose proof (fetch__calls_bounded network sliceColumns _ 0%nat 0%nat eq_refl)
    as Hc. cbv zeta in Hc. unfold decidedBy in Hlast.
  split; [intros j Hj; apply Hbefore; lia|].
  split; [exact Hlast|]. split; [|split; [|lia]].
  - intros Hok. rewrite Hlast, Hok. split; reflexivity.
  - intros H500.
    specialize (Hbudget (responseOk_500 _ H500) H500).
    unfold MAX_RETRIES in *. lia.
Qed.

(** ** What the reader makes available *)

Section ReaderLookup.
Variable req : Request.

Lemma getAvailableRangeByCol_foldl_lookup (store : gmap string (list Range.dict))
    (cols : list string) (col : string) : ∀ acc : gmap string Range.t,
  foldl (λ availableRangeByCol (entry : string * option (list Range.dict)),
           match entry.2 with
           | None => availableRangeByCol
           | Some rangeDicts =>
               match firstIntersection req rangeDicts with
               | Some intersection =>
                   <[entry.1 := intersection]> availableRangeByCol
               | None => availableRangeByCol
               end
           end) acc ((λ c, (c, store !! c)) <$> cols) !! col
  = if decide (col ∈ cols)
    then match store !! col ≫= firstIntersection req with
         | Some r => Some r
         | None => acc !! col
         end
    else acc !! col.
Proof.
  induction cols as [|c cols IH]; intros acc; simpl.
  - destruct (decide (col ∈ [])) as [Hin|_]; [|reflexivity].
    apply elem_of_nil in Hin. contradiction.
  - rewrite IH. clear IH.
    assert (Hstep :
      (match store !! c with
       | None => acc
       | Some rangeDicts =>
           match firstIntersection req rangeDicts with
           | Some intersection => <[c := intersection]> acc
           | None => acc
           end
       end) !! col
      = if decide (c = col)
        then match store !! col ≫= firstIntersection req with
             | Some r => Some r
             | None => acc !! col
             end
        else acc !! col).
    { destruct (decide (c = col)) as [->|Hne].
      - destruct (store !! col) as [ds|]; simpl; [|reflexivity].
        destruct (firstIntersection req ds); [|reflexivity].
        rewrite lookup_insert. destruct (decide (col = col)); congruence.
      - destruct (store !! c) as [ds|]; [|reflexivity].
        destruct (firstIntersection req ds); [|reflexivity].
        rewrite lookup_insert_ne by assumption. reflexivity. }
    rewrite Hstep. clear Hstep.
    destruct (decide (col ∈ cols)) as [Hin|Hnin].
    + destruct (decide (col ∈ c :: cols)) as [_|Hn];
        [|exfalso; apply Hn; apply elem_of_cons; tauto].
      destruct (store !! col ≫= firstIntersection req); [reflexivity|].
      destruct (decide (c = col)); reflexivity.
    + destruct (decide (c = col)) as [->|Hne].
      * destruct (decide (col ∈ col :: cols)) as [_|Hn];
          [reflexivity|exfalso; apply Hn; apply list_elem_of_here].
      * destruct (decide (col ∈ c :: cols)) as [Hin|_]; [|reflexivity].
        apply elem_of_cons in Hin as [->|Hin]; contradiction.
Qed.

Lemma getAvailableRangeByCol_lookup (db : Database) (col : string) :
  getAvailableRangeByCol_ req (getRanges_ req db) !! col
  = if decide (col ∈ columns_ req ∧ col ≠ "revision")
    then rangeStore db !! col ≫= firstIntersection req
    else None.
Proof.
  unfold getAvailableRangeByCol_, getRanges_.
  rewrite getAvailableRangeByCol_foldl_lookup, lookup_empty.
  destruct (decide (col ∈ filter _ (columns_ req))) as [Hin|Hnin].
  - apply list_elem_of_filter in Hin as [Hne Hin].
    rewrite decide_True by tauto.
    destruct (_ ≫= _); reflexivity.
  - destruct (decide _) as [[Hin Hne]|_]; [|reflexivity].
    exfalso. apply Hnin. apply list_elem_of_filter. tauto.
Qed.

Lemma firstIntersection_first (rangeDicts : list Range.dict) :
  match firstIntersection req rangeDicts with
  | Some r =>
      ∃ before d after, rangeDicts = before ++ d :: after ∧
        r = Range.findIntersection (Range.fromDict d) (revisionRange_ req) ∧
        Range.isEmpty r = false ∧
        Forall (λ d', Range.isEmpty (Range.findIntersection (Range.fromDict d')
                                       (revisionRange_ req)) = true) before
  | None =>
      Forall (λ d', Range.isEmpty (Range.findIntersection (Range.fromDict d')
                                     (revisionRange_ req)) = true) rangeDicts
  end.
Proof.
  induction rangeDicts as [|d rest IH]; simpl; [constructor|].
  destruct (Range.isEmpty (Range.findIntersection _ _)) eqn:He; simpl.
  - destruct (firstIntersection req rest) as [r|].
    + destruct IH as (before & d' & after & -> & Hr & Hne & Hall).
      exists (d :: before), d', after. repeat split; try assumption.
      constructor; assumption.
    + constructor; assumption.
  - exists [], d, rest. repeat split; [assumption|constructor].
Qed.
End ReaderLookup.

(** X6.  What [readDatabase_] reports as available: a column has an
    entry only when it is a requested column other than 'revision' with
    stored ranges of which one overlaps the request range, and the entry
    is the intersection of the request range with the first stored range
    that overlaps it (stored ranges after that one are not looked at);
    cached rows are returned exactly when some column has an entry. *)
Theorem readDatabase_available (req : Request) (db : Database) :
  ∃ available : gmap string Range.t,
    availableRangeByCol (readDatabase_ req db) = Some available ∧
    (∀ col, available !! col
            = if decide (col ∈ columns_ req ∧ col ≠ "revision")
              then rangeStore db !! col ≫= firstIntersection req
              else None) ∧
    (∀ col r, available !! col = Some r →
       ∃ before d after,
         rangeStore db !! col = Some (before ++ d :: after) ∧
         r = Range.findIntersection (Range.fromDict d) (revisionRange_ req) ∧
         Range.isEmpty r = false ∧
         Forall (λ d', Range.isEmpty
                         (Range.findIntersection (Range.fromDict d')
                            (revisionRange_ req)) = true) before) ∧
    data (readDatabase_ req db)
    = if decide (available = ∅) then None else Some (getDataPoints_ req db).
Proof.
  exists (getAvailableRangeByCol_ req (getRanges_ req db)).
  split; [|split; [|split]].
  - unfold readDatabase_. cbv zeta. destruct (decide _); reflexivity.
  - apply getAvailableRangeByCol_lookup.
  - intros col r. rewrite getAvailableRangeByCol_lookup.
    destruct (decide _) as [_|_]; [|discriminate].
    destruct (rangeStore db !! col) as [ds|]; simpl; [|discriminate].
    intros Hr. pose proof (firstIntersection_first req ds) as H.
    rewrite Hr in H. destruct H as (before & d & after & -> & H).
    exists before, d, after. split; [reflexivity|exact H].
  - unfold readDatabase_. cbv zeta.
    destruct (decide (size _ = 0%nat)) as [Hz|Hnz].
    + apply map_size_empty_iff in Hz. rewrite decide_True by assumption.
      reflexivity.
    + rewrite decide_False; [reflexivity|].
      intros He. apply Hnz. apply map_size_empty_iff. exact He.
Qed.

(** X7.  The rows the reader returns are the rows of the data store in
    ascending order of their store key, each key once: all of them when
    the form has neither [min_revision] nor [max_revision], and otherwise
    those whose store key lies within the bounds of the request range. *)
Theorem getDataPoints_rows (req : Request) (db : Database) :
  ∃ entries : list (Z * Row),
    getDataPoints_ req db = entries.*2 ∧
    StronglySorted Z.lt entries.*1 ∧
    ∀ k row, (k, row) ∈ entries ↔
      dataStore db !! k = Some row ∧
      (formFalsy (formGet (body_ req) "min_revision") &&
       formFalsy (formGet (body_ req) "max_revision") = true ∨
       ∃ lo hi, revisionRange_ req = Range.Interval lo hi ∧ lo ≤ k ≤ hi).
Proof.
  destruct (storeEntries_facts (dataStore db)) as (Hs & Hnd & Hin).
  assert (Hsorted : ∀ entries : list (Z * Row),
            StronglySorted entryLe entries → NoDup entries.*1 →
            StronglySorted Z.lt entries.*1).
  { intros entries Hse Hnde. apply StronglySorted_le_NoDup_lt; [|assumption].
    clear Hnde. induction Hse as [|e l Hse IH Hall]; [constructor|].
    simpl. constructor; [assumption|].
    rewrite Forall_forall in Hall. apply Forall_forall.
    intros y [e' [-> He']]%list_elem_of_fmap. apply Hall, He'. }
  unfold getDataPoints_.
  destruct (_ && _) eqn:Hboth.
  - exists (storeEntries (dataStore db)). split; [reflexivity|].
    split; [auto|]. intros k row. rewrite Hin. tauto.
  - destruct (revisionRange_ req) as [|lo hi].
    + exists []. split; [reflexivity|]. split; [constructor|].
      intros k row. split.
      * intros H. apply elem_of_nil in H. contradiction.
      * intros [_ [H|(lo & hi & H & _)]]; discriminate.
    + exists (filter (λ e, lo ≤ e.1 ≤ hi) (storeEntries (dataStore db))).
      split; [reflexivity|]. split.
      * apply Hsorted; [apply StronglySorted_filter|apply NoDup_fst_filter];
          assumption.
      * intros k row. rewrite list_elem_of_filter, Hin. simpl. split.
        -- intros [Hk Hrow]. split; [assumption|]. right. eauto.
        -- intros [Hrow [H|(lo' & hi' & [= <- <-] & Hk)]];
             [discriminate|tauto].
Qed.

(** ** The plan of a request *)

Section PlanShape.
Variable req : Request.
Variable owner : nat.
Variable cacheResult : ResultObj.

Lemma planColumns_getSlices :
  planColumns (getSlices_ req owner cacheResult)
  = remainingColumns req cacheResult.
Proof. unfold getSlices_. cbv zeta. destruct (decide _); reflexivity. Qed.

Lemma NoDup_setDelete x (set : list string) :
  NoDup set → NoDup (setDelete x set).
Proof. apply NoDup_filter. Qed.

Lemma NoDup_remainingColumns : NoDup (remainingColumns req cacheResult).
Proof.
  unfold remainingColumns. cbv zeta.
  assert (H : ∀ (l columns : list string), NoDup columns →
            NoDup (foldl (dropIfAvailable req cacheResult) columns l)).
  { induction l as [|col l IH]; intros columns Hnd; simpl; [assumption|].
    apply IH. unfold dropIfAvailable.
    repeat (destruct (decide _); try assumption).
    destruct (plannerAvailable cacheResult !! col); [|assumption].
    destruct (decide _); [apply NoDup_setDelete|]; assumption. }
  apply H, NoDup_setDelete, NoDup_newSet.
Qed.

(** A remaining column without an available range empties the common
    available range. *)
Lemma commonAvailable_uncached (col : string) (columns : list string) :
  col ∈ columns → col ≠ "revision" →
  plannerAvailable cacheResult !! col = None →
  ∀ availableRange,
    commonAvailable cacheResult columns availableRange = Range.Empty.
Proof.
  intros Hin Hrev Hnone.
  induction columns as [|c columns IH]; intros availableRange; simpl.
  - apply elem_of_nil in Hin. contradiction.
  - apply elem_of_cons in Hin as [<-|Hin].
    + destruct (decide (col = "revision")); [contradiction|].
      rewrite Hnone. reflexivity.
    + destruct (decide (c = "revision")); [auto|].
      destruct (plannerAvailable cacheResult !! c); [auto|reflexivity].
Qed.

Lemma remainingColumns_uncached (col : string) :
  col ∈ columns_ req → col ≠ "histogram" →
  plannerAvailable cacheResult !! col = None →
  col ∈ remainingColumns req cacheResult.
Proof.
  intros Hin Hhist Hnone. apply elem_of_remainingColumns.
  split; [assumption|]. split; [assumption|].
  intros (_ & _ & r & Hr & _). congruence.
Qed.

Lemma histogramSlices_lookup (columns : list string) (i : nat)
    (s : TimeseriesSlice) :
  histogramSlices req owner cacheResult columns !! i = Some s →
  "histogram" ∈ columns ∧
  ∃ r, s = createSlice_ owner i r (ColumnArray ["revision"; "histogram"]).
Proof.
  unfold histogramSlices. destruct (decide _) as [Hin|_]; [|discriminate].
  rewrite list_lookup_imap.
  destruct (_ !! i) as [r|]; simpl; [|discriminate].
  intros [= <-]. eauto.
Qed.

Lemma getSlices_lookup (i : nat) (s : TimeseriesSlice) :
  planSlices (getSlices_ req owner cacheResult) !! i = Some s →
  ∃ r, ("histogram" ∈ columns_ req ∧
        s = createSlice_ owner i r (ColumnArray ["revision"; "histogram"])) ∨
       s = createSlice_ owner i r (ColumnSet owner).
Proof.
  unfold getSlices_. cbv zeta. destruct (decide _); simpl; [discriminate|].
  intros Hs. apply lookup_app_Some in Hs as [Hs|[Hle Hs]].
  - apply histogramSlices_lookup in Hs as [Hh [r ->]].
    exists r. left. split; [apply elem_of_newSet, Hh|reflexivity].
  - rewrite list_lookup_imap in Hs.
    destruct (_ !! _) as [r|]; simpl in Hs; [|discriminate].
    injection Hs as <-. exists r. right. f_equal. lia.
Qed.
End PlanShape.

(** X8.  A requested column (other than 'revision' and 'histogram') for
    which the cache result has no available range stays in the Set of
    columns, and it defeats the common available range: unless the
    planner returns early, all the remaining columns are fetched by one
    slice over the whole request range, after the histogram slices. *)
Theorem uncached_column_fetched_over_request_range (req : Request)
    (owner : nat) (cacheResult : ResultObj) (col : string) (lo hi : Z) :
  col ∈ columns_ req → col ≠ "revision" → col ≠ "histogram" →
  plannerAvailable cacheResult !! col = None →
  revisionRange_ req = Range.Interval lo hi →
  let plan := getSlices_ req owner cacheResult in
  let histogram := histogramSlices req owner cacheResult (newSet (columns_ req)) in
  col ∈ planColumns plan ∧
  (length (planColumns plan) ≠ 1%nat →
   planSlices plan
   = histogram ++ [createSlice_ owner (length histogram + 0)
                     (Range.Interval lo hi) (ColumnSet owner)]).
Proof.
  intros Hin Hrev Hhist Hnone Hrange. cbv zeta.
  pose proof (remainingColumns_uncached req cacheResult col Hin Hhist Hnone) as Hrem.
  rewrite planColumns_getSlices. split; [assumption|].
  intros Hlen. unfold getSlices_. cbv zeta.
  destruct (decide _) as [Hone|_]; [contradiction|]. simpl.
  rewrite (commonAvailable_uncached cacheResult col _ Hrem Hrev Hnone), Hrange.
  reflexivity.
Qed.

(** X9.  Alerts are always fetched fresh: in every state of the database
    that the writer can reach, a request for 'revision' and 'alert'
    (whatever else it asks for, whatever is cached) is planned with
    'alert' among the columns of a slice over the whole request range. *)
Theorem alerts_always_fetched
    (mergeCovered : option Z → option Z → list Range.dict → list Range.dict)
    (req : Request) (owner : nat) (db : Database) (lo hi : Z) :
  reachable mergeCovered db →
  "revision" ∈ columns_ req → "alert" ∈ columns_ req →
  revisionRange_ req = Range.Interval lo hi →
  let plan := getSlices_ req owner (readDatabase_ req db) in
  "alert" ∈ planColumns plan ∧
  ∃ s, s ∈ planSlices plan ∧ sliceColumns s = ColumnSet owner ∧
       revisionRange s = Range.Interval lo hi.
Proof.
  intros Hdb Hrev Halert Hrange. cbv zeta.
  assert (Hnone : plannerAvailable (readDatabase_ req db) !! "alert" = None).
  { rewrite plannerAvailable_readDatabase, getAvailableRangeByCol_lookup.
    destruct (decide _); [|reflexivity].
    destruct (reachable_rangeStore mergeCovered db Hdb) as [-> _].
    reflexivity. }
  pose proof (remainingColumns_uncached req (readDatabase_ req db) "alert"
                Halert ltac:(discriminate) Hnone) as Hin.
  rewrite planColumns_getSlices. split; [assumption|].
  assert (Hr : "revision" ∈ remainingColumns req (readDatabase_ req db)).
  { apply elem_of_remainingColumns. split; [assumption|].
    split; [discriminate|]. intros (Hn & _). congruence. }
  unfold getSlices_. cbv zeta.
  destruct (decide _) as [Hone|_].
  { exfalso.
    destruct (remainingColumns req (readDatabase_ req db)) as [|x [|y rest]];
      try discriminate.
    apply list_elem_of_singleton in Hr, Hin. congruence. }
  simpl.
  rewrite (commonAvailable_uncached (readDatabase_ req db) "alert" _ Hin
             ltac:(discriminate) Hnone), Hrange.
  eexists. split; [apply elem_of_app; right; apply list_elem_of_here|].
  split; reflexivity.
Qed.

(** X10.  The shape of every plan: the Set of columns has no repeated
    column, holds only requested columns and never 'histogram', and keeps
    'revision' and 'alert' when they were requested; every slice is a new
    object of the planning request, and it either fetches the array
    ['revision', 'histogram'] (only when 'histogram' was requested) or
    holds the Set of columns shared by the slices of the request. *)
Theorem getSlices_plan_shape (req : Request) (owner : nat)
    (cacheResult : ResultObj) :
  let plan := getSlices_ req owner cacheResult in
  NoDup (planColumns plan) ∧
  (∀ col, col ∈ planColumns plan → col ∈ columns_ req ∧ col ≠ "histogram") ∧
  (∀ col, col ∈ columns_ req → col = "revision" ∨ col = "alert" →
          col ∈ planColumns plan) ∧
  (∀ i s, planSlices plan !! i = Some s →
     sliceOwner s = owner ∧ sliceIndex s = i ∧
     (sliceColumns s = ColumnSet owner ∨
      (sliceColumns s = ColumnArray ["revision"; "histogram"] ∧
       "histogram" ∈ columns_ req))) ∧
  NoDup (planSlices plan).
Proof.
  cbv zeta. rewrite planColumns_getSlices.
  split; [apply NoDup_remainingColumns|].
  split; [|split; [|split]].
  - intros col Hcol. apply elem_of_remainingColumns in Hcol. tauto.
  - intros col Hcol Hkeep. apply elem_of_remainingColumns.
    split; [assumption|]. split.
    + destruct Hkeep as [->| ->]; discriminate.
    + intros (Hr & Ha & _). tauto.
  - intros i s Hs. apply getSlices_lookup in Hs as [r [[Hh ->]| ->]]; simpl;
      auto.
  - apply NoDup_alt. intros i j s Hi Hj.
    apply getSlices_lookup in Hi as [r [[_ Hi]|Hi]];
      apply getSlices_lookup in Hj as [r' [[_ Hj]|Hj]];
      rewrite Hi in Hj; injection Hj; auto.
Qed.

Ltac in_list :=
  repeat first [apply list_elem_of_here | apply list_elem_of_further].

Lemma uncached_column_fetched_over_request_range_witness :
  planSlices (getSlices_ alertRequest 0 (readDatabase_ alertRequest warmDatabase))
  = [createSlice_ 0 0 (Range.Interval 0 100) (ColumnSet 0)].
Proof.
  destruct (uncached_column_fetched_over_request_range alertRequest 0%nat
              (readDatabase_ alertRequest warmDatabase) "alert" 0 100)
    as [_ Hslices].
  - in_list.
  - discriminate.
  - discriminate.
  - vm_compute. reflexivity.
  - reflexivity.
  - apply Hslices. vm_compute. discriminate.
Defined.

Lemma alerts_always_fetched_witness :
  let db := writeDatabase mergeCoveredSpec alertRequest 2000 alertPayload
              emptyDatabase in
  "alert" ∈ planColumns (getSlices_ alertRequest 0 (readDatabase_ alertRequest db)) ∧
  ∃ s, s ∈ planSlices (getSlices_ alertRequest 0 (readDatabase_ alertRequest db)) ∧
       sliceColumns s = ColumnSet 0 ∧ revisionRange s = Range.Interval 0 100.
Proof.
  cbv zeta.
  apply (alerts_always_fetched mergeCoveredSpec alertRequest 0%nat _ 0 100).
  - apply reachable_written, reachable_created.
  - in_list.
  - in_list.
  - reflexivity.
Defined.

(** ** What a write leaves in the stores *)

Lemma last_cons_match {A} (x : A) (l : list A) :
  last (x :: l) = match last l with Some y => Some y | None => Some x end.
Proof. apply last_cons. Qed.

Lemma writeData_foldl_lookup (store : gmap Z Row) (k : Z) (rows : list Row) :
  ∀ current : gmap Z Row,
  foldl (λ current (datum : Row),
           match datum !! "revision" with
           | Some revision =>
               let prev := default ∅ (store !! revision) in
               <[revision := objectAssign prev datum]> current
           | None => current
           end) current rows !! k
  = match last (rowsWithKey "revision" k rows) with
    | Some datum => Some (objectAssign (default ∅ (store !! k)) datum)
    | None => current !! k
    end.
Proof.
  induction rows as [|datum rows IH]; intros current; simpl; [reflexivity|].
  rewrite IH. clear IH.
  destruct (decide (datum !! "revision" = Some k)) as [Hk|Hk].
  - rewrite rowsWithKey_cons_eq by assumption. rewrite last_cons_match.
    destruct (last (rowsWithKey "revision" k rows)); [reflexivity|].
    rewrite Hk. cbv zeta. rewrite lookup_insert.
    destruct (decide (k = k)); congruence.
  - rewrite rowsWithKey_cons_ne by assumption.
    destruct (last (rowsWithKey "revision" k rows)); [reflexivity|].
    destruct (datum !! "revision") as [revision|]; [|reflexivity].
    cbv zeta. apply lookup_insert_ne. congruence.
Qed.

(** X11.  What [writeData_] leaves under a key: without data the store is
    unchanged; with data, a key that is the revision of no row keeps its
    record, and a key that is the revision of some row holds the last
    such row merged over the record that the store held before the write
    (the own properties of the row win, also one that holds [undefined];
    an earlier row of the same write with that revision leaves
    nothing). *)
Theorem writeData_lookup (rows : list Row) (store : gmap Z Row) (k : Z) :
  writeData_ None store = store ∧
  writeData_ (Some rows) store !! k
  = match last (rowsWithKey "revision" k rows) with
    | Some datum => Some (objectAssign (default ∅ (store !! k)) datum)
    | None => store !! k
    end.
Proof.
  split; [reflexivity|]. unfold writeData_. apply writeData_foldl_lookup.
Qed.

Section WriterLookup.
Variable mergeCovered :
  option Z → option Z → list Range.dict → list Range.dict.
Variable req : Request.

Lemma writeRanges_foldl_lookup (store : gmap string (list Range.dict))
    (lastRow : Row) (col : string) (cols : list string) :
  col ≠ "revision" → col ≠ "alert" →
  ∀ current : gmap string (list Range.dict),
  foldl (λ current col,
           if decide (col = "revision") then current
           else if decide (col = "alert") then current
           else
             let prevRangesRaw := default [] (store !! col) in
             <[col := mergeCovered (Range.min (revisionRange_ req))
                                   (lastRow !! "revision")
                                   prevRangesRaw]> current)
        current cols !! col
  = if decide (col ∈ cols)
    then Some (mergeCovered (Range.min (revisionRange_ req))
                 (lastRow !! "revision") (default [] (store !! col)))
    else current !! col.
Proof.
  intros Hrev Halert.
  induction cols as [|c cols IH]; intros current; simpl.
  - destruct (decide (col ∈ [])) as [Hin|_]; [|reflexivity].
    apply elem_of_nil in Hin. contradiction.
  - rewrite IH. clear IH.
    destruct (decide (col ∈ cols)) as [Hin|Hnin].
    + destruct (decide (col ∈ c :: cols)) as [_|Hn]; [reflexivity|].
      exfalso. apply Hn. apply elem_of_cons. tauto.
    + destruct (decide (c = col)) as [->|Hne].
      * destruct (decide (col ∈ col :: cols)) as [_|Hn];
          [|exfalso; apply Hn; apply list_elem_of_here].
        destruct (decide (col = "revision")); [contradiction|].
        destruct (decide (col = "alert")); [contradiction|].
        cbv zeta. rewrite lookup_insert.
        destruct (decide (col = col)); congruence.
      * destruct (decide (col ∈ c :: cols)) as [Hin|_].
        { apply elem_of_cons in Hin as [->|Hin]; contradiction. }
        destruct (decide (c = "revision")); [reflexivity|].
        destruct (decide (c = "alert")); [reflexivity|].
        cbv zeta. apply lookup_insert_ne. assumption.
Qed.
End WriterLookup.

(** X12.  What [writeRanges_] leaves under a requested column other than
    'revision' and 'alert' when rows were written: the merge into the
    previously stored ranges (none stored: into the empty list) of the
    range from the minimum of the request range to the revision of the
    last row.  The maximum of the request range plays no part, and a
    column requested twice is merged once. *)
Theorem writeRanges_requested_column
    (mergeCovered : option Z → option Z → list Range.dict → list Range.dict)
    (req : Request) (rows : list Row) (lastRow : Row)
    (store : gmap string (list Range.dict)) (col : string) :
  col ∈ columns_ req → col ≠ "revision" → col ≠ "alert" →
  last rows = Some lastRow →
  writeRanges_ mergeCovered req (Some rows) store !! col
  = Some (mergeCovered (Range.min (revisionRange_ req)) (lastRow !! "revision")
            (default [] (store !! col))).
Proof.
  intros Hin Hrev Halert Hlast. unfold writeRanges_. rewrite Hlast.
  rewrite writeRanges_foldl_lookup by assumption.
  destruct (decide _); [reflexivity|contradiction].
Qed.

Lemma writeRanges_requested_column_witness :
  writeRanges_ mergeCoveredSpec alertRequest
    (Some [ {["revision" := 50; "avg" := 7]}; {["revision" := 80; "avg" := 8]} ])
    {[ "avg" := [Range.DictMinMax 60 70; Range.DictMinMax 90 95] ]} !! "avg"
  = Some [Range.DictMinMax 0 80; Range.DictMinMax 90 95].
Proof.
  rewrite (writeRanges_requested_column mergeCoveredSpec alertRequest _
             {["revision" := 80; "avg" := 8]}).
  - vm_compute. reflexivity.
  - in_list.
  - discriminate.
  - discriminate.
  - reflexivity.
Defined.

Lemma writeMetadata_lookup (entries : list (string * MetaValue)) (key : string) :
  ∀ store : gmap string MetaValue,
  writeMetadata_ entries store !! key
  = match last (filter (λ e, e.1 = key) entries) with
    | Some e => Some e.2
    | None => store !! key
    end.
Proof.
  unfold writeMetadata_.
  induction entries as [|e entries IH]; intros store; simpl; [reflexivity|].
  rewrite IH. clear IH. rewrite filter_cons.
  destruct (decide (e.1 = key)) as [He|He].
  - rewrite last_cons_match.
    destruct (last (filter _ entries)); [reflexivity|].
    rewrite lookup_insert. destruct (decide (e.1 = key)); congruence.
  - destruct (last (filter _ entries)); [reflexivity|].
    apply lookup_insert_ne. assumption.
Qed.

Lemma metadataEntries_keys (payload : ResultObj) :
  last (filter (λ e, e.1 = "missingTimestamp") (metadataEntries payload))
    = (λ v, ("missingTimestamp", metaValue MetaTime v))
        <$> missingTimestamp payload ∧
  last (filter (λ e, e.1 = "improvement_direction") (metadataEntries payload))
    = (λ v, ("improvement_direction", metaValue MetaNumber v))
        <$> improvement_direction payload ∧
  last (filter (λ e, e.1 = "units") (metadataEntries payload))
    = (λ v, ("units", metaValue MetaNumber v)) <$> units payload ∧
  last (filter (λ e, e.1 = "_accessTime") (metadataEntries payload)) = None.
Proof.
  destruct payload as [d c e s m i u a].
  destruct c, e, s, m, i, u, a; repeat split.
Qed.

(** X13.  What a write leaves in the metadata store, as the next read
    sees it: the access time is the clock of the write; the missing
    timestamp, the improvement direction and the units are what the
    written object holds under that name when it has the property (also
    when the property holds [undefined], which then replaces the stored
    value) and the stored ones when it has no such property; and no key
    of the metadata store is removed. *)
Theorem writeDatabase_metadata
    (mergeCovered : option Z → option Z → list Range.dict → list Range.dict)
    (req : Request) (now : Z) (payload : ResultObj) (db : Database)
    (reader : Request) :
  let db' := writeDatabase mergeCovered req now payload db in
  metadataStore db' !! "_accessTime" = Some (MetaTime now) ∧
  missingTimestamp (readDatabase_ reader db')
  = match missingTimestamp payload with
    | Some held => Some held
    | None => missingTimestamp (readDatabase_ reader db)
    end ∧
  improvement_direction (readDatabase_ reader db')
  = match improvement_direction payload with
    | Some held => Some held
    | None => improvement_direction (readDatabase_ reader db)
    end ∧
  units (readDatabase_ reader db')
  = match units payload with
    | Some held => Some held
    | None => units (readDatabase_ reader db)
    end ∧
  ∀ key, is_Some (metadataStore db !! key) → is_Some (metadataStore db' !! key).
Proof.
  cbv zeta.
  assert (Hread : ∀ d : Database,
    missingTimestamp (readDatabase_ reader d)
      = Some (metaTime (metadataStore d !! "missingTimestamp")) ∧
    improvement_direction (readDatabase_ reader d)
      = Some (metaNumber (metadataStore d !! "improvement_direction")) ∧
    units (readDatabase_ reader d)
      = Some (metaNumber (metadataStore d !! "units"))).
  { intros d. unfold readDatabase_. cbv zeta.
    destruct (decide _); repeat split. }
  destruct (Hread db) as (-> & -> & ->).
  destruct (Hread (writeDatabase mergeCovered req now payload db))
    as (-> & -> & ->).
  destruct (metadataEntries_keys payload) as (Hm & Hi & Hu & Ha).
  simpl. rewrite !writeMetadata_lookup, Hm, Hi, Hu, Ha.
  unfold updateAccessTime_.
  rewrite lookup_insert_eq, !lookup_insert_ne by discriminate.
  split; [reflexivity|].
  split; [destruct (missingTimestamp payload) as [[held|]|]; reflexivity|].
  split; [destruct (improvement_direction payload) as [[held|]|];
          reflexivity|].
  split; [destruct (units payload) as [[held|]|]; reflexivity|].
  clear Hm Hi Hu Ha. intros key [v Hv]. rewrite writeMetadata_lookup.
  destruct (last _) as [e|]; [eauto|].
  rewrite lookup_insert. destruct (decide _); eauto.
Qed.

(** ** The rows of the snapshots *)

(** A property of rows that the rows of the target and the input rows
    have, and that [Object.assign] of an input row to an entry with the
    same key keeps, holds for every row of the result. *)
Lemma mergeObjects_provenance (key : string) (P : Row → Prop)
    (objects : list Row) :
  (∀ obj, obj ∈ objects → P obj) →
  (∀ entry obj, P entry → obj ∈ objects → entry !! key = obj !! key →
                P (objectAssign entry obj)) →
  ∀ merged : list Row,
  (∀ r, r ∈ merged → P r) →
  ∀ r, r ∈ foldl (mergeObject key) merged objects → P r.
Proof.
  induction objects as [|obj objects IH]; intros Hobj Hassign merged Hm r;
    simpl; [apply Hm|].
  apply IH.
  - intros o Ho. apply Hobj. apply elem_of_cons. tauto.
  - intros e o He Ho. apply Hassign; [assumption|]. apply elem_of_cons. tauto.
  - intros r' Hr'.
    destruct (mergeObject_ways key merged obj)
      as [[i Heq]|(i & entry & Hentry & Hkey & Heq)]; rewrite Heq in Hr'.
    + apply elem_of_spliceIn in Hr' as [->|Hr']; [|auto].
      apply Hobj, list_elem_of_here.
    + apply elem_of_list_insert_inv in Hr' as [->|Hr']; [|auto].
      apply Hassign; [|apply list_elem_of_here|assumption].
      apply Hm. eapply list_elem_of_lookup_2; eauto.
Qed.

(** [r'] is the row [r] in a later snapshot: the same revision, and every
    property of [r] but possibly its alert (what a property holds may be
    newer, and may be [undefined]). *)
Definition keptRow (r r' : Row) : Prop :=
  r' !! "revision" = r !! "revision" ∧
  ∀ field, field ≠ "alert" → hasOwn r field → hasOwn r' field.

Definition keptRows (rows rows' : list Row) : Prop :=
  ∀ r, r ∈ rows → ∃ r', r' ∈ rows' ∧ keptRow r r'.

Lemma keptRow_refl r : keptRow r r.
Proof. split; [reflexivity|auto]. Qed.

Lemma keptRow_trans r1 r2 r3 : keptRow r1 r2 → keptRow r2 r3 → keptRow r1 r3.
Proof. intros [H1 H1'] [H2 H2']. split; [congruence|auto]. Qed.

Lemma keptRows_refl rows : keptRows rows rows.
Proof. intros r Hr. exists r. split; [assumption|apply keptRow_refl]. Qed.

Lemma keptRows_trans l1 l2 l3 : keptRows l1 l2 → keptRows l2 l3 → keptRows l1 l3.
Proof.
  intros H12 H23 r Hr. destruct (H12 r Hr) as (r2 & Hr2 & Hk2).
  destruct (H23 r2 Hr2) as (r3 & Hr3 & Hk3).
  exists r3. split; [assumption|]. eapply keptRow_trans; eauto.
Qed.

Lemma extendsRow_keptRow r r' : extendsRow "revision" r r' → keptRow r r'.
Proof. intros [Hk Hf]. split; [assumption|]. intros field _. apply Hf. Qed.

Section MergeStep.
Variable req : Request.

Lemma inRequestRange_revision (r r' : Row) :
  r' !! "revision" = r !! "revision" →
  inRequestRange req r' = inRequestRange req r.
Proof. intros H. unfold inRequestRange. rewrite H. reflexivity. Qed.

Lemma purgeAlerts_keptRows (rows : list Row) :
  keptRows rows (purgeAlerts req rows).
Proof.
  intros r Hr. unfold purgeAlerts.
  exists (if inRequestRange req r then delete "alert" r else r).
  split; [apply list_elem_of_fmap; eauto|].
  destruct (inRequestRange req r); [|apply keptRow_refl].
  split; [apply Row_lookup_delete_ne; discriminate|].
  intros field Hne. rewrite Row_hasOwn_delete_ne by congruence. auto.
Qed.

Lemma purgeAlerts_no_alert (rows : list Row) (r : Row) :
  r ∈ purgeAlerts req rows →
  (inRequestRange req r = true → r !! "alert" = None) ∧
  ∃ r0, r0 ∈ rows ∧ r0 !! "revision" = r !! "revision".
Proof.
  unfold purgeAlerts. intros (r0 & -> & Hr0)%list_elem_of_fmap.
  destruct (inRequestRange req r0) eqn:Hin.
  - split; [intros _; apply Row_lookup_delete_eq|].
    exists r0. split; [assumption|]. symmetry. apply Row_lookup_delete_ne.
    discriminate.
  - split; [congruence|]. eauto.
Qed.

(** What [handleResult] does with a response that has columns and
    rows. *)
Lemma handleResult_merge (st : Generating) (now : Z) (result : ResultObj)
    (cols : list string) (rows : list Row) :
  columns result = Some cols → data result = Some rows →
  let merged :=
    mergeObjectArrays "revision"
      (if decide ("alert" ∈ cols) then purgeAlerts req (mergedData st)
       else mergedData st)
      [filter (λ d, inRequestRange req d) rows] in
  let final :=
    setData (Some merged)
      (setColumns
         (Some (newSet (cols ++ default [] (columns (finalResult st)))))
         result) in
  handleResult req st now (Some result)
  = ({| mergedData := merged; finalResult := final;
        yielded := yielded st ++ [final]; written := written st |}, None).
Proof.
  intros Hcols Hrows. cbv zeta. unfold handleResult.
  rewrite Hrows. rewrite bool_decide_eq_false_2 by discriminate.
  simpl andb. cbv iota. rewrite Hcols. cbv zeta. simpl data.
  rewrite Hrows. reflexivity.
Qed.
End MergeStep.

Section MergeStepFacts.
Variable req : Request.
Variable st : Generating.
Variable cols : list string.
Variable rows : list Row.

Let base : list Row :=
  if decide ("alert" ∈ cols) then purgeAlerts req (mergedData st)
  else mergedData st.
Let inRange : list Row := filter (λ d, inRequestRange req d) rows.
Let merged : list Row := mergeObjectArrays "revision" base [inRange].

Lemma merged_foldl : merged = foldl (mergeObject "revision") base inRange.
Proof. reflexivity. Qed.

Lemma merged_keptRows : keptRows (mergedData st) merged.
Proof.
  apply (keptRows_trans _ base).
  - subst base. destruct (decide _);
      [apply purgeAlerts_keptRows|apply keptRows_refl].
  - intros r Hr. rewrite merged_foldl.
    destruct (mergeObjects_grow "revision" inRange base) as (_ & Hkeep & _).
    destruct (Hkeep r Hr) as (r' & Hr' & He).
    exists r'. split; [assumption|apply extendsRow_keptRow, He].
Qed.

Lemma merged_holds_response (d : Row) :
  d ∈ rows → inRequestRange req d = true →
  ∃ r, r ∈ merged ∧ extendsRow "revision" d r.
Proof.
  intros Hd Hin. rewrite merged_foldl.
  destruct (mergeObjects_grow "revision" inRange base) as (_ & _ & Hobj).
  apply Hobj. subst inRange. apply list_elem_of_filter.
  split; [rewrite Hin; exact I|assumption].
Qed.

Lemma merged_revisions (r : Row) :
  r ∈ merged →
  (∃ r0, r0 ∈ mergedData st ∧ r0 !! "revision" = r !! "revision") ∨
  (∃ d, d ∈ rows ∧ inRequestRange req d = true ∧
        d !! "revision" = r !! "revision").
Proof.
  rewrite merged_foldl. revert r.
  assert (Hobj : ∀ obj, obj ∈ inRange →
            obj ∈ rows ∧ inRequestRange req obj = true).
  { intros obj [Hin Hobj]%list_elem_of_filter. split; [assumption|].
    destruct (inRequestRange req obj); [reflexivity|contradiction]. }
  apply mergeObjects_provenance.
  - intros obj Ho. right. exists obj. destruct (Hobj obj Ho). auto.
  - intros entry obj _ Ho Hkey. right. exists obj.
    destruct (Hobj obj Ho) as [H1 H2]. repeat split; try assumption.
    symmetry. apply (objectAssign_extends_obj "revision" entry obj Hkey).
  - intros r Hr. left. subst base. destruct (decide _); [|eauto].
    apply purgeAlerts_no_alert in Hr as [_ H]. exact H.
Qed.

Lemma merged_alerts (r : Row) (a : Z) :
  "alert" ∈ cols → r ∈ merged → inRequestRange req r = true →
  r !! "alert" = Some a →
  ∃ d, d ∈ rows ∧ d !! "revision" = r !! "revision" ∧ d !! "alert" = Some a.
Proof.
  intros Halert Hr. rewrite merged_foldl in Hr. revert r Hr a.
  apply (mergeObjects_provenance "revision"
           (λ r, ∀ a, inRequestRange req r = true → r !! "alert" = Some a →
                 ∃ d, d ∈ rows ∧ d !! "revision" = r !! "revision" ∧
                      d !! "alert" = Some a)).
  - intros obj [_ Ho]%list_elem_of_filter a _ Ha. eauto.
  - intros entry obj IH [_ Ho]%list_elem_of_filter Hkey a Hin Ha.
    destruct (objectAssign_extends_obj "revision" entry obj Hkey) as [Hrev _].
    rewrite Hrev. unfold objectAssign in Ha. rewrite Row_lookup_union in Ha.
    destruct (props obj !! "alert") as [held|] eqn:Hoa.
    + exists obj. split; [assumption|]. split; [reflexivity|].
      rewrite Row_lookup_unfold, Hoa. exact Ha.
    + rewrite <- Hkey. apply IH; [|assumption].
      rewrite <- Hin. apply inRequestRange_revision. congruence.
  - intros r Hr a Hin Ha. subst base.
    destruct (decide _); [|contradiction].
    apply purgeAlerts_no_alert in Hr as [Hnone _].
    rewrite (Hnone Hin) in Ha. discriminate.
Qed.
End MergeStepFacts.

(** X14.  What the generator does with a response that has columns and
    rows: it yields one more snapshot, whose data is the merged array,
    and schedules no write; no row of the array is lost and no property
    of a row but possibly its alert; every row of the response within the
    request range is in the array with all its properties (a property
    may hold [undefined], as a cell that the response left out does);
    every revision in the array was in it before or is the revision of a
    row of the response within the request range; and when the response
    fetched alerts, every alert on a row within the request range comes
    from a row of the response with that revision. *)
Theorem handleResult_merges_response (req : Request) (st : Generating)
    (now : Z) (result : ResultObj) (cols : list string) (rows : list Row) :
  columns result = Some cols → data result = Some rows →
  ∃ st', handleResult req st now (Some result) = (st', None) ∧
    yielded st' = yielded st ++ [finalResult st'] ∧
    written st' = written st ∧
    data (finalResult st') = Some (mergedData st') ∧
    keptRows (mergedData st) (mergedData st') ∧
    (∀ d, d ∈ rows → inRequestRange req d = true →
       ∃ r, r ∈ mergedData st' ∧ extendsRow "revision" d r) ∧
    (∀ r, r ∈ mergedData st' →
       (∃ r0, r0 ∈ mergedData st ∧ r0 !! "revision" = r !! "revision") ∨
       (∃ d, d ∈ rows ∧ inRequestRange req d = true ∧
             d !! "revision" = r !! "revision")) ∧
    ("alert" ∈ cols →
     ∀ r a, r ∈ mergedData st' → inRequestRange req r = true →
       r !! "alert" = Some a →
       ∃ d, d ∈ rows ∧ d !! "revision" = r !! "revision" ∧
            d !! "alert" = Some a).
Proof.
  intros Hcols Hrows. eexists. split.
  - apply (handleResult_merge req st now result cols rows Hcols Hrows).
  - cbv zeta. simpl.
    split; [reflexivity|]. split; [reflexivity|]. split; [reflexivity|].
    split; [apply merged_keptRows|].
    split; [apply merged_holds_response|].
    split; [apply merged_revisions|].
    intros Halert r a. apply merged_alerts. exact Halert.
Qed.

(** A generator that holds two cached rows with alerts, and a response
    that fetched the alerts again. *)
Definition staleAlerts : Generating :=
  {| mergedData := [ {["revision" := 50; "avg" := 7; "alert" := 1]};
                     {["revision" := 100; "avg" := 8; "alert" := 2]} ];
     finalResult := setColumns (Some []) emptyResult;
     yielded := []; written := [] |}.

Definition freshAlerts : ResultObj :=
  setData (Some [ {["revision" := 100; "alert" := 5]};
                  {["revision" := 150; "alert" := 6]} ])
          (setColumns (Some ["revision"; "alert"]) emptyResult).

Lemma handleResult_merges_response_witness :
  ∃ st', handleResult alertRequest staleAlerts 0 (Some freshAlerts)
         = (st', None) ∧
         mergedData st' = [ {["revision" := 50; "avg" := 7]};
                            {["revision" := 100; "avg" := 8; "alert" := 5]} ].
Proof.
  destruct (handleResult_merges_response alertRequest staleAlerts 0 freshAlerts
              ["revision"; "alert"]
              [ {["revision" := 100; "alert" := 5]};
                {["revision" := 150; "alert" := 6]} ] eq_refl eq_refl)
    as (st' & Hst & _).
  exists st'. split; [exact Hst|].
  vm_compute in Hst. injection Hst as <-. vm_compute. reflexivity.
Defined.

(** ** The snapshots and the writes of a run *)

(** The snapshots yielded so far never lost a row from one to the next,
    and the merged array holds the rows of each. *)
Definition growing (st : Generating) : Prop :=
  (∀ (i j : nat) yi yj ri rj, (i ≤ j)%nat →
     yielded st !! i = Some yi → yielded st !! j = Some yj →
     data yi = Some ri → data yj = Some rj → keptRows ri rj) ∧
  (∀ y r, y ∈ yielded st → data y = Some r → keptRows r (mergedData st)) ∧
  (∀ y, y ∈ yielded st → is_Some (data y)).

(** The final result has the data of the last snapshot. *)
Definition lastIsFinal (st : Generating) : Prop :=
  match last (yielded st) with
  | Some y => data y = data (finalResult st)
  | None => data (finalResult st) = None
  end.

(** The writes scheduled so far are for missing timeseries. *)
Definition onlyMissingWritten (times : list Z) (st : Generating) : Prop :=
  ∀ w, w ∈ written st → ∃ t, t ∈ times ∧ w = missingResult t.

Section RunFacts.
Variable req : Request.

(** The three ways of one pass of the loop: the response is skipped, it
    is merged and a snapshot is yielded, or the pass ends with an
    exception (the alerts may have been removed by then). *)
Lemma handleResult_cases (st : Generating) (now : Z)
    (result : option ResultObj) :
  let out := handleResult req st now result in
  (out.2 = None ∧
   mergedData out.1 = mergedData st ∧ finalResult out.1 = finalResult st ∧
   yielded out.1 = yielded st ∧
   (written out.1 = written st ∨
    written out.1 = written st ++ [missingResult now])) ∨
  (out.2 = None ∧
   written out.1 = written st ∧
   yielded out.1 = yielded st ++ [finalResult out.1] ∧
   data (finalResult out.1) = Some (mergedData out.1) ∧
   keptRows (mergedData st) (mergedData out.1)) ∨
  (out.2 ≠ None ∧
   written out.1 = written st ∧ yielded out.1 = yielded st ∧
   keptRows (mergedData st) (mergedData out.1)).
Proof.
  cbv zeta.
  destruct result as [result|];
    [|left; simpl; repeat split; left; reflexivity].
  destruct (data result) as [rows|] eqn:Hrows.
  - destruct (columns result) as [cols|] eqn:Hcols.
    + rewrite (handleResult_merge req st now result cols rows Hcols Hrows).
      right; left. simpl.
      split; [reflexivity|]. split; [reflexivity|]. split; [reflexivity|].
      split; [reflexivity|]. apply merged_keptRows.
    + right; right. unfold handleResult. rewrite Hrows, Hcols.
      rewrite bool_decide_eq_false_2 by discriminate. simpl.
      split; [discriminate|]. split; [reflexivity|]. split; [reflexivity|].
      apply keptRows_refl.
  - unfold handleResult. rewrite Hrows.
    rewrite bool_decide_eq_true_2 by reflexivity. simpl andb.
    destruct (bool_decide (status result = Some HTTP_NOT_FOUND)).
    + left. simpl. repeat split. right. reflexivity.
    + right; right. destruct (columns result) as [cols|]; simpl.
      * rewrite Hrows. simpl.
        split; [discriminate|]. split; [reflexivity|]. split; [reflexivity|].
        destruct (decide _);
          [apply purgeAlerts_keptRows|apply keptRows_refl].
      * split; [discriminate|]. split; [reflexivity|]. split; [reflexivity|].
        apply keptRows_refl.
Qed.
End RunFacts.

Section RunInvariants.
Variable req : Request.

Lemma growing_step (st : Generating) (now : Z) (result : option ResultObj) :
  growing st → growing (handleResult req st now result).1.
Proof.
  intros (Hpairs & Hmerged & Hdata).
  destruct (handleResult_cases req st now result)
    as [(_ & Hm & _ & Hy & _)|[(_ & _ & Hy & Hd & Hkept)|(_ & _ & Hy & Hkept)]];
    cbv zeta in *.
  { unfold growing. rewrite Hm, Hy. auto. }
  - unfold growing. rewrite Hy. split; [|split].
    + intros i j yi yj ri rj Hij Hi Hj Hri Hrj.
      apply lookup_app_Some in Hj as [Hj|[Hlen Hj]].
      * pose proof (lookup_lt_Some _ _ _ Hj) as Hjl.
        rewrite lookup_app_l in Hi by lia. eauto.
      * apply list_lookup_singleton_Some in Hj as [_ <-].
        rewrite Hd in Hrj. injection Hrj as <-.
        apply lookup_app_Some in Hi as [Hi|[_ Hi]].
        -- apply (keptRows_trans _ (mergedData st)); [|assumption].
           eapply Hmerged; [eapply list_elem_of_lookup_2|]; eauto.
        -- apply list_lookup_singleton_Some in Hi as [_ <-].
           rewrite Hd in Hri. injection Hri as <-. apply keptRows_refl.
    + intros y r [Hin|Hin]%elem_of_app Hr.
      * apply (keptRows_trans _ (mergedData st)); eauto.
      * apply list_elem_of_singleton in Hin as ->.
        rewrite Hd in Hr. injection Hr as <-. apply keptRows_refl.
    + intros y [Hin|Hin]%elem_of_app; [auto|].
      apply list_elem_of_singleton in Hin as ->. rewrite Hd. eauto.
  - unfold growing. rewrite Hy. split; [assumption|]. split; [|assumption].
    intros y r Hin Hr. apply (keptRows_trans _ (mergedData st)); eauto.
Qed.

Lemma lastIsFinal_step (st : Generating) (now : Z)
    (result : option ResultObj) :
  lastIsFinal st → (handleResult req st now result).2 = None →
  lastIsFinal (handleResult req st now result).1.
Proof.
  intros Hlast Hnone.
  destruct (handleResult_cases req st now result)
    as [(_ & _ & Hf & Hy & _)|[(_ & _ & Hy & _)|(Hthrown & _)]];
    cbv zeta in *.
  - unfold lastIsFinal. rewrite Hf, Hy. exact Hlast.
  - unfold lastIsFinal. rewrite Hy, last_snoc. reflexivity.
  - contradiction.
Qed.

Lemma onlyMissingWritten_step (times : list Z) (st : Generating) (now : Z)
    (result : option ResultObj) :
  onlyMissingWritten times st → now ∈ times →
  onlyMissingWritten times (handleResult req st now result).1.
Proof.
  intros Hw Hnow.
  destruct (handleResult_cases req st now result)
    as [(_ & _ & _ & _ & [Hwr|Hwr])|[(_ & Hwr & _)|(_ & Hwr & _)]];
    cbv zeta in *; unfold onlyMissingWritten; rewrite Hwr; try assumption.
  intros w [Hin|Hin]%elem_of_app; [auto|].
  apply list_elem_of_singleton in Hin as ->. eauto.
Qed.

Lemma yielded_step (st : Generating) (now : Z) (result : option ResultObj) :
  yielded st `prefix_of` yielded (handleResult req st now result).1.
Proof.
  destruct (handleResult_cases req st now result)
    as [(_ & _ & _ & -> & _)|[(_ & _ & -> & _)|(_ & _ & -> & _)]].
  - reflexivity.
  - apply prefix_app_r. reflexivity.
  - reflexivity.
Qed.

Lemma handleResults_invariants (times : list Z)
    (arrivals : list (Z * option ResultObj)) : ∀ st,
  growing st → lastIsFinal st → onlyMissingWritten times st →
  (∀ arrival, arrival ∈ arrivals → arrival.1 ∈ times) →
  growing (handleResults req st arrivals).1 ∧
  ((handleResults req st arrivals).2 = None →
   lastIsFinal (handleResults req st arrivals).1) ∧
  onlyMissingWritten times (handleResults req st arrivals).1 ∧
  yielded st `prefix_of` yielded (handleResults req st arrivals).1.
Proof.
  induction arrivals as [|[now result] arrivals IH]; intros st Hg Hl Hw Ht;
    simpl.
  - split; [assumption|]. split; [auto|]. split; [assumption|reflexivity].
  - pose proof (growing_step st now result Hg) as Hg1.
    pose proof (lastIsFinal_step st now result Hl) as Hl1.
    assert (Hnow : now ∈ times)
      by apply (Ht (now, result)), list_elem_of_here.
    pose proof (onlyMissingWritten_step times st now result Hw Hnow) as Hw1.
    pose proof (yielded_step st now result) as Hy1.
    destruct (handleResult req st now result) as [st' [message|]];
      simpl in Hg1, Hl1, Hw1, Hy1.
    + simpl. split; [assumption|]. split; [discriminate|].
      split; assumption.
    + destruct (IH st') as (Hg' & Hl' & Hw' & Hp'); auto.
      * intros arrival Ha. apply Ht. apply elem_of_cons. tauto.
      * split; [assumption|]. split; [assumption|]. split; [assumption|].
        etransitivity; eassumption.
Qed.
End RunInvariants.

Section RunOfGenerator.
Variable req : Request.
Variable self : nat.
Variable peers : list Peer.
Variable peerSets : Heap.
Variable memo : TimeseriesSlice → option ResultObj.
Variable network : TimeseriesSlice → nat → HttpResponse.
Variable completion : list (nat * Z).
Variable cacheResult : ResultObj.

Let cached : ResultObj :=
  match data cacheResult with
  | Some _ => deleteAvailableRangeByCol cacheResult
  | None => cacheResult
  end.

Let start : Generating :=
  {| mergedData := default [] (data cacheResult);
     finalResult := setColumns (Some []) cached;
     yielded := cachedPortion cacheResult; written := [] |}.

Lemma start_growing : growing start.
Proof.
  unfold growing, start, cached, cachedPortion. simpl.
  destruct (data cacheResult) as [rows|] eqn:Hrows; simpl.
  - split; [|split].
    + intros i j yi yj ri rj _ Hi Hj Hri Hrj.
      apply list_lookup_singleton_Some in Hi as [_ <-].
      apply list_lookup_singleton_Some in Hj as [_ <-].
      rewrite Hri in Hrj. injection Hrj as <-. apply keptRows_refl.
    + intros y r ->%list_elem_of_singleton. simpl. rewrite Hrows.
      intros [= <-]. apply keptRows_refl.
    + intros y ->%list_elem_of_singleton. simpl. rewrite Hrows. eauto.
  - split; [|split].
    + intros i j yi yj ri rj _ Hi. rewrite lookup_nil in Hi. discriminate.
    + intros y r Hy. apply elem_of_nil in Hy. contradiction.
    + intros y Hy. apply elem_of_nil in Hy. contradiction.
Qed.

Lemma start_lastIsFinal : lastIsFinal start.
Proof.
  unfold lastIsFinal, start, cached, cachedPortion. simpl.
  destruct (data cacheResult) as [rows|] eqn:Hrows; simpl;
    [reflexivity|exact Hrows].
Qed.

Lemma raceAllPromises_times (sliceResponses : list ResultObj) arrival :
  arrival ∈ raceAllPromises completion sliceResponses →
  arrival.1 ∈ completion.*2.
Proof.
  unfold raceAllPromises. intros Ha. apply list_elem_of_omap in Ha as (c & Hc & Ha).
  destruct (sliceResponses !! c.1); simpl in Ha; [|discriminate].
  injection Ha as <-. simpl. apply list_elem_of_fmap. eauto.
Qed.

(** The run in terms of the loop over the arrivals. *)
Lemma generateResults_run (now : Z) :
  let run := generateResults req self peers peerSets memo network completion
               cacheResult now in
  (snapshots run = cachedPortion cacheResult ∧ scheduledWrites run = []) ∨
  ∃ gen, growing gen ∧ onlyMissingWritten completion.*2 gen ∧
         cachedPortion cacheResult `prefix_of` yielded gen ∧
         snapshots run = yielded gen ∧
         ((thrown run ≠ None ∧ scheduledWrites run = written gen) ∨
          (thrown run = None ∧ lastIsFinal gen ∧
           scheduledWrites run
           = written gen ++
             (if hasRows (finalResult gen) then [finalResult gen] else []))).
Proof.
  cbv zeta. unfold generateResults. cbv zeta.
  assert (Hfirst : match data cacheResult with
                   | Some _ => [cached] | None => [] end
                   = cachedPortion cacheResult).
  { unfold cachedPortion, cached. destruct (data cacheResult); reflexivity. }
  fold cached. rewrite Hfirst.
  destruct (recentlyMissing now cached); [left; split; reflexivity|].
  unfold fetchAndMerge. cbv zeta.
  destruct (findInProgressRequest _ _ _) as [st|message];
    [|left; split; reflexivity].
  right.
  set (arrivals := raceAllPromises completion _).
  destruct (handleResults_invariants req completion.*2 arrivals start
              start_growing start_lastIsFinal)
    as (Hg & Hl & Hw & Hp).
  { intros w Hw. apply elem_of_nil in Hw. contradiction. }
  { intros arrival Ha. eapply raceAllPromises_times. exact Ha. }
  fold start.
  destruct (handleResults req start arrivals) as [gen' [message|]];
    simpl in *; exists gen';
    (split; [assumption|]); (split; [assumption|]); (split; [assumption|]);
    (split; [reflexivity|]).
  - left. split; [discriminate|reflexivity].
  - right. split; [reflexivity|]. split; [auto|reflexivity].
Qed.
End RunOfGenerator.

(** X15.  The snapshots of a run: the cached portion comes first; every
    snapshot has data; and from one snapshot to any later one no row is
    lost and no property of a row but possibly its alert (what a property
    holds may change, also to [undefined]). *)
Theorem snapshots_never_lose_rows req self peers peerSets memo network
    completion cacheResult now :
  let run := generateResults req self peers peerSets memo network completion
               cacheResult now in
  cachedPortion cacheResult `prefix_of` snapshots run ∧
  (∀ s, s ∈ snapshots run → is_Some (data s)) ∧
  (∀ (i j : nat) si sj ri rj, (i ≤ j)%nat →
     snapshots run !! i = Some si → snapshots run !! j = Some sj →
     data si = Some ri → data sj = Some rj → keptRows ri rj).
Proof.
  cbv zeta.
  destruct (generateResults_run req self peers peerSets memo network completion
              cacheResult now)
    as [[-> _]|(gen & (Hpairs & _ & Hdata) & _ & Hp & -> & _)].
  - split; [reflexivity|]. unfold cachedPortion.
    destruct (data cacheResult) as [rows|] eqn:Hrows.
    + split.
      * intros s ->%list_elem_of_singleton. simpl. rewrite Hrows. eauto.
      * intros i j si sj ri rj _ Hi Hj Hri Hrj.
        apply list_lookup_singleton_Some in Hi as [_ <-].
        apply list_lookup_singleton_Some in Hj as [_ <-].
        rewrite Hri in Hrj. injection Hrj as <-. apply keptRows_refl.
    + split.
      * intros s Hs. apply elem_of_nil in Hs. contradiction.
      * intros i j si sj ri rj _ Hi. rewrite lookup_nil in Hi. discriminate.
  - auto.
Qed.

(** X16.  The writes of a run: every scheduled write records a missing
    timeseries at the time a response completed, except the last one,
    which is the final result; the final result is written only when the
    run ended without an exception and the result has rows, and its data
    is the data of the last snapshot. *)
Theorem scheduled_writes_of_a_run req self peers peerSets memo network
    completion cacheResult now :
  let run := generateResults req self peers peerSets memo network completion
               cacheResult now in
  ∀ w, w ∈ scheduledWrites run →
    (∃ t, t ∈ completion.*2 ∧ w = missingResult t) ∨
    (thrown run = None ∧ hasRows w = true ∧
     last (scheduledWrites run) = Some w ∧
     ∃ s, last (snapshots run) = Some s ∧ data s = data w).
Proof.
  cbv zeta.
  destruct (generateResults_run req self peers peerSets memo network completion
              cacheResult now)
    as [[_ ->]|(gen & _ & Hw & _ & -> & Hwr)].
  { intros w Hin. apply elem_of_nil in Hin. contradiction. }
  destruct Hwr as [[_ ->]|(Hnone & Hlast & ->)]; [intros w Hin; left; auto|].
  intros w [Hin|Hin]%elem_of_app; [left; auto|].
  destruct (hasRows (finalResult gen)) eqn:Hrows;
    [|apply elem_of_nil in Hin; contradiction].
  apply list_elem_of_singleton in Hin as ->. right.
  split; [assumption|]. split; [assumption|]. split; [apply last_snoc|].
  unfold lastIsFinal in Hlast.
  destruct (last (yielded gen)) as [s|]; [eauto|].
  unfold hasRows in Hrows. rewrite Hlast in Hrows. discriminate.
Qed.

Lemma scheduled_writes_of_a_run_witness :
  let run := generateResults warmRequest 0 [] ∅ (λ _, None)
               (λ _ _, mkResponse 200 "OK" (Some [[50; 7]; [100; 8]]))
               [(0%nat, 7000)]
               (readDatabase_ warmRequest emptyDatabase) 6000 in
  ∃ w, last (scheduledWrites run) = Some w ∧ hasRows w = true.
Proof.
  cbv zeta.
  set (run := generateResults warmRequest 0 [] ∅ (λ _, None)
                (λ _ _, mkResponse 200 "OK" (Some [[50; 7]; [100; 8]]))
                [(0%nat, 7000)]
                (readDatabase_ warmRequest emptyDatabase) 6000).
  assert (Hws : ∃ w, scheduledWrites run = [w] ∧ is_Some (data w))
    by (vm_compute; eexists; split; [reflexivity|eexists; reflexivity]).
  destruct Hws as (w & Hws & Hdata).
  destruct (scheduled_writes_of_a_run warmRequest 0%nat [] ∅ (λ _, None)
              (λ _ _, mkResponse 200 "OK" (Some [[50; 7]; [100; 8]]))
              [(0%nat, 7000)]
              (readDatabase_ warmRequest emptyDatabase) 6000 w)
    as [(t & _ & Hw)|(_ & Hrows & Hlast & _)].
  - fold run. rewrite Hws. apply list_elem_of_here.
  - exfalso. rewrite Hw in Hdata. destruct Hdata as [rows Hrows].
    discriminate.
  - exists w. split; assumption.
Defined.

(** ** What a coalescing pass can change *)

Lemma foldOutcome_preserves {A S} (Inv : S → Prop) (step : S → A → Outcome S)
    (l : list A) :
  (∀ s a s', Inv s → a ∈ l → step s a = Returns s' → Inv s') →
  ∀ s s', Inv s → foldOutcome step s l = Returns s' → Inv s'.
Proof.
  induction l as [|a l IH]; intros Hstep s s' Hs; simpl.
  - intros [= <-]. exact Hs.
  - destruct (step s a) as [s1|message] eqn:Ha; simpl; [|discriminate].
    apply IH.
    + intros s2 b s3 H2 Hb. apply Hstep; [assumption|].
      apply elem_of_cons. tauto.
    + eapply Hstep; eauto. apply list_elem_of_here.
Qed.

Lemma elem_of_sliceSetAdd x y (set : list TimeseriesSlice) :
  y ∈ sliceSetAdd x set ↔ y = x ∨ y ∈ set.
Proof.
  unfold sliceSetAdd. destruct (decide (x ∈ set)) as [Hin|Hnin].
  - split; [tauto|]. intros [->|H]; assumption.
  - rewrite elem_of_app, list_elem_of_singleton. tauto.
Qed.

Section CoalescingPass.
(** The name of this request's database, the live peers, and the state
    when the pass begins. *)
Variable databaseName_ : option string.
Variable peers : list Peer.
Variable st0 : Coalescing.

(** A slice of a live peer with the same database name. *)
Definition peerSlice (s : TimeseriesSlice) : Prop :=
  ∃ other, other ∈ peers ∧ peerDatabaseName_ other = databaseName_ ∧
           s ∈ peerSlices other.

(** What the pass may have done when it is in state [st]. *)
Definition onlyDropped (st : Coalescing) : Prop :=
  sublist (slices st) (slices st0) ∧
  (∀ s, s ∈ matchingSlices st0 → s ∈ matchingSlices st) ∧
  (∀ s, s ∈ matchingSlices st → s ∈ matchingSlices st0 ∨ peerSlice s) ∧
  (∀ owner, sublist (setContents (heap st) owner)
                    (setContents (heap st0) owner)) ∧
  (∀ owner, "revision" ∈ setContents (heap st0) owner →
            "revision" ∈ setContents (heap st) owner) ∧
  (∀ owner, (∀ s, s ∈ slices st0 → sliceColumns s ≠ ColumnSet owner) →
            heap st !! owner = heap st0 !! owner).

Lemma onlyDropped_start : onlyDropped st0.
Proof. repeat split; auto. Qed.

Lemma setContents_insert (h : Heap) (owner owner' : nat) (set : list string) :
  setContents (<[owner := set]> h) owner'
  = if decide (owner = owner') then set else setContents h owner'.
Proof.
  unfold setContents. rewrite lookup_insert.
  destruct (decide (owner = owner')); reflexivity.
Qed.

Lemma dropSharedColumn_onlyDropped (slice otherSlice : TimeseriesSlice)
    (st st' : Coalescing) (col : string) :
  slice ∈ slices st0 → peerSlice otherSlice → onlyDropped st →
  dropSharedColumn slice otherSlice st col = Returns st' → onlyDropped st'.
Proof.
  intros Hslice Hpeer Hst. unfold dropSharedColumn.
  destruct (decide (col = "revision")) as [Hrev|Hrev];
    [intros [= <-]; assumption|].
  destruct (columnsHas _ _ _) as [[|]|message]; simpl;
    [|intros [= <-]; assumption|discriminate].
  destruct (sliceColumns slice) as [cols|owner] eqn:Hcols; simpl;
    [discriminate|].
  intros [= <-]. destruct Hst as (H1 & H2 & H3 & H4 & H5 & H6).
  unfold onlyDropped. simpl. split; [assumption|].
  split; [|split; [|split; [|split]]].
  - intros s Hs. apply elem_of_sliceSetAdd. right. auto.
  - intros s [->|Hs]%elem_of_sliceSetAdd; [right; assumption|auto].
  - intros owner'. rewrite setContents_insert.
    destruct (decide (owner = owner')) as [<-|_]; [|apply H4].
    etransitivity; [apply sublist_filter|apply H4].
  - intros owner' Hin. rewrite setContents_insert.
    destruct (decide (owner = owner')) as [<-|_]; [|auto].
    apply elem_of_setDelete. split; [auto|congruence].
  - intros owner' Hno. rewrite lookup_insert_ne; [auto|].
    intros <-. apply (Hno slice Hslice Hcols).
Qed.

Lemma compareSlices_onlyDropped (slice otherSlice : TimeseriesSlice)
    (st st' : Coalescing) :
  slice ∈ slices st0 → peerSlice otherSlice → onlyDropped st →
  compareSlices slice st otherSlice = Returns st' → onlyDropped st'.
Proof.
  intros Hslice Hpeer Hst. unfold compareSlices. cbv zeta.
  destruct (decide _); [intros [= <-]; assumption|].
  destruct (foldOutcome _ st _) as [st1|message] eqn:Hfold; simpl;
    [|discriminate].
  assert (H1 : onlyDropped st1).
  { revert Hfold. apply foldOutcome_preserves; [|assumption].
    intros s col s' Hs _. apply dropSharedColumn_onlyDropped; assumption. }
  destruct (columnsSizeIsOne _ _); intros [= <-]; [|assumption].
  destruct H1 as (H1 & H2 & H3 & H4 & H5 & H6).
  unfold onlyDropped. simpl. repeat split; try assumption.
  etransitivity; [apply sublist_filter|exact H1].
Qed.

Lemma coalesceWith_onlyDropped (other : Peer) (st st' : Coalescing) :
  other ∈ peers → onlyDropped st →
  coalesceWith databaseName_ st other = Returns st' → onlyDropped st'.
Proof.
  intros Hother Hst. unfold coalesceWith.
  destruct (decide _) as [Hne|Heq]; [intros [= <-]; assumption|].
  assert (Hname : peerDatabaseName_ other = databaseName_).
  { destruct (decide (peerDatabaseName_ other = databaseName_)); tauto. }
  apply foldOutcome_preserves; [|assumption].
  intros s slice s' Hs Hslice.
  apply foldOutcome_preserves; [|assumption].
  intros s1 otherSlice s2 Hs1 Hin.
  apply compareSlices_onlyDropped; [|exists other; auto|assumption].
  destruct Hst as (Hsub & _). eapply elem_of_sublist; eauto.
Qed.

Lemma findInProgressRequest_onlyDropped (st' : Coalescing) :
  findInProgressRequest databaseName_ peers st0 = Returns st' →
  onlyDropped st'.
Proof.
  unfold findInProgressRequest.
  apply foldOutcome_preserves; [|apply onlyDropped_start].
  intros s other s' Hs Hother. apply coalesceWith_onlyDropped; assumption.
Qed.

Lemma findInProgressRequest_strangers :
  (∀ other, other ∈ peers → peerDatabaseName_ other ≠ databaseName_) →
  findInProgressRequest databaseName_ peers st0 = Returns st0.
Proof.
  unfold findInProgressRequest. generalize st0.
  induction peers as [|other rest IH]; intros st Hall; [reflexivity|].
  rewrite foldOutcome_cons.
  assert (Hstep : coalesceWith databaseName_ st other = Returns st).
  { unfold coalesceWith.
    destruct (decide (peerDatabaseName_ other ≠ databaseName_)) as [_|Heq];
      [reflexivity|].
    exfalso. apply Heq, Hall, list_elem_of_here. }
  rewrite Hstep, bind_Returns.
  apply IH. intros o Ho. apply Hall. apply elem_of_cons. tauto.
Qed.
End CoalescingPass.

(** X17.  A coalescing pass that ends without an exception only drops:
    the slices left are slices that were planned, in their order; the
    borrowed slices are those borrowed before and slices of live peers
    with the same database name; every Set of columns holds only columns
    it held before and keeps 'revision'; and the Set of a request whose
    Set no planned slice holds (any peer's) is not changed.  Live peers
    with other database names change nothing at all. *)
Theorem coalescing_pass_only_drops (databaseName_ : option string)
    (peers : list Peer) (st st' : Coalescing) :
  findInProgressRequest databaseName_ peers st = Returns st' →
  sublist (slices st') (slices st) ∧
  (∀ s, s ∈ matchingSlices st → s ∈ matchingSlices st') ∧
  (∀ s, s ∈ matchingSlices st' →
        s ∈ matchingSlices st ∨ peerSlice databaseName_ peers s) ∧
  (∀ owner, sublist (setContents (heap st') owner)
                    (setContents (heap st) owner)) ∧
  (∀ owner, "revision" ∈ setContents (heap st) owner →
            "revision" ∈ setContents (heap st') owner) ∧
  (∀ owner, (∀ s, s ∈ slices st → sliceColumns s ≠ ColumnSet owner) →
            heap st' !! owner = heap st !! owner) ∧
  ((∀ other, other ∈ peers → peerDatabaseName_ other ≠ databaseName_) →
   st' = st).
Proof.
  intros Hpass.
  destruct (findInProgressRequest_onlyDropped databaseName_ peers st st' Hpass)
    as (H1 & H2 & H3 & H4 & H5 & H6).
  repeat (split; [assumption|]).
  intros Hall.
  rewrite (findInProgressRequest_strangers databaseName_ peers st Hall)
    in Hpass.
  congruence.
Qed.

Lemma coalescing_pass_only_drops_witness :
  let st := {| heap := {[ 0%nat := ["revision"; "avg"; "std"];
                          1%nat := ["revision"; "avg"] ]};
               slices := [avgSlice 0 0 0 100];
               matchingSlices := [] |} in
  ∃ st', findInProgressRequest timeseriesName
           [ {| peerDatabaseName_ := timeseriesName;
                peerSlices := [avgSlice 1 0 0 200] |} ] st = Returns st' ∧
         sublist (slices st') [avgSlice 0 0 0 100] ∧
         heap st' !! 1%nat = Some ["revision"; "avg"].
Proof.
  cbv zeta. eexists. split; [vm_compute; reflexivity|].
  match goal with
  | |- sublist (slices ?s') _ ∧ _ =>
      destruct (coalescing_pass_only_drops timeseriesName
                  [ {| peerDatabaseName_ := timeseriesName;
                       peerSlices := [avgSlice 1 0 0 200] |} ]
                  {| heap := {[ 0%nat := ["revision"; "avg"; "std"];
                                1%nat := ["revision"; "avg"] ]};
                     slices := [avgSlice 0 0 0 100];
                     matchingSlices := [] |} s')
        as (Hsub & _ & _ & _ & _ & Hheap & _)
  end.
  - vm_compute. reflexivity.
  - split; [exact Hsub|]. rewrite Hheap; [vm_compute; reflexivity|].
    intros s ->%list_elem_of_singleton. discriminate.
Defined.

(** ** The request that a slice sends *)

(** [columns.join(',')]. *)
Fixpoint joinComma (l : list string) : string :=
  match l with
  | [] => ""
  | [x] => x
  | x :: rest => x +:+ "," +:+ joinComma rest
  end.

(** [String(n)] for an integer. *)
Definition numberToString (n : Z) : string := pretty n.

(** The form that [fetch_] builds.  The slice has the fields that
    [createSlice_] copied from the request [req]; [columns] is
    [[...this.columns]] when the fetch starts. *)
Definition fetchBody (req : Request) (columns : list string)
    (revisionRange : Range.t) : FormData :=
  [ ("test_suite", testSuite_ req); ("measurement", measurement_ req);
    ("bot", bot_ req); ("columns", joinComma columns);
    ("statistic", statistic_ req) ]
  ++ (if decide (buildType_ req = "") then []
      else [("build_type", buildType_ req)])
  ++ (if decide (testCase_ req = "") then []
      else [("test_case", testCase_ req)])
  ++ match Range.min revisionRange with
     | Some minRevision =>
         if decide (minRevision = 0) then []
         else [("min_revision", numberToString minRevision)]
     | None => []
     end
  ++ match Range.max revisionRange with
     | Some maxRevision =>
         if decide (maxRevision < MAX_SAFE_INTEGER)
         then [("max_revision", numberToString maxRevision)]
         else []
     | None => []
     end.

(** No character of the string is a comma. *)
Fixpoint noComma (s : string) : Prop :=
  match s with
  | EmptyString => True
  | String c rest => c ≠ ","%char ∧ noComma rest
  end.

Lemma splitComma_inhabited (s : string) : splitComma s ≠ [].
Proof.
  induction s as [|c s IH]; simpl; [discriminate|].
  destruct (decide (c = ","%char)); [discriminate|].
  destruct (splitComma s); discriminate.
Qed.

Lemma splitComma_noComma (x : string) : noComma x → splitComma x = [x].
Proof.
  induction x as [|c x IH]; simpl; [reflexivity|].
  intros [Hc Hx]. destruct (decide (c = ","%char)); [contradiction|].
  rewrite (IH Hx). reflexivity.
Qed.

Lemma splitComma_app_comma (x rest : string) :
  noComma x → splitComma (x +:+ "," +:+ rest) = x :: splitComma rest.
Proof.
  induction x as [|c x IH]; simpl.
  - reflexivity.
  - intros [Hc Hx]. destruct (decide (c = ","%char)); [contradiction|].
    rewrite (IH Hx). reflexivity.
Qed.

Lemma splitComma_joinComma (l : list string) :
  l ≠ [] → Forall noComma l → splitComma (joinComma l) = l.
Proof.
  induction l as [|x l IH]; [congruence|]. intros _ Hall.
  apply Forall_cons in Hall as [Hx Hall].
  destruct l as [|y l]; [apply splitComma_noComma, Hx|].
  change (joinComma (x :: y :: l)) with (x +:+ "," +:+ joinComma (y :: l)).
  rewrite splitComma_app_comma by assumption.
  f_equal. apply IH; [discriminate|assumption].
Qed.

Lemma digitValue_pretty_N_char (d : N) :
  (d < 10)%N → digitValue (pretty_N_char d) = Some (Z.of_N d).
Proof.
  intros Hd.
  assert (d = 0 ∨ d = 1 ∨ d = 2 ∨ d = 3 ∨ d = 4 ∨ d = 5 ∨ d = 6 ∨ d = 7 ∨
          d = 8 ∨ d = 9)%N as H by lia.
  repeat (destruct H as [->|H]; [reflexivity|]). subst d. reflexivity.
Qed.

Lemma readDigits_digit (d : N) (acc : option Z) (s : string) :
  (d < 10)%N →
  readDigits 10 acc (String (pretty_N_char d) s)
  = readDigits 10 (Some (default 0 acc * 10 + Z.of_N d)) s.
Proof.
  intros Hd. cbn [readDigits]. rewrite (digitValue_pretty_N_char d Hd).
  rewrite bool_decide_eq_true_2 by lia. reflexivity.
Qed.

(** The decimal digits of a positive number, most significant first,
    begin with a digit that is not 0 and are read back as the number. *)
Lemma readDigits_pretty_N_go (x : N) :
  (0 < x)%N → ∀ s : string,
  (∃ d rest, (1 ≤ d < 10)%N ∧ pretty_N_go x s = String (pretty_N_char d) rest) ∧
  ∃ k : Z, 0 ≤ k ∧ ∀ acc,
    readDigits 10 acc (pretty_N_go x s)
    = readDigits 10 (Some (default 0 acc * 10 ^ k + Z.of_N x)) s.
Proof.
  induction (N.lt_wf_0 x) as [x _ IH]. intros Hx s.
  rewrite pretty_N_go_step by assumption.
  assert (Hmod : (x `mod` 10 < 10)%N) by (apply N.mod_lt; lia).
  destruct (decide (x `div` 10 = 0)%N) as [Hz|Hnz].
  - rewrite Hz, pretty_N_go_0.
    assert (Hsmall : (x `mod` 10 = x)%N).
    { apply N.mod_small. apply N.div_small_iff in Hz; lia. }
    rewrite Hsmall in *. split.
    + exists x, s. split; [lia|reflexivity].
    + exists 1. split; [lia|]. intros acc.
      rewrite readDigits_digit by assumption. rewrite Z.pow_1_r. reflexivity.
  - destruct (IH (x `div` 10)%N) with
      (s := String (pretty_N_char (x `mod` 10)) s)
      as [Hhead (k & Hk & Hread)].
    + apply N.div_lt; lia.
    + apply N.neq_0_lt_0. exact Hnz.
    + split; [exact Hhead|].
      exists (k + 1). split; [lia|]. intros acc.
      rewrite Hread, readDigits_digit by assumption. simpl default.
      pose proof (N.div_mod x 10 ltac:(lia)) as Hdm.
      assert (Hx10 : Z.of_N x
                     = 10 * Z.of_N (x `div` 10) + Z.of_N (x `mod` 10)) by lia.
      replace ((default 0 acc * 10 ^ k + Z.of_N (x `div` 10)) * 10
               + Z.of_N (x `mod` 10))
        with (default 0 acc * 10 ^ (k + 1) + Z.of_N x); [reflexivity|].
      rewrite Z.pow_add_r, Hx10 by lia. lia.
Qed.

(** [parseInt] reads the decimal form of a positive integer back. *)
Lemma parseInt_numberToString (n : Z) :
  0 < n → parseInt (Some (numberToString n)) = Some n.
Proof.
  intros Hn. destruct n as [|p|p]; try lia.
  change (numberToString (Z.pos p)) with (pretty_N_go (N.pos p) "").
  destruct (readDigits_pretty_N_go (N.pos p) ltac:(lia) "")
    as [(d & rest & Hd & Hhead) (k & Hk & Hread)].
  specialize (Hread None). rewrite Hhead in Hread.
  unfold parseInt. rewrite Hhead.
  assert (d = 1 ∨ d = 2 ∨ d = 3 ∨ d = 4 ∨ d = 5 ∨ d = 6 ∨ d = 7 ∨
          d = 8 ∨ d = 9)%N as H by lia.
  assert (Hvalue : (λ m, 1 * m) <$> Some (default 0 None * 10 ^ k + Z.pos p)
                   = Some (Z.pos p)) by (simpl; f_equal; lia).
  repeat (destruct H as [->|H];
          [simpl; simpl in Hread; rewrite Hread; exact Hvalue|]).
  subst d. simpl. simpl in Hread. rewrite Hread. exact Hvalue.
Qed.

Lemma orDefault_Some_empty (s : string) : orDefault (Some s) "" = s.
Proof. destruct s; reflexivity. Qed.

Section FetchBody.
Variable req : Request.
Variable cols : list string.
Variable lo hi : Z.

Let body : FormData := fetchBody req cols (Range.Interval lo hi).

Lemma fetchBody_fields :
  formGet body "columns" = Some (joinComma cols) ∧
  formGet body "test_suite" = Some (testSuite_ req) ∧
  formGet body "measurement" = Some (measurement_ req) ∧
  formGet body "bot" = Some (bot_ req) ∧
  formGet body "statistic" = Some (statistic_ req) ∧
  orDefault (formGet body "build_type") "" = buildType_ req ∧
  orDefault (formGet body "test_case") "" = testCase_ req ∧
  formGet body "min_revision"
    = (if decide (lo = 0) then None else Some (numberToString lo)) ∧
  formGet body "max_revision"
    = (if decide (hi < MAX_SAFE_INTEGER) then Some (numberToString hi)
       else None).
Proof.
  subst body. unfold fetchBody. simpl Range.min. simpl Range.max.
  destruct (decide (buildType_ req = "")) as [Hb|Hb];
    destruct (decide (testCase_ req = "")) as [Ht|Ht];
    destruct (decide (lo = 0)); destruct (decide (hi < MAX_SAFE_INTEGER));
    repeat split; try reflexivity;
    try (symmetry; assumption);
    try (cbn; destruct (buildType_ req); [contradiction|reflexivity]);
    try (cbn; destruct (testCase_ req); [contradiction|reflexivity]).
Qed.

Lemma fetchBody_minRevision : 0 ≤ lo → minRevisionOf body = lo.
Proof.
  intros Hlo. unfold minRevisionOf.
  destruct fetchBody_fields as (_ & _ & _ & _ & _ & _ & _ & -> & _).
  destruct (decide (lo = 0)) as [->|Hne]; [reflexivity|].
  rewrite parseInt_numberToString by lia.
  destruct lo; try lia; reflexivity.
Qed.

Lemma fetchBody_maxRevision :
  0 < hi → hi ≤ MAX_SAFE_INTEGER → maxRevisionOf body = hi.
Proof.
  intros Hpos Hhi. unfold maxRevisionOf.
  destruct fetchBody_fields as (_ & _ & _ & _ & _ & _ & _ & _ & ->).
  destruct (decide (hi < MAX_SAFE_INTEGER)) as [Hlt|Hge].
  - rewrite parseInt_numberToString by lia.
    destruct hi; try lia; reflexivity.
  - simpl. lia.
Qed.
End FetchBody.

(** X18.  The request that a slice sends is read back by the parser of
    the cache as the slice's own parameters: for a slice with at least
    one column, column names without a comma and a revision range
    [lo, hi] with 0 <= lo <= hi, 0 < hi <= Number.MAX_SAFE_INTEGER, the
    form built by [fetch_] is parsed by [parseRequest_] into the columns
    and the range of the slice and the descriptor of its request, so
    that it names the same database. *)
Theorem slice_request_parses_back (req : Request) (cols : list string)
    (lo hi : Z) :
  cols ≠ [] → Forall noComma cols →
  0 ≤ lo ≤ hi → 0 < hi ≤ MAX_SAFE_INTEGER →
  ∃ parsed, parseRequest_ (fetchBody req cols (Range.Interval lo hi))
            = Some parsed ∧
    columns_ parsed = cols ∧
    revisionRange_ parsed = Range.Interval lo hi ∧
    testSuite_ parsed = testSuite_ req ∧
    measurement_ parsed = measurement_ req ∧
    bot_ parsed = bot_ req ∧
    testCase_ parsed = testCase_ req ∧
    buildType_ parsed = buildType_ req ∧
    statistic_ parsed = orDefault (Some (statistic_ req)) "avg" ∧
    databaseName parsed = databaseName req.
Proof.
  intros Hne Hcomma Hlo Hhi.
  destruct (fetchBody_fields req cols lo hi)
    as (Hc & Hs & Hm & Hb & Hst & Hbt & Htc & _).
  unfold parseRequest_, formHas. rewrite Hc.
  rewrite bool_decide_eq_true_2 by eauto. simpl negb. cbv iota.
  eexists. split; [reflexivity|].
  unfold databaseName.
  cbn [columns_ revisionRange_ testSuite_ measurement_ bot_ testCase_
       buildType_ statistic_ default].
  rewrite Hs, Hm, Hb, Hst, Hbt, Htc, !orDefault_Some_empty.
  rewrite fetchBody_minRevision, fetchBody_maxRevision by lia.
  split; [apply splitComma_joinComma; assumption|].
  split; [simpl; f_equal; lia|].
  repeat (split; [reflexivity|]). reflexivity.
Qed.

Lemma slice_request_parses_back_witness :
  (revisionRange_ <$> parseRequest_
     (fetchBody warmRequest ["revision"; "avg"] (Range.Interval 100 200)))
  = Some (Range.Interval 100 200).
Proof.
  destruct (slice_request_parses_back warmRequest ["revision"; "avg"] 100 200)
    as (parsed & Hparsed & _ & Hrange & _).
  - discriminate.
  - repeat constructor; discriminate.
  - lia.
  - unfold MAX_SAFE_INTEGER. lia.
  - rewrite Hparsed. simpl. rewrite Hrange. reflexivity.
Defined.

(** A slice over [0, 0] is not read back: its request carries
    [max_revision=0], which the parser takes as absent. *)
Example slice_request_zero_range :
  (revisionRange_ <$> parseRequest_
     (fetchBody warmRequest ["revision"; "avg"] (Range.Interval 0 0)))
  = Some (Range.Interval 0 MAX_SAFE_INTEGER).
Proof. vm_compute. reflexivity. Qed.

(** ** Database names and slice descriptors *)

(** [TimeseriesSlice.intersects], on the fields that [createSlice_]
    copies from the requests of the two slices.  [None] is [undefined]:
    the method ends without a [return] when no field differs. *)
Definition intersects (this other : Request) : option bool :=
  if decide (testSuite_ this ≠ testSuite_ other) then Some false
  else if decide (bot_ this ≠ bot_ other) then Some false
  else if decide (measurement_ this ≠ measurement_ other) then Some false
  else if decide (testCase_ this ≠ testCase_ other) then Some false
  else if decide (buildType_ this ≠ buildType_ other) then Some false
  else None.

(** No character of the string is a slash. *)
Fixpoint noSlash (s : string) : Prop :=
  match s with
  | EmptyString => True
  | String c rest => c ≠ "/"%char ∧ noSlash rest
  end.

Lemma append_String (c : ascii) (a b : string) :
  String c a +:+ b = String c (a +:+ b).
Proof. reflexivity. Qed.

Lemma append_Empty (b : string) : "" +:+ b = b.
Proof. reflexivity. Qed.

Lemma app_slash_inj (a a' b b' : string) :
  noSlash a → noSlash a' →
  a +:+ String "/" b = a' +:+ String "/" b' → a = a' ∧ b = b'.
Proof.
  revert a'. induction a as [|c a IH]; intros [|c' a'];
    rewrite ?append_String, ?append_Empty; simpl noSlash.
  - intros _ _ [= ->]. split; reflexivity.
  - intros _ [Hc _] [= <-]. contradiction.
  - intros [Hc _] _ [= ->]. contradiction.
  - intros [_ Ha] [_ Ha'] [= -> Heq].
    destruct (IH a' Ha Ha' Heq) as [-> ->]. split; reflexivity.
Qed.

Lemma databaseName_fields (a b : Request) :
  noSlash (testSuite_ a) → noSlash (testSuite_ b) →
  noSlash (measurement_ a) → noSlash (measurement_ b) →
  noSlash (bot_ a) → noSlash (bot_ b) →
  noSlash (testCase_ a) → noSlash (testCase_ b) →
  databaseName a = databaseName b →
  testSuite_ a = testSuite_ b ∧ measurement_ a = measurement_ b ∧
  bot_ a = bot_ b ∧ testCase_ a = testCase_ b ∧ buildType_ a = buildType_ b.
Proof.
  intros Hs Hs' Hm Hm' Hb Hb' Hc Hc'. unfold databaseName.
  rewrite !append_String, !append_Empty.
  intros [= Heq].
  apply app_slash_inj in Heq as [H1 Heq]; [|assumption..].
  apply app_slash_inj in Heq as [H2 Heq]; [|assumption..].
  apply app_slash_inj in Heq as [H3 Heq]; [|assumption..].
  apply app_slash_inj in Heq as [H4 H5]; [|assumption..].
  auto.
Qed.

(** X19.  Database names and descriptors: requests whose five descriptor
    fields agree have the same database name, and [intersects] of their
    slices ends without a value exactly then (it answers [false] or
    nothing, never [true]); when test suite, measurement, bot and test
    case hold no slash, requests with the same database name have the
    same five fields. *)
Theorem databaseName_descriptor (a b : Request) :
  intersects a b ≠ Some true ∧
  (intersects a b = None ↔
   testSuite_ a = testSuite_ b ∧ measurement_ a = measurement_ b ∧
   bot_ a = bot_ b ∧ testCase_ a = testCase_ b ∧
   buildType_ a = buildType_ b) ∧
  (intersects a b = None → databaseName a = databaseName b) ∧
  (noSlash (testSuite_ a) → noSlash (testSuite_ b) →
   noSlash (measurement_ a) → noSlash (measurement_ b) →
   noSlash (bot_ a) → noSlash (bot_ b) →
   noSlash (testCase_ a) → noSlash (testCase_ b) →
   databaseName a = databaseName b → intersects a b = None).
Proof.
  assert (Hiff : intersects a b = None ↔
            testSuite_ a = testSuite_ b ∧ measurement_ a = measurement_ b ∧
            bot_ a = bot_ b ∧ testCase_ a = testCase_ b ∧
            buildType_ a = buildType_ b).
  { unfold intersects.
    repeat (destruct (decide (_ ≠ _)) as [?|?%dec_stable];
            [split; [discriminate|tauto]|]).
    split; [auto|reflexivity]. }
  split; [|split; [exact Hiff|split]].
  - unfold intersects. repeat (destruct (decide _); [discriminate|]).
    discriminate.
  - intros (H1 & H2 & H3 & H4 & H5)%Hiff. unfold databaseName.
    rewrite H1, H2, H3, H4, H5. reflexivity.
  - intros. apply Hiff. apply databaseName_fields; assumption.
Qed.

(** With a slash in a field, different descriptors share a database. *)
Example databaseName_collision :
  let a := {| body_ := []; columns_ := []; revisionRange_ := Range.Empty;
              testSuite_ := "v8/sub"; measurement_ := "time"; bot_ := "linux";
              statistic_ := "avg"; testCase_ := ""; buildType_ := "" |} in
  let b := {| body_ := []; columns_ := []; revisionRange_ := Range.Empty;
              testSuite_ := "v8"; measurement_ := "sub/time"; bot_ := "linux";
              statistic_ := "avg"; testCase_ := ""; buildType_ := "" |} in
  databaseName a = databaseName b ∧ intersects a b = Some false.
Proof. split; reflexivity. Qed.

(** ** The rows of a response *)





(** A column name given twice holds the later cell, and a cell that the
    row lacks leaves a property that holds [undefined]. *)
Example normalize_repeated_and_short :
  normalizeRow ["revision"; "avg"; "avg"] [10; 7; 8]
    = {["revision" := 10; "avg" := 8]} ∧
  normalizeRow ["revision"; "avg"] [10] !! "avg" = None ∧
  hasOwn (normalizeRow ["revision"; "avg"] [10]) "avg".
Proof.
  split; [vm_compute; reflexivity|]. split; [reflexivity|].
  vm_compute. eauto.
Qed.



(** * The rows of a slice group track *)

(** [SliceGroupTrack.buildSubRows_] (slice_group_track, in the file of
    the loading wrapper).  The slices are objects of the tracing model,
    which is not among the sources: a slice is taken with its [start]
    (a time; only the order of the times is used, they are integers
    here), whether it has a [subSlices] array, and the answer of
    [insertedSlice.bounds(slice, precisionUnit)]. *)
Section SliceGroupTrack.
Variable Slice : Type.
Variable start : Slice → Z.
Variable hasSubSlices : Slice → bool.
Variable bounds : Slice → Slice → bool.

(** A slice with its index in [slices], which is what [ops] holds and
    what tells two equal slices apart. *)
Definition Op : Type := nat * Slice.

(** The order of [ops.sort]: by start, ties by index. *)
Definition opLe (x y : Op) : Prop :=
  start x.2 < start y.2 ∨ (start x.2 = start y.2 ∧ (x.1 ≤ y.1)%nat).

#[global] Instance opLe_dec : RelDecision opLe.
Proof. intros x y. unfold opLe. apply _. Defined.

#[global] Instance opLe_trans : Transitive opLe.
Proof. intros x y z. unfold opLe. lia. Qed.

#[global] Instance opLe_total : Total opLe.
Proof. intros x y. unfold opLe. lia. Qed.

(** The variables of the loop: [subRows], [this.badSlices_], and the
    [subSlices] arrays of the slices that have one, by index. *)
Record SubRows : Type := {
  subRows : list (list Op);
  badSlices_ : list Op;
  subSlices : gmap nat (list Op);
}.

(** [while (subRows.length <= j) subRows.push([]); subRows[j].push(slice)]. *)
Definition pushTo (j : nat) (slice : Op) (rows : list (list Op))
  : list (list Op) :=
  alter (λ row, row ++ [slice]) j
        (rows ++ replicate (S j - length rows) []).

(** The slice goes to row [j + 1], under [insertedSlice]. *)
Definition placeUnder (j : nat) (insertedSlice slice : Op) (st : SubRows)
  : SubRows :=
  {| subRows := pushTo (S j) slice (subRows st);
     badSlices_ := badSlices_ st;
     subSlices :=
       if hasSubSlices insertedSlice.2
       then alter (λ children, children ++ [slice]) insertedSlice.1
                  (subSlices st)
       else subSlices st |}.

(** [for (let j = k - 1; j >= 0; j--)]: the rows from the deepest one
    up; the result says whether [inserted] is set. *)
Fixpoint tryRows (slice : Op) (k : nat) (st : SubRows) (inserted : bool)
  : SubRows * bool :=
  match k with
  | O => (st, inserted)
  | S j =>
      match last (default [] (subRows st !! j)) with
      | None => tryRows slice j st inserted
      | Some insertedSlice =>
          let '(st, inserted) :=
            if decide (start slice.2 < start insertedSlice.2)
            then ({| subRows := subRows st;
                     badSlices_ := badSlices_ st ++ [slice];
                     subSlices := subSlices st |}, true)
            else (st, inserted) in
          if bounds insertedSlice.2 slice.2
          then (placeUnder j insertedSlice slice st, true)
          else tryRows slice j st inserted
      end
  end.

(** One turn of the loop over [ops]. *)
Definition placeSlice (st : SubRows) (slice : Op) : SubRows :=
  let '(st', inserted) := tryRows slice (length (subRows st)) st false in
  if inserted then st'
  else {| subRows := pushTo 0 slice (subRows st');
          badSlices_ := badSlices_ st'; subSlices := subSlices st' |}.

Definition indexed (slices : list Slice) : list Op := imap (λ i s, (i, s)) slices.

(** [buildSubRows_(slices)].  [None]: the array is empty and the method
    returns [[]] at once, without touching [this.badSlices_]. *)
Definition buildSubRows_ (slices : list Slice) : option SubRows :=
  match slices with
  | [] => None
  | _ =>
      let ops := merge_sort opLe (indexed slices) in
      let cleared : gmap nat (list Op) :=
        list_to_map
          (omap (λ op : Op, if hasSubSlices op.2 then Some (op.1, []) else None)
                (indexed slices)) in
      Some (foldl placeSlice
                  {| subRows := [[]]; badSlices_ := []; subSlices := cleared |}
                  ops)
  end.

(** *** Every slice is placed once, under a slice that bounds it *)

(** [x] is in row [j]. *)
Definition placed (rows : list (list Op)) (j : nat) (x : Op) : Prop :=
  ∃ row, rows !! j = Some row ∧ x ∈ row.

Lemma placed_concat rows j x : placed rows j x → x ∈ concat rows.
Proof.
  intros (row & Hrow & Hx). revert j Hrow.
  induction rows as [|row0 rows IH]; intros j Hrow.
  - rewrite lookup_nil in Hrow. discriminate.
  - simpl. apply elem_of_app. destruct j as [|j]; simpl in Hrow.
    + injection Hrow as ->. tauto.
    + right. eauto.
Qed.

Lemma concat_alter_snoc (x : Op) (rows : list (list Op)) : ∀ j,
  (j < length rows)%nat →
  concat (alter (λ row, row ++ [x]) j rows) ≡ₚ x :: concat rows.
Proof.
  unfold alter.
  induction rows as [|row rows IH]; intros j Hj; simpl in Hj; [lia|].
  destruct j as [|j]; simpl.
  - rewrite <- app_assoc. simpl. symmetry. apply Permutation_middle.
  - rewrite IH by lia. symmetry. apply Permutation_middle.
Qed.

Lemma concat_replicate_nil (n : nat) : concat (replicate n (@nil Op)) = [].
Proof. induction n; simpl; auto. Qed.

Lemma pushTo_concat j x rows : concat (pushTo j x rows) ≡ₚ x :: concat rows.
Proof.
  unfold pushTo. rewrite concat_alter_snoc.
  - rewrite concat_app, concat_replicate_nil, app_nil_r. reflexivity.
  - rewrite length_app, length_replicate. lia.
Qed.

Lemma pushTo_lookup j x rows j' :
  (j ≤ length rows)%nat →
  pushTo j x rows !! j'
  = if decide (j' = j) then Some (default [] (rows !! j) ++ [x])
    else rows !! j'.
Proof.
  intros Hj. unfold pushTo.
  destruct (decide (j' = j)) as [->|Hne].
  - rewrite list_lookup_alter_eq.
    destruct (decide (j < length rows)%nat) as [Hlt|Hge].
    + rewrite lookup_app_l by assumption.
      destruct (lookup_lt_is_Some_2 rows j Hlt) as [row ->]. reflexivity.
    + assert (j = length rows) by lia. subst j.
      rewrite lookup_app_r by lia.
      rewrite (lookup_ge_None_2 rows) by lia.
      replace (S (length rows) - length rows)%nat with 1%nat by lia.
      rewrite Nat.sub_diag. reflexivity.
  - rewrite list_lookup_alter_ne by congruence.
    destruct (decide (j' < length rows)%nat) as [Hlt|Hge].
    + apply lookup_app_l. assumption.
    + rewrite (lookup_ge_None_2 rows) by lia.
      apply lookup_ge_None_2. rewrite length_app, length_replicate. lia.
Qed.

Lemma placed_pushTo j x rows j' y :
  (j ≤ length rows)%nat →
  placed (pushTo j x rows) j' y ↔ (j' = j ∧ y = x) ∨ placed rows j' y.
Proof.
  intros Hj. unfold placed. rewrite pushTo_lookup by assumption.
  destruct (decide (j' = j)) as [->|Hne].
  - split.
    + intros (row & [= <-] & Hy). apply elem_of_app in Hy as [Hy|Hy].
      * right. destruct (rows !! j) as [row|]; simpl in Hy; [eauto|].
        apply elem_of_nil in Hy. contradiction.
      * left. apply list_elem_of_singleton in Hy. auto.
    + intros [[_ ->]|(row & Hrow & Hy)].
      * eexists. split; [reflexivity|]. apply elem_of_app. right.
        apply list_elem_of_here.
      * eexists. split; [reflexivity|]. rewrite Hrow. simpl.
        apply elem_of_app. tauto.
  - split; [tauto|]. intros [[? _]|H]; [contradiction|exact H].
Qed.

(** What holds when the slices [done] have been placed. *)
Definition wellPlaced (done : list Op) (st : SubRows) : Prop :=
  badSlices_ st = [] ∧
  concat (subRows st) ≡ₚ done ∧
  ((subRows st = [[]] ∧ done = []) ∨ Forall (λ row, row ≠ []) (subRows st)) ∧
  Forall (StronglySorted opLe) (subRows st) ∧
  (∀ j x, placed (subRows st) (S j) x →
     ∃ p, placed (subRows st) j p ∧ bounds p.2 x.2 = true ∧ opLe p x) ∧
  (∀ i children c, subSlices st !! i = Some children → c ∈ children →
     ∃ p, (i, p) ∈ done ∧ hasSubSlices p = true ∧ bounds p c.2 = true ∧
          c ∈ done).

(** With every placed slice starting no later than [slice], the walk
    up the rows finds no bad slice: it changes nothing, or it places
    the slice under the last slice of a row, which bounds it. *)
Lemma tryRows_in_order (slice : Op) (k : nat) : ∀ (st : SubRows) (b : bool),
  (∀ j p, placed (subRows st) j p → start p.2 ≤ start slice.2) →
  tryRows slice k st b = (st, b) ∨
  ∃ j p row, (j < k)%nat ∧ subRows st !! j = Some row ∧ last row = Some p ∧
             bounds p.2 slice.2 = true ∧
             tryRows slice k st b = (placeUnder j p slice st, true).
Proof.
  induction k as [|j IH]; intros st b Hle; simpl; [left; reflexivity|].
  destruct (subRows st !! j) as [row|] eqn:Hrow; simpl.
  - destruct (last row) as [p|] eqn:Hlast.
    + assert (Hp : start p.2 ≤ start slice.2).
      { apply (Hle j). exists row. split; [assumption|].
        apply last_Some in Hlast as [l' ->]. apply elem_of_app. right.
        apply list_elem_of_here. }
      destruct (decide (start slice.2 < start p.2)); [lia|].
      destruct (bounds p.2 slice.2) eqn:Hb.
      * right. exists j, p, row. auto.
      * destruct (IH st b Hle) as [->|(j' & p' & row' & Hj & H)];
          [left; reflexivity|].
        right. exists j', p', row'. split; [lia|exact H].
    + destruct (IH st b Hle) as [->|(j' & p' & row' & Hj & H)];
        [left; reflexivity|].
      right. exists j', p', row'. split; [lia|exact H].
  - destruct (IH st b Hle) as [->|(j' & p' & row' & Hj & H)];
      [left; reflexivity|].
    right. exists j', p', row'. split; [lia|exact H].
Qed.

(** The rows after a slice that starts no earlier than the placed ones
    was pushed to row [t]. *)
Lemma pushTo_rows (done : list Op) (rows : list (list Op)) (t : nat) (x : Op) :
  (t ≤ length rows)%nat →
  (t = 0%nat ∨ Forall (λ row, row ≠ []) rows) →
  concat rows ≡ₚ done →
  ((rows = [[]] ∧ done = []) ∨ Forall (λ row, row ≠ []) rows) →
  Forall (StronglySorted opLe) rows →
  (∀ p, p ∈ done → opLe p x) →
  concat (pushTo t x rows) ≡ₚ done ++ [x] ∧
  Forall (λ row, row ≠ []) (pushTo t x rows) ∧
  Forall (StronglySorted opLe) (pushTo t x rows).
Proof.
  intros Ht Hroot Hperm Hne Hsorted Hle.
  split; [|split].
  - rewrite pushTo_concat, Hperm. apply Permutation_cons_append.
  - apply Forall_lookup. intros i row.
    rewrite pushTo_lookup by assumption.
    destruct (decide (i = t)) as [->|Hi].
    + intros [= <-]. destruct (default [] (rows !! t)); discriminate.
    + intros Hrow.
      destruct Hne as [[-> _]|Hne].
      * destruct Hroot as [->|Hroot].
        -- destruct i as [|i]; [congruence|].
           rewrite lookup_cons_ne_0, lookup_nil in Hrow by lia. discriminate.
        -- apply Forall_cons in Hroot as [Hroot _]. congruence.
      * eapply Forall_lookup_1 in Hne; eauto.
  - apply Forall_lookup. intros i row.
    rewrite pushTo_lookup by assumption.
    destruct (decide (i = t)) as [->|Hi].
    + intros [= <-].
      apply StronglySorted_app_2.
      * intros x1 x2 Hx1 ->%list_elem_of_singleton. apply Hle.
        rewrite <- Hperm. apply (placed_concat rows t).
        destruct (rows !! t) as [row|] eqn:Hrow; simpl in Hx1;
          [exists row; auto|].
        apply elem_of_nil in Hx1. contradiction.
      * destruct (rows !! t) as [row|] eqn:Hrow; simpl; [|constructor].
        eapply Forall_lookup_1 in Hsorted; eauto.
      * repeat constructor.
    + intros Hrow. eapply Forall_lookup_1 in Hsorted; eauto.
Qed.

Lemma placeSlice_wellPlaced (done : list Op) (st : SubRows) (x : Op) :
  wellPlaced done st → (∀ p, p ∈ done → opLe p x) →
  wellPlaced (done ++ [x]) (placeSlice st x).
Proof.
  intros (Hbad & Hperm & Hne & Hsorted & Hparent & Hchildren) Hle.
  assert (Hstart : ∀ j p, placed (subRows st) j p → start p.2 ≤ start x.2).
  { intros j p Hp. assert (opLe p x) as Hpx.
    { apply Hle. rewrite <- Hperm. eapply placed_concat; eauto. }
    unfold opLe in Hpx. lia. }
  assert (Hdone : ∀ c, c ∈ done → c ∈ done ++ [x])
    by (intros c Hc; apply elem_of_app; tauto).
  unfold placeSlice.
  destruct (tryRows_in_order x (length (subRows st)) st false Hstart)
    as [->|(j & p & row & Hj & Hrow & Hlast & Hb & ->)].
  - (* a root *)
    destruct (pushTo_rows done (subRows st) 0 x ltac:(lia)
                (or_introl eq_refl) Hperm Hne Hsorted Hle) as (H1 & H2 & H3).
    unfold wellPlaced. simpl.
    split; [assumption|]. split; [assumption|]. split; [auto|].
    split; [assumption|]. split.
    + intros j' y [[? _]|Hy]%placed_pushTo; [discriminate| |lia].
      destruct (Hparent j' y Hy) as (p & Hp & Hbp & Hpy).
      exists p. split; [|auto]. apply placed_pushTo; [lia|tauto].
    + intros i children c Hi Hc.
      destruct (Hchildren i children c Hi Hc) as (p & Hp & Hh & Hbp & Hcd).
      exists p. auto.
  - (* under the last slice of row j *)
    assert (Hp : p ∈ row).
    { apply last_Some in Hlast as [l' ->]. apply elem_of_app. right.
      apply list_elem_of_here. }
    assert (Hpd : p ∈ done).
    { rewrite <- Hperm. apply (placed_concat _ j). exists row. auto. }
    assert (Hall : Forall (λ row, row ≠ []) (subRows st)).
    { destruct Hne as [[Hrows _]|Hall]; [|assumption].
      rewrite Hrows in Hrow. destruct j as [|j].
      - injection Hrow as <-. apply elem_of_nil in Hp. contradiction.
      - rewrite lookup_cons_ne_0, lookup_nil in Hrow by lia. discriminate. }
    destruct (pushTo_rows done (subRows st) (S j) x ltac:(lia)
                (or_intror Hall) Hperm Hne Hsorted Hle) as (H1 & H2 & H3).
    unfold wellPlaced, placeUnder. simpl.
    split; [assumption|]. split; [assumption|]. split; [auto|].
    split; [assumption|]. split.
    + intros j' y [[[= ->] ->]|Hy]%placed_pushTo; [| |lia].
      * exists p. split; [|auto]. apply placed_pushTo; [lia|].
        right. exists row. auto.
      * destruct (Hparent j' y Hy) as (q & Hq & Hbq & Hqy).
        exists q. split; [|auto]. apply placed_pushTo; [lia|tauto].
    + intros i children c Hi Hc.
      assert (Hold : ∀ children', subSlices st !! i = Some children' →
                c ∈ children' →
                ∃ q, (i, q) ∈ done ++ [x] ∧ hasSubSlices q = true ∧
                     bounds q c.2 = true ∧ c ∈ done ++ [x]).
      { intros children' Hi' Hc'.
        destruct (Hchildren i children' c Hi' Hc') as (q & Hq & Hh & Hbq & Hcd).
        exists q. auto. }
      destruct (hasSubSlices p.2) eqn:Hhas; [|eauto].
      destruct (decide (i = p.1)) as [->|Hne'].
      * rewrite lookup_alter_eq in Hi.
        destruct (subSlices st !! p.1) as [children'|] eqn:Hold';
          simpl in Hi; [|discriminate].
        injection Hi as <-. apply elem_of_app in Hc as [Hc|Hc]; [eauto|].
        apply list_elem_of_singleton in Hc as ->.
        exists p.2. rewrite <- surjective_pairing.
        split; [auto|]. split; [assumption|]. split; [assumption|].
        apply elem_of_app. right. apply list_elem_of_here.
      * rewrite lookup_alter_ne in Hi by congruence. eauto.
Qed.

Lemma foldl_placeSlice_wellPlaced (rest : list Op) : ∀ (done : list Op) st,
  wellPlaced done st → StronglySorted opLe (done ++ rest) →
  wellPlaced (done ++ rest) (foldl placeSlice st rest).
Proof.
  induction rest as [|x rest IH]; intros done st Hst Hs; simpl.
  - rewrite app_nil_r. exact Hst.
  - rewrite (cons_middle x done rest), app_assoc.
    apply IH.
    + apply placeSlice_wellPlaced; [assumption|].
      apply StronglySorted_app in Hs as (Hcross & _ & _).
      intros p Hp. apply Hcross; [assumption|apply list_elem_of_here].
    + rewrite <- app_assoc. exact Hs.
Qed.

Lemma buildSubRows_wellPlaced (slices : list Slice) (st : SubRows) :
  buildSubRows_ slices = Some st →
  wellPlaced (merge_sort opLe (indexed slices)) st.
Proof.
  intros Hst.
  assert (Hfold : st = foldl placeSlice
            {| subRows := [[]]; badSlices_ := [];
               subSlices :=
                 list_to_map
                   (omap (λ op : Op,
                            if hasSubSlices op.2 then Some (op.1, []) else None)
                         (indexed slices)) |}
            (merge_sort opLe (indexed slices))).
  { unfold buildSubRows_ in Hst. destruct slices; [discriminate|].
    injection Hst as <-. reflexivity. }
  subst st. clear Hst.
  apply (foldl_placeSlice_wellPlaced _ []).
  - unfold wellPlaced. cbn [subRows badSlices_ subSlices concat app].
    split; [reflexivity|]. split; [reflexivity|].
    split; [auto|]. split; [repeat constructor|]. split.
    + intros j x (row & Hrow & _).
      rewrite lookup_cons_ne_0, lookup_nil in Hrow by lia. discriminate.
    + intros i children c Hi Hc.
      apply elem_of_list_to_map_2, list_elem_of_omap in Hi as (op & _ & Hop).
      destruct (hasSubSlices op.2); [|discriminate].
      injection Hop as _ <-. apply elem_of_nil in Hc. contradiction.
  - apply StronglySorted_merge_sort; apply _.
Qed.
End SliceGroupTrack.

Arguments subRows {Slice} _.
Arguments badSlices_ {Slice} _.
Arguments subSlices {Slice} _.
Arguments opLe {Slice} start x y.
Arguments indexed {Slice} slices.
Arguments buildSubRows_ {Slice} start hasSubSlices bounds slices.

(** The example of the comment in the source: slices as [start, end]. *)
Definition span : Type := Z * Z.
Definition spanBounds (outer inner : span) : bool :=
  bool_decide (outer.1 ≤ inner.1) && bool_decide (inner.2 ≤ outer.2).

Example buildSubRows_ex :
  (λ st, (map (map snd) (subRows st), badSlices_ st)) <$>
    buildSubRows_ (fst : span → Z) (λ _, false) spanBounds
      [ (0, 100); (10, 40); (10, 20); (20, 40); (50, 60); (120, 130) ]
  = Some ([ [ (0, 100); (120, 130) ];
            [ (10, 40); (50, 60) ];
            [ (10, 20); (20, 40) ] ], []).
Proof. vm_compute. reflexivity. Qed.

(** X21.  [buildSubRows_] on a non-empty array of slices: no slice is
    ever found bad ([this.badSlices_] ends empty), whatever [bounds]
    answers; every slice is placed in exactly one row; no row is empty
    and every row is in the order of the sort (by start, ties by index);
    every slice below the first row has in the row above it a slice
    that bounds it and precedes it in that order; and the [subSlices]
    of a slice hold only slices that it bounds. *)
Theorem buildSubRows_places_every_slice (Slice : Type) (start : Slice → Z)
    (hasSubSlices : Slice → bool) (bounds : Slice → Slice → bool)
    (slices : list Slice) (st : SubRows Slice) :
  buildSubRows_ start hasSubSlices bounds slices = Some st →
  badSlices_ st = [] ∧
  concat (subRows st) ≡ₚ indexed slices ∧
  Forall (λ row, row ≠ [] ∧ StronglySorted (opLe start) row) (subRows st) ∧
  (∀ j row x, subRows st !! S j = Some row → x ∈ row →
     ∃ prow p, subRows st !! j = Some prow ∧ p ∈ prow ∧
               bounds p.2 x.2 = true ∧ opLe start p x) ∧
  (∀ i children c, subSlices st !! i = Some children → c ∈ children →
     ∃ p, slices !! i = Some p ∧ hasSubSlices p = true ∧
          bounds p c.2 = true).
Proof.
  intros Hst.
  destruct (buildSubRows_wellPlaced Slice start hasSubSlices bounds slices st
              Hst) as (Hbad & Hperm & Hne & Hsorted & Hparent & Hchildren).
  pose proof (merge_sort_Permutation (opLe start) (indexed slices)) as Hops.
  split; [exact Hbad|]. split; [rewrite Hperm; exact Hops|].
  split; [|split].
  - assert (Hall : Forall (λ row, row ≠ []) (subRows st)).
    { destruct Hne as [[_ Hnil]|Hall]; [|assumption].
      rewrite Hnil in Hops. apply Permutation_nil_l in Hops.
      unfold buildSubRows_ in Hst. destruct slices; discriminate. }
    apply Forall_and. split; assumption.
  - intros j row x Hrow Hx.
    destruct (Hparent j x) as (p & (prow & Hprow & Hp) & Hb & Hle);
      [exists row; auto|].
    exists prow, p. auto.
  - intros i children c Hi Hc.
    destruct (Hchildren i children c Hi Hc) as (p & Hp & Hh & Hb & _).
    exists p. split; [|auto].
    rewrite Hops in Hp. unfold indexed in Hp.
    apply elem_of_lookup_imap in Hp as (i' & p' & [= -> ->] & Hp).
    exact Hp.
Qed.

Lemma buildSubRows_places_every_slice_witness :
  ∃ st, buildSubRows_ (fst : span → Z) (λ _, true) spanBounds
          [ (0, 100); (10, 40); (10, 20); (20, 40); (50, 60); (120, 130) ]
        = Some st ∧
        badSlices_ st = [] ∧ length (concat (subRows st)) = 6%nat.
Proof.
  destruct (buildSubRows_ (fst : span → Z) (λ _, true) spanBounds
              [ (0, 100); (10, 40); (10, 20); (20, 40); (50, 60); (120, 130) ])
    as [st|] eqn:Hst; [|vm_compute in Hst; discriminate].
  exists st. split; [reflexivity|].
  destruct (buildSubRows_places_every_slice span fst (λ _, true) spanBounds
              _ st Hst) as (Hbad & Hperm & _).
  split; [exact Hbad|]. rewrite Hperm. reflexivity.
Defined.

(** * From a write to the next read *)

Lemma getDataPoints_elem (req : Request) (db : Database) (lo hi k : Z)
    (row : Row) :
  revisionRange_ req = Range.Interval lo hi → lo ≤ k ≤ hi →
  dataStore db !! k = Some row → row ∈ getDataPoints_ req db.
Proof.
  intros Hrange Hk Hrow. unfold getDataPoints_.
  destruct (storeEntries_facts (dataStore db)) as (_ & _ & Hin).
  apply Hin in Hrow.
  destruct (_ && _).
  - apply list_elem_of_fmap. exists (k, row). auto.
  - rewrite Hrange. apply list_elem_of_fmap. exists (k, row).
    split; [reflexivity|]. apply list_elem_of_filter. auto.
Qed.

Lemma firstIntersection_overlapping (req : Request)
    (rangeDicts : list Range.dict) (d : Range.dict) :
  d ∈ rangeDicts →
  Range.isEmpty (Range.findIntersection (Range.fromDict d)
                   (revisionRange_ req)) = false →
  is_Some (firstIntersection req rangeDicts).
Proof.
  intros Hd Hne. pose proof (firstIntersection_first req rangeDicts) as H.
  destruct (firstIntersection req rangeDicts); [eauto|].
  rewrite Forall_forall in H. rewrite (H d Hd) in Hne. discriminate.
Qed.

(** X22.  From a write to the next read of the same request: when rows
    were written, and the merge of the covered range into the stored
    ranges of a requested column (other than 'revision' and 'alert')
    holds a range that overlaps the request range, the next read returns
    cached rows, and among them, for every revision within the request
    range that a written row has, the last written row of that revision
    merged over the record stored before. *)
Theorem written_rows_read_back
    (mergeCovered : option Z → option Z → list Range.dict → list Range.dict)
    (req : Request) (now : Z) (payload : ResultObj) (db : Database)
    (rows : list Row) (lastRow : Row) (lo hi : Z) (col : string)
    (d : Range.dict) :
  data payload = Some rows → last rows = Some lastRow →
  revisionRange_ req = Range.Interval lo hi →
  col ∈ columns_ req → col ≠ "revision" → col ≠ "alert" →
  d ∈ mergeCovered (Some lo) (lastRow !! "revision")
        (default [] (rangeStore db !! col)) →
  Range.isEmpty (Range.findIntersection (Range.fromDict d)
                   (Range.Interval lo hi)) = false →
  let db' := writeDatabase mergeCovered req now payload db in
  ∃ cached, data (readDatabase_ req db') = Some cached ∧
    ∀ k datum, last (rowsWithKey "revision" k rows) = Some datum →
               lo ≤ k ≤ hi →
               objectAssign (default ∅ (dataStore db !! k)) datum ∈ cached.
Proof.
  intros Hdata Hlast Hrange Hcol Hrev Halert Hd Hne. cbv zeta.
  set (db' := writeDatabase mergeCovered req now payload db).
  assert (Havail : is_Some (getAvailableRangeByCol_ req (getRanges_ req db')
                            !! col)).
  { rewrite getAvailableRangeByCol_lookup.
    destruct (decide _) as [_|Hn]; [|exfalso; apply Hn; auto].
    subst db'. simpl. rewrite Hdata. unfold writeRanges_. rewrite Hlast.
    rewrite writeRanges_foldl_lookup by assumption.
    destruct (decide _); [|contradiction]. simpl.
    apply (firstIntersection_overlapping req _ d).
    - rewrite Hrange. exact Hd.
    - rewrite Hrange. exact Hne. }
  exists (getDataPoints_ req db'). split.
  - unfold readDatabase_. cbv zeta.
    destruct (decide _) as [Hz|_]; [|reflexivity].
    apply map_size_empty_iff in Hz. rewrite Hz, lookup_empty in Havail.
    destruct Havail as [? ?]. discriminate.
  - intros k datum Hk Hin.
    apply (getDataPoints_elem req db' lo hi k); [assumption..|].
    subst db'. simpl. rewrite Hdata. unfold writeData_.
    rewrite writeData_foldl_lookup, Hk. reflexivity.
Qed.

Lemma written_rows_read_back_witness :
  let db' := writeDatabase mergeCoveredSpec alertRequest 2000 alertPayload
               emptyDatabase in
  ∃ cached, data (readDatabase_ alertRequest db') = Some cached ∧
            {["revision" := 50; "avg" := 7; "alert" := 1]} ∈ cached.
Proof.
  cbv zeta.
  destruct (written_rows_read_back mergeCoveredSpec alertRequest 2000
              alertPayload emptyDatabase
              [ {["revision" := 50; "avg" := 7; "alert" := 1]};
                {["revision" := 100; "avg" := 8]} ]
              {["revision" := 100; "avg" := 8]} 0 100 "avg"
              (Range.DictMinMax 0 100))
    as (cached & Hdata & Hrows).
  - reflexivity.
  - reflexivity.
  - reflexivity.
  - in_list.
  - discriminate.
  - discriminate.
  - vm_compute. apply list_elem_of_here.
  - reflexivity.
  - exists cached. split; [exact Hdata|].
    specialize (Hrows 50 {["revision" := 50; "avg" := 7; "alert" := 1]}).
    simpl in Hrows. rewrite lookup_empty in Hrows. simpl in Hrows.
    unfold objectAssign in Hrows. rewrite (right_id_L ∅ (∪)) in Hrows.
    apply Hrows; [vm_compute; reflexivity|lia].
Defined.

(** * The final write of a run *)

Section FinalWrite.
Variable req : Request.
Variable self : nat.
Variable peers : list Peer.
Variable peerSets : Heap.
Variable memo : TimeseriesSlice → option ResultObj.
Variable network : TimeseriesSlice → nat → HttpResponse.
Variable completion : list (nat * Z).
Variable cacheResult : ResultObj.

Lemma generateResults_completed (now : Z) :
  let run := generateResults req self peers peerSets memo network completion
               cacheResult now in
  recentlyMissing now cacheResult = false → thrown run = None →
  ∃ gen, lastIsFinal gen ∧ snapshots run = yielded gen ∧
         scheduledWrites run
         = written gen ++
           (if hasRows (finalResult gen) then [finalResult gen] else []).
Proof.
  cbv zeta. unfold generateResults. cbv zeta. intros Hmissing.
  assert (Hcached : recentlyMissing now
            (match data cacheResult with
             | Some _ => deleteAvailableRangeByCol cacheResult
             | None => cacheResult
             end) = false)
    by (destruct (data cacheResult); exact Hmissing).
  rewrite Hcached. unfold fetchAndMerge. cbv zeta.
  destruct (findInProgressRequest _ _ _) as [st|message]; [|discriminate].
  set (arrivals := raceAllPromises completion _).
  pose proof (start_growing cacheResult) as Hstart.
  pose proof (start_lastIsFinal cacheResult) as Hfinal.
  unfold cachedPortion in Hstart, Hfinal.
  match goal with
  | |- context [handleResults req ?gen arrivals] =>
      destruct (handleResults_invariants req arrivals.*1 arrivals gen)
        as (_ & Hl & _)
  end.
  { destruct (data cacheResult); exact Hstart. }
  { destruct (data cacheResult); exact Hfinal. }
  { intros w Hw. apply elem_of_nil in Hw. contradiction. }
  { intros arrival Ha. apply list_elem_of_fmap. eauto. }
  destruct (handleResults req _ arrivals) as [gen' [message|]];
    [discriminate|].
  intros _. exists gen'. split; [apply Hl; reflexivity|]. split; reflexivity.
Qed.
End FinalWrite.

(** X23.  A run that is not suppressed by a recent missing timestamp and
    ends without an exception always writes its final result when the
    last snapshot has rows: the last scheduled write carries the data of
    the last snapshot.  This holds also when no slice was fetched: a hit
    on a warm cache schedules the cached rows for writing again. *)
Theorem final_result_written req self peers peerSets memo network
    completion cacheResult now (s : ResultObj) (datum : Row) (rows : list Row) :
  let run := generateResults req self peers peerSets memo network completion
               cacheResult now in
  recentlyMissing now cacheResult = false → thrown run = None →
  last (snapshots run) = Some s → data s = Some (datum :: rows) →
  ∃ w, last (scheduledWrites run) = Some w ∧ data w = Some (datum :: rows).
Proof.
  cbv zeta. intros Hmissing Hthrown Hlast Hdata.
  destruct (generateResults_completed req self peers peerSets memo network
              completion cacheResult now Hmissing Hthrown)
    as (gen & Hfinal & Hsnap & ->).
  unfold lastIsFinal in Hfinal.
  rewrite Hsnap in Hlast. rewrite Hlast in Hfinal.
  assert (Hrows : hasRows (finalResult gen) = true)
    by (unfold hasRows; rewrite <- Hfinal, Hdata; reflexivity).
  rewrite Hrows. exists (finalResult gen).
  split; [apply last_snoc|congruence].
Qed.

Lemma final_result_written_witness :
  let run := generateResults warmRequest 0 [] ∅ (λ _, None)
               (λ _ _, mkResponse 404 "Not Found" None) []
               (readDatabase_ warmRequest warmDatabase) 6000 in
  launched run = [] ∧
  ∃ w, last (scheduledWrites run) = Some w ∧
       data w = Some [ {["revision" := 50; "avg" := 7]};
                       {["revision" := 100; "avg" := 8]} ].
Proof.
  cbv zeta. split; [vm_compute; reflexivity|].
  eapply (final_result_written warmRequest 0%nat [] ∅ (λ _, None)
            (λ _ _, mkResponse 404 "Not Found" None) []
            (readDatabase_ warmRequest warmDatabase) 6000).
  - vm_compute. reflexivity.
  - vm_compute. reflexivity.
  - vm_compute. reflexivity.
  - vm_compute. reflexivity.
Defined.

(** X24.  The fetches that a run starts: each is for a slice that had no
    response yet, and the slice is one that the planner made for this
    request or a slice of a live peer with the same database name. *)
Theorem launched_slices req self peers peerSets memo network completion
    cacheResult now (slice : TimeseriesSlice) :
  slice ∈ launched (generateResults req self peers peerSets memo network
                      completion cacheResult now) →
  memo slice = None ∧
  (slice ∈ planSlices (getSlices_ req self cacheResult) ∨
   peerSlice (Some (databaseName req)) peers slice).
Proof.
  unfold generateResults. cbv zeta.
  destruct (recentlyMissing _ _);
    [intros H; apply elem_of_nil in H; contradiction|].
  unfold fetchAndMerge. cbv zeta.
  destruct (findInProgressRequest _ _ _) as [st|message] eqn:Hpass;
    [|intros H; apply elem_of_nil in H; contradiction].
  apply findInProgressRequest_onlyDropped in Hpass
    as (Hsub & _ & Hmatch & _).
  simpl in Hsub, Hmatch.
  assert (Hin : slice ∈ filter (λ s, memo s = None)
                          (slices st ++ matchingSlices st) →
                memo slice = None ∧
                (slice ∈ planSlices (getSlices_ req self cacheResult) ∨
                 peerSlice (Some (databaseName req)) peers slice)).
  { intros [Hmemo Hs]%list_elem_of_filter. split; [assumption|].
    apply elem_of_app in Hs as [Hs|Hs].
    - left. eapply elem_of_sublist; eauto.
    - destruct (Hmatch slice Hs) as [Hnil|Hpeer]; [|auto].
      apply elem_of_nil in Hnil. contradiction. }
  destruct (handleResults _ _ _) as [gen' [message|]]; exact Hin.
Qed.

Lemma launched_slices_witness :
  let run := generateResults warmRequest 0 [] ∅ (λ _, None)
               (λ _ _, mkResponse 200 "OK" (Some [[50; 7]; [100; 8]]))
               [(0%nat, 7000)]
               (readDatabase_ warmRequest emptyDatabase) 6000 in
  ∃ slice, launched run = [slice] ∧
           (slice ∈ planSlices (getSlices_ warmRequest 0
                                  (readDatabase_ warmRequest emptyDatabase)) ∨
            peerSlice (Some (databaseName warmRequest)) [] slice).
Proof.
  cbv zeta.
  set (run := generateResults warmRequest 0 [] ∅ (λ _, None)
                (λ _ _, mkResponse 200 "OK" (Some [[50; 7]; [100; 8]]))
                [(0%nat, 7000)]
                (readDatabase_ warmRequest emptyDatabase) 6000).
  assert (Hl : ∃ slice, launched run = [slice])
    by (vm_compute; eexists; reflexivity).
  destruct Hl as [slice Hl]. exists slice. split; [exact Hl|].
  apply (launched_slices warmRequest 0%nat [] ∅ (λ _, None)
           (λ _ _, mkResponse 200 "OK" (Some [[50; 7]; [100; 8]]))
           [(0%nat, 7000)]
           (readDatabase_ warmRequest emptyDatabase) 6000 slice).
  fold run. rewrite Hl. apply list_elem_of_here.
Defined.

(** * Responses that end the run *)

(** The variables of the loop after the statement that removes the
    alerts, for a response with the columns [cols]: when 'alert' is among
    them, the rows of the merged array within the request range have lost
    their alert (and with them the rows of the final result, which are
    the same objects). *)
Definition alertsRemoved (req : Request) (cols : list string)
    (st : Generating) : Generating :=
  if decide ("alert" ∈ cols)
  then {| mergedData := purgeAlerts req (mergedData st);
          finalResult := setData (purgeAlerts req <$> data (finalResult st))
                                 (finalResult st);
          yielded := yielded st; written := written st |}
  else st.

Section BrokenResponses.
Variable req : Request.

Lemma handleResult_without_columns (st : Generating) (now : Z)
    (result : ResultObj) :
  columns result = None →
  data result ≠ None ∨ status result ≠ Some HTTP_NOT_FOUND →
  handleResult req st now (Some result)
  = (st, Some "result.columns is undefined").
Proof.
  intros Hcols Hnot. unfold handleResult.
  assert (Hskip : bool_decide (data result = None) &&
                  bool_decide (status result = Some HTTP_NOT_FOUND) = false).
  { apply andb_false_iff. destruct Hnot as [Hd|Hs];
      [left|right]; apply bool_decide_eq_false_2; assumption. }
  rewrite Hskip, Hcols. reflexivity.
Qed.

Lemma handleResult_without_data (st : Generating) (now : Z)
    (result : ResultObj) (cols : list string) :
  columns result = Some cols → data result = None →
  status result ≠ Some HTTP_NOT_FOUND →
  handleResult req st now (Some result)
  = (alertsRemoved req cols st, Some "result.data is undefined").
Proof.
  intros Hcols Hdata Hstatus. unfold handleResult, alertsRemoved.
  rewrite (bool_decide_eq_false_2 (status result = Some HTTP_NOT_FOUND))
    by assumption.
  rewrite andb_false_r, Hcols. cbv zeta. simpl data. rewrite Hdata.
  destruct (decide _); [reflexivity|]. destruct st; reflexivity.
Qed.

Lemma handleResults_thrown (st st' : Generating) (now : Z)
    (result : ResultObj) (message : string)
    (before after : list (Z * option ResultObj)) :
  handleResult req (handleResults req st before).1 now (Some result)
    = (st', Some message) →
  (handleResults req st before).2 = None →
  handleResults req st (before ++ (now, Some result) :: after)
  = (st', Some message).
Proof.
  intros Hstep Hbefore. rewrite handleResults_app.
  destruct (handleResults req st before) as [st1 [m|]]; [discriminate|].
  change ((st1, @None string).1) with st1 in Hstep.
  rewrite handleResults_cons, Hstep. reflexivity.
Qed.
End BrokenResponses.

(** X25.  A response that is an error other than a 404 ends the run with
    an exception: the [{error, status}] object of a slice fetch whose
    status is not 404 has no columns, and a decoded body without data
    (and without the status 404) has columns but no rows.  In both cases
    the loop body throws, the responses that complete later are never
    handled, nothing more is yielded, and no write is scheduled for it.
    Without columns the variables of the loop are as they were; without
    rows the exception comes after the alerts were removed, so when
    'alert' is among the columns of the slice the rows within the request
    range have lost their alert by then.  (The response object, whose
    [columns] were reassigned by then as well, is not one of these
    variables.) *)
Theorem error_response_ends_the_loop (req : Request) (st : Generating)
    (now : Z) (response : HttpResponse) (sliceColumns : list string)
    (before after : list (Z * option ResultObj)) :
  (handleResults req st before).2 = None →
  let reached := (handleResults req st before).1 in
  (httpStatus response ≠ HTTP_NOT_FOUND →
   handleResults req st
     (before ++ (now, Some (errorResult response)) :: after)
   = (reached, Some "result.columns is undefined")) ∧
  (jsonData response = None →
   handleResults req st
     (before ++ (now, Some (successResult sliceColumns response)) :: after)
   = (alertsRemoved req sliceColumns reached,
      Some "result.data is undefined") ∧
   yielded (alertsRemoved req sliceColumns reached) = yielded reached ∧
   written (alertsRemoved req sliceColumns reached) = written reached ∧
   ("alert" ∈ sliceColumns →
    mergedData (alertsRemoved req sliceColumns reached)
    = purgeAlerts req (mergedData reached)) ∧
   ("alert" ∉ sliceColumns → alertsRemoved req sliceColumns reached = reached)).
Proof.
  intros Hbefore. cbv zeta. split.
  - intros Hstatus. apply handleResults_thrown; [|assumption].
    apply handleResult_without_columns; [reflexivity|].
    right. simpl. congruence.
  - intros Hdata. split.
    + apply handleResults_thrown; [|assumption].
      apply (handleResult_without_data req _ now _ sliceColumns).
      * reflexivity.
      * simpl. rewrite Hdata. reflexivity.
      * discriminate.
    + unfold alertsRemoved.
      destruct (decide _); repeat split; tauto.
Qed.

Lemma error_response_ends_the_loop_witness :
  handleResults warmRequest idle
    [ (7000, Some (errorResult (mkResponse 500 "Internal Server Error" None)));
      (8000, Some freshAlerts) ]
  = (idle, Some "result.columns is undefined") ∧
  ∃ st', handleResults alertRequest staleAlerts
           [ (7000, Some (successResult ["revision"; "alert"]
                            (mkResponse 200 "OK" None)));
             (8000, Some freshAlerts) ]
         = (st', Some "result.data is undefined") ∧
         mergedData st' = [ {["revision" := 50; "avg" := 7]};
                            {["revision" := 100; "avg" := 8]} ] ∧
         yielded st' = [].
Proof.
  split.
  - destruct (error_response_ends_the_loop warmRequest idle 7000
                (mkResponse 500 "Internal Server Error" None) [] []
                [(8000, Some freshAlerts)] eq_refl) as [Herror _].
    apply Herror. discriminate.
  - destruct (error_response_ends_the_loop alertRequest staleAlerts 7000
                (mkResponse 200 "OK" None) ["revision"; "alert"] []
                [(8000, Some freshAlerts)] eq_refl) as [_ Hempty].
    destruct (Hempty eq_refl) as (Hrun & Hy & _ & Hm & _).
    eexists. split; [exact Hrun|]. split.
    + rewrite Hm; [vm_compute; reflexivity|].
      apply elem_of_cons. right. apply list_elem_of_here.
    + rewrite Hy. reflexivity.
Defined.

(** * Coalescing without histogram slices *)

Lemma foldOutcome_total {A S} (Inv : S → Prop) (step : S → A → Outcome S)
    (l : list A) :
  (∀ s a, Inv s → a ∈ l → ∃ s', step s a = Returns s' ∧ Inv s') →
  ∀ s, Inv s → ∃ s', foldOutcome step s l = Returns s' ∧ Inv s'.
Proof.
  induction l as [|a l IH]; intros Hstep s Hs.
  - exists s. split; [reflexivity|assumption].
  - destruct (Hstep s a Hs (list_elem_of_here _ _)) as (s1 & Ha & H1).
    rewrite foldOutcome_cons, Ha, bind_Returns.
    apply IH; [|assumption].
    intros s2 b H2 Hb. apply Hstep; [assumption|].
    apply elem_of_cons. tauto.
Qed.

Section CoalescedColumns.
Variable databaseName_ : option string.
Variable peers : list Peer.
Variable st0 : Coalescing.
(** The request that coalesces: its slices hold its Set of columns, the
    slices of the peers hold the Sets of other requests. *)
Variable self : nat.
Hypothesis own_slices :
  ∀ s, s ∈ slices st0 → sliceColumns s = ColumnSet self.
Hypothesis peer_slices :
  ∀ other s, other ∈ peers → s ∈ peerSlices other →
    ∃ owner, sliceColumns s = ColumnSet owner ∧ owner ≠ self.

(** Every column that the request's Set held at the start is still in
    it or is in the Set of a borrowed slice; the Sets of the other
    requests are as they were; the slices left were planned. *)
Definition columnsKept (st : Coalescing) : Prop :=
  sublist (slices st) (slices st0) ∧
  (∀ owner, owner ≠ self → heap st !! owner = heap st0 !! owner) ∧
  (∀ col, col ∈ setContents (heap st0) self →
     col ∈ setContents (heap st) self ∨
     ∃ s owner, s ∈ matchingSlices st ∧ sliceColumns s = ColumnSet owner ∧
                owner ≠ self ∧ col ∈ setContents (heap st0) owner).

Lemma dropSharedColumn_columnsKept (slice otherSlice : TimeseriesSlice)
    (owner : nat) (st : Coalescing) (col : string) :
  sliceColumns slice = ColumnSet self →
  sliceColumns otherSlice = ColumnSet owner → owner ≠ self →
  columnsKept st →
  ∃ st', dropSharedColumn slice otherSlice st col = Returns st' ∧
         columnsKept st'.
Proof.
  intros Hslice Hother Hne (Hsub & Hheap & Hcols). unfold dropSharedColumn.
  destruct (decide (col = "revision"));
    [exists st; split; [reflexivity|repeat split; assumption]|].
  rewrite Hother, Hslice. simpl.
  destruct (bool_decide_reflect (col ∈ setContents (heap st) owner))
    as [Hhas|Hhas];
    [|exists st; split; [reflexivity|repeat split; assumption]].
  eexists. split; [reflexivity|].
  unfold columnsKept. simpl. split; [assumption|]. split.
  - intros o Ho. rewrite lookup_insert_ne by congruence. auto.
  - intros c Hc. rewrite setContents_insert.
    destruct (decide (self = self)); [|congruence].
    destruct (Hcols c Hc) as [Hstill|(s & o & Hs & Ho & Hno & Hco)].
    + destruct (decide (c = col)) as [->|Hcc].
      * right. exists otherSlice, owner.
        split; [apply elem_of_sliceSetAdd; tauto|].
        split; [assumption|]. split; [assumption|].
        unfold setContents in *. rewrite <- (Hheap owner Hne). exact Hhas.
      * left. apply elem_of_setDelete. auto.
    + right. exists s, o. split; [apply elem_of_sliceSetAdd; tauto|auto].
Qed.

Lemma compareSlices_columnsKept (slice otherSlice : TimeseriesSlice)
    (owner : nat) (st : Coalescing) :
  sliceColumns slice = ColumnSet self →
  sliceColumns otherSlice = ColumnSet owner → owner ≠ self →
  columnsKept st →
  ∃ st', compareSlices slice st otherSlice = Returns st' ∧ columnsKept st'.
Proof.
  intros Hslice Hother Hne Hst. unfold compareSlices. cbv zeta.
  destruct (decide _); [exists st; auto|].
  destruct (foldOutcome_total columnsKept (dropSharedColumn slice otherSlice)
              (columnsList (heap st) (sliceColumns slice))) with (s := st)
    as (st1 & -> & H1); [|assumption|].
  { intros s col Hs _. eapply dropSharedColumn_columnsKept; eauto. }
  rewrite bind_Returns.
  destruct (columnsSizeIsOne _ _); [|exists st1; auto].
  eexists. split; [reflexivity|].
  destruct H1 as (Hsub & Hheap & Hcols).
  unfold columnsKept. simpl. split; [|auto].
  etransitivity; [apply sublist_filter|exact Hsub].
Qed.

Lemma coalesceWith_columnsKept (other : Peer) (st : Coalescing) :
  other ∈ peers → columnsKept st →
  ∃ st', coalesceWith databaseName_ st other = Returns st' ∧ columnsKept st'.
Proof.
  intros Hother Hst. unfold coalesceWith.
  destruct (decide _); [exists st; auto|].
  apply foldOutcome_total; [|assumption].
  intros s slice Hs Hslice.
  apply foldOutcome_total; [|assumption].
  intros s1 otherSlice Hs1 Hin.
  destruct (peer_slices other otherSlice Hother Hin) as (owner & Ho & Hne).
  apply (compareSlices_columnsKept slice otherSlice owner); try assumption.
  apply own_slices. destruct Hst as (Hsub & _).
  eapply elem_of_sublist; eauto.
Qed.

Lemma findInProgressRequest_columnsKept :
  ∃ st', findInProgressRequest databaseName_ peers st0 = Returns st' ∧
         columnsKept st'.
Proof.
  unfold findInProgressRequest. apply foldOutcome_total.
  - intros s other Hs Hother. apply coalesceWith_columnsKept; assumption.
  - split; [reflexivity|]. split; [reflexivity|]. intros col Hcol. tauto.
Qed.
End CoalescedColumns.

(** X26.  When every planned slice holds the request's Set of columns
    (no histogram slice) and the slices of the live peers hold Sets of
    other requests, the coalescing pass ends without an exception, and
    it loses no column: every column that the request's Set held before
    the pass is still in it afterwards or is in the Set of a borrowed
    slice, and the Sets of the other requests are unchanged. *)
Theorem coalescing_keeps_every_column (databaseName_ : option string)
    (peers : list Peer) (st : Coalescing) (self : nat) :
  (∀ s, s ∈ slices st → sliceColumns s = ColumnSet self) →
  (∀ other s, other ∈ peers → s ∈ peerSlices other →
     ∃ owner, sliceColumns s = ColumnSet owner ∧ owner ≠ self) →
  ∃ st', findInProgressRequest databaseName_ peers st = Returns st' ∧
    (∀ owner, owner ≠ self → heap st' !! owner = heap st !! owner) ∧
    ∀ col, col ∈ setContents (heap st) self →
      col ∈ setContents (heap st') self ∨
      ∃ s owner, s ∈ matchingSlices st' ∧ sliceColumns s = ColumnSet owner ∧
                 col ∈ setContents (heap st') owner.
Proof.
  intros Hown Hpeers.
  destruct (findInProgressRequest_columnsKept databaseName_ peers st self
              Hown Hpeers) as (st' & Hpass & _ & Hheap & Hcols).
  exists st'. split; [exact Hpass|]. split; [exact Hheap|].
  intros col Hcol.
  destruct (Hcols col Hcol) as [Hstill|(s & owner & Hs & Ho & Hne & Hc)];
    [left; assumption|].
  right. exists s, owner. split; [assumption|]. split; [assumption|].
  unfold setContents in *. rewrite (Hheap owner Hne). exact Hc.
Qed.

Lemma coalescing_keeps_every_column_witness :
  ∃ st', findInProgressRequest timeseriesName
           [ {| peerDatabaseName_ := timeseriesName;
                peerSlices := [avgSlice 1 0 0 200] |} ]
           {| heap := {[ 0%nat := ["revision"; "avg"; "std"];
                         1%nat := ["revision"; "avg"] ]};
              slices := [avgSlice 0 0 0 100];
              matchingSlices := [] |} = Returns st' ∧
         heap st' !! 1%nat = Some ["revision"; "avg"].
Proof.
  destruct (coalescing_keeps_every_column timeseriesName
              [ {| peerDatabaseName_ := timeseriesName;
                   peerSlices := [avgSlice 1 0 0 200] |} ]
              {| heap := {[ 0%nat := ["revision"; "avg"; "std"];
                            1%nat := ["revision"; "avg"] ]};
                 slices := [avgSlice 0 0 0 100];
                 matchingSlices := [] |} 0%nat)
    as (st' & Hpass & Hheap & _).
  - intros s ->%list_elem_of_singleton. reflexivity.
  - intros other s ->%list_elem_of_singleton ->%list_elem_of_singleton.
    exists 1%nat. split; [reflexivity|discriminate].
  - exists st'. split; [exact Hpass|]. rewrite Hheap by discriminate.
    reflexivity.
Defined.
